(** * SPaT visualizer: decoder, time resolver and countdown smoother

    A shallow embedding of [code_test_3_base_on_code_2.py] and
    [Offline_simulation_code.py], and the properties of their decoder, Time
    Resolver and Countdown Smoother.

    - Python [int] is [Z].  Python [float] is IEEE-754 binary64, taken from
      the Standard Library's executable specification [SpecFloat]
      ([prec = 53], [emax = 1024], round to nearest, ties to even); the
      operations [/], [-], [+] and the comparisons are [SFdiv], [SFsub],
      [SFadd] and [SFcompare], and [%] is the interpreter's [float_rem]
      over C's [fmod].
    - [None] is [option]; a raised exception is the [Raise] case of [res].
    - An [xml.etree.ElementTree] element is a rose tree of tag, text and
      children; the ElementPath expressions of the source are lists of
      steps.  [ET.fromstring] itself is not modelled: a block of the log is
      the tree it returns, or [None] when it raises [ParseError].
    - Text is a [string] whose characters are read as code points below 256.
    - The [lanes] dictionary of [parse_map] is a [gmap].
    - Reading the log file, cutting it into blocks and drawing a card on the
      terminal are outside the model; a call of [draw_card] is the record
      [card] of its arguments.  [time.sleep] is modelled by what it
      raises: [ValueError] on a NaN or negative length, [OverflowError] on
      a length whose nanoseconds do not fit the signed 64-bit timer.
      [int] has the interpreter's default limit of 4300 digits.

    Part I holds the programs, Part II the facts about binary64 rounding
    that the proofs need, Part III the properties. *)

From stdpp Require Import base gmap.
From Stdlib Require Import ZArith Lia List Bool String Ascii SpecFloat.
From Stdlib Require Floats Uint63.
Import ListNotations.
Local Open Scope Z_scope.
Set Warnings "-register-all".
Local Open Scope string_scope.
Local Open Scope Z_scope.

(* ===================================================================== *)
(** * Part I.  The programs                                               *)
(* ===================================================================== *)

(** ** Exceptions *)

Inductive exn : Set :=
| OverflowError      (* an int too large for a float, a sleep too long for the timer *)
| ValueError         (* int() of a non-literal, min() of nothing, sleep(<0), sleep(nan) *)
| ZeroDivisionError
| ParseError.        (* ET.fromstring on text that is not a document *)

Inductive res (A : Type) : Type :=
| Ok (a : A)
| Raise (e : exn).
Arguments Ok {A} a.
Arguments Raise {A} e.

Definition rbind {A B : Type} (r : res A) (k : A -> res B) : res B :=
  match r with
  | Ok a => k a
  | Raise e => Raise e
  end.

Notation "'let*' x ':=' r 'in' k" := (rbind r (fun x => k))
  (at level 10, x name, r at level 99, k at level 200).

(** ** Python floats *)

Module PyFloat.

Definition prec : Z := 53.
Definition emax : Z := 1024.

Definition float : Type := spec_float.

Definition sub : float -> float -> float := SFsub prec emax.
Definition add : float -> float -> float := SFadd prec emax.
Definition mul : float -> float -> float := SFmul prec emax.
Definition leb : float -> float -> bool := SFleb.
Definition ltb : float -> float -> bool := SFltb.

(** The float nearest to an integer (ties to even); an infinity when the
    integer is beyond the largest float. *)
Definition round_int (z : Z) : float := binary_normalize prec emax z 0 false.

(** The literals of the source. *)
Definition f0 : float := S754_zero false.
Definition f5 : float := Eval vm_compute in round_int 5.
Definition f10 : float := Eval vm_compute in round_int 10.
Definition f60 : float := Eval vm_compute in round_int 60.
Definition f100 : float := Eval vm_compute in round_int 100.
Definition f1000 : float := Eval vm_compute in round_int 1000.
Definition f0_01 : float := Eval vm_compute in SFdiv prec emax (round_int 1) (round_int 100).
Definition f0_05 : float := Eval vm_compute in SFdiv prec emax (round_int 5) (round_int 100).

Definition is_zero (x : float) : bool :=
  match x with
  | S754_zero _ => true
  | _ => false
  end.

(** [float(z)] as the interpreter does it for an [int] operand of a float
    operation: correctly rounded, [OverflowError] beyond the float range. *)
Definition of_int (z : Z) : res float :=
  match round_int z with
  | S754_infinity _ => Raise OverflowError
  | f => Ok f
  end.

(** [x / y] on floats. *)
Definition truediv (x y : float) : res float :=
  if is_zero y then Raise ZeroDivisionError else Ok (SFdiv prec emax x y).

(** [z / y] with [z] an [int] and [y] a [float]. *)
Definition int_truediv (z : Z) (y : float) : res float :=
  let* x := of_int z in truediv x y.

(** C's [fmod]: the result has the sign of [x] and is exact. *)
Definition fmod (x y : float) : float :=
  match x, y with
  | S754_nan, _ | _, S754_nan => S754_nan
  | S754_infinity _, _ => S754_nan
  | _, S754_zero _ => S754_nan
  | S754_zero _, _ => x
  | S754_finite _ _ _, S754_infinity _ => x
  | S754_finite sx mx ex, S754_finite _ my ey =>
      let e0 := Z.min ex ey in
      let X := Zpos mx * 2 ^ (ex - e0) in
      let Y := Zpos my * 2 ^ (ey - e0) in
      binary_normalize prec emax (cond_Zopp sx (X mod Y)) e0 sx
  end.

Definition sign_bit (x : float) : bool :=
  match x with
  | S754_zero s | S754_infinity s | S754_finite s _ _ => s
  | S754_nan => false
  end.

(** [x % y] on floats ([float_rem] of the interpreter): [fmod], moved to the
    sign of the divisor; a zero remainder takes the divisor's sign. *)
Definition float_rem (vx wx : float) : res float :=
  if is_zero wx then Raise ZeroDivisionError
  else
    let m := fmod vx wx in
    if is_zero m then Ok (S754_zero (sign_bit wx))
    else if negb (Bool.eqb (ltb wx f0) (ltb m f0)) then Ok (add m wx)
    else Ok m.

(** [max(a, b)] and [min(l)]: the first of the largest, the first of the least. *)
Definition max2 (a b : float) : float := if ltb a b then b else a.

Definition min_list (l : list float) : res float :=
  match l with
  | [] => Raise ValueError
  | x :: r => Ok (fold_left (fun acc c => if ltb c acc then c else acc) r x)
  end.

End PyFloat.
Export PyFloat.

Fixpoint mapM {A B : Type} (f : A -> res B) (l : list A) : res (list B) :=
  match l with
  | [] => Ok []
  | a :: r => let* b := f a in let* bs := mapM f r in Ok (b :: bs)
  end.

(** ** Time Resolver *)

Definition in_0_60 (c : float) : bool := leb f0 c && leb c f60.

(** The primary hypothesis: [now] in milliseconds, [met] in deciseconds. *)
Definition primary (now_val met_val : Z) : res float :=
  let* a := int_truediv now_val f1000 in
  let* now_sec := float_rem a f60 in
  let* b := int_truediv met_val f10 in
  let* end_sec := float_rem b f60 in
  float_rem (sub end_sec now_sec) f60.

(** The four fallback hypotheses. *)
Definition fallback (now_val met_val : Z) : res float :=
  let* candidates :=
    mapM (fun '(modulo, scale) => int_truediv ((met_val - now_val) mod modulo) scale)
         [(600, f10); (6000, f100); (60000, f1000); (65536, f1000)] in
  let small := List.filter in_0_60 candidates in
  match small with
  | _ :: _ => min_list small
  | [] => let* best := min_list candidates in float_rem best f60
  end.

Definition detect_unit_and_delta (now_val met_val : option Z) : res (option float) :=
  match now_val, met_val with
  | Some now_val, Some met_val =>
      let* remaining := primary now_val met_val in
      if in_0_60 remaining then Ok (Some remaining)
      else let* r := fallback now_val met_val in Ok (Some r)
  | _, _ => Ok None
  end.

(** ** Python strings *)

Module PyStr.

Definition code (c : ascii) : N := N_of_ascii c.

(** [str.isspace] on the code points below 256. *)
Definition is_space (c : ascii) : bool :=
  let n := code c in
  ((9 <=? n) && (n <=? 13) || (28 <=? n) && (n <=? 32) || (n =? 133) || (n =? 160))%N.

(** The blanks [int] skips around a literal: the C blanks, and the two
    non-ASCII spaces below 256 (the separators 28 to 31 are not skipped). *)
Definition is_int_space (c : ascii) : bool :=
  let n := code c in
  ((9 <=? n) && (n <=? 13) || (n =? 32) || (n =? 133) || (n =? 160))%N.

(** The decimal digits [0-9], the only characters [int] reads as digits. *)
Definition is_decimal (c : ascii) : bool :=
  let n := code c in ((48 <=? n) && (n <=? 57))%N.

(** [str.isdigit] on one character: the decimal digits and the superscript
    digits U+00B2, U+00B3 and U+00B9. *)
Definition is_digit (c : ascii) : bool :=
  let n := code c in (is_decimal c || (n =? 178) || (n =? 179) || (n =? 185))%N.

Definition digit_val (c : ascii) : Z := Z.of_N (code c) - 48.

Fixpoint lstrip (blank : ascii -> bool) (l : list ascii) : list ascii :=
  match l with
  | c :: r => if blank c then lstrip blank r else l
  | [] => []
  end.

Definition strip_list (blank : ascii -> bool) (l : list ascii) : list ascii :=
  rev (lstrip blank (rev (lstrip blank l))).

(** [s.strip()] *)
Definition strip (s : string) : string :=
  string_of_list_ascii (strip_list is_space (list_ascii_of_string s)).

(** [s.isdigit()] *)
Definition isdigit (s : string) : bool :=
  match list_ascii_of_string s with
  | [] => false
  | l => forallb is_digit l
  end.

(** Truth value of a string. *)
Definition nonempty (s : string) : bool :=
  match s with
  | EmptyString => false
  | _ => true
  end.

(** Digits of a decimal literal, where single underscores may separate digits. *)
Fixpoint digits (l : list ascii) (acc : Z) : option Z :=
  match l with
  | [] => Some acc
  | c :: r =>
      if is_decimal c then digits r (10 * acc + digit_val c)
      else if Ascii.eqb c "_" then
        match r with
        | d :: r' => if is_decimal d then digits r' (10 * acc + digit_val d) else None
        | [] => None
        end
      else None
  end.

Definition unsigned (l : list ascii) : option Z :=
  match l with
  | c :: r => if is_decimal c then digits r (digit_val c) else None
  | [] => None
  end.

(** A literal with its optional sign. *)
Definition literal (l : list ascii) : option Z :=
  match l with
  | c :: r =>
      if Ascii.eqb c "-" then option_map Z.opp (unsigned r)
      else if Ascii.eqb c "+" then unsigned r
      else unsigned (c :: r)
  | [] => None
  end.

(** The interpreter's default limit on the digits of a decimal literal. *)
Definition max_str_digits : nat := 4300.

(** [int(s)] in base ten; [None] stands for [ValueError], which is also what
    a literal of more than [max_str_digits] digits raises (leading zeros
    count, underscores and the sign do not). *)
Definition int (s : string) : option Z :=
  let l := strip_list is_int_space (list_ascii_of_string s) in
  if Nat.ltb max_str_digits (List.length (List.filter is_decimal l)) then None
  else literal l.

(** [a or b] on optional strings: [None] and the empty string are false. *)
Definition or_else (a b : option string) : option string :=
  match a with
  | Some s => if nonempty s then a else b
  | None => b
  end.

End PyStr.

(** ** ElementTree *)

Inductive element : Type :=
| Element (tag : string) (text : option string) (children : list element).

Definition tag (e : element) : string := let 'Element t _ _ := e in t.
Definition text (e : element) : option string := let 'Element _ x _ := e in x.
Definition children (e : element) : list element := let 'Element _ _ k := e in k.

(** [e.iter()]: the element and its descendants in document order. *)
Fixpoint iter (e : element) : list element :=
  match e with
  | Element _ _ kids => e :: flat_map iter kids
  end.

(** The elements below [e], without [e] itself. *)
Definition descendants (e : element) : list element := flat_map iter (children e).

(** A step of an ElementPath expression: [t] after [/] selects children named
    [t]; [t] after [//] selects descendants named [t]. *)
Inductive step : Type :=
| Child (t : string)
| Desc (t : string).

Definition named (t : string) (e : element) : bool := String.eqb (tag e) t.

Definition select (s : step) (e : element) : list element :=
  match s with
  | Child t => List.filter (named t) (children e)
  | Desc t => List.filter (named t) (descendants e)
  end.

Fixpoint select_all (p : list step) (ctx : list element) : list element :=
  match p with
  | [] => ctx
  | s :: p' => select_all p' (flat_map (select s) ctx)
  end.

(** [findall(el, path)] and [el.find(path)] *)
Definition findall (el : element) (p : list step) : list element := select_all p [el].

Definition find (el : element) (p : list step) : option element := hd_error (findall el p).

(** [first(el, path)]: the text of the first match. *)
Definition first (el : element) (p : list step) : option string :=
  match find el p with
  | Some x => text x
  | None => None
  end.

(** [a or b] on optional elements: an element without children is false. *)
Definition elem_or (a b : option element) : option element :=
  match a with
  | Some (Element _ _ (_ :: _)) => a
  | _ => b
  end.

(** The text of [e], stripped, when it is non-empty and [isdigit] accepts it. *)
Definition digit_text (e : element) : option string :=
  match text e with
  | Some t => if PyStr.nonempty t && PyStr.isdigit (PyStr.strip t) then Some (PyStr.strip t) else None
  | None => None
  end.

(** [int(t)] outside any [try]: a [ValueError] propagates. *)
Definition int_or_raise (t : string) : res Z :=
  match PyStr.int t with
  | Some z => Ok z
  | None => Raise ValueError
  end.

Fixpoint first_digit_text (l : list element) : option string :=
  match l with
  | [] => None
  | e :: r =>
      match digit_text e with
      | Some t => Some t
      | None => first_digit_text r
      end
  end.

Definition num_in_node_or_kids (node : option element) : res (option Z) :=
  match node with
  | None => Ok None
  | Some n =>
      match digit_text n with
      | Some t => let* z := int_or_raise t in Ok (Some z)
      | None =>
          match first_digit_text (descendants n) with
          | Some t => let* z := int_or_raise t in Ok (Some z)
          | None => Ok None
          end
      end
  end.

Fixpoint num_at_any (el : element) (paths : list (list step)) : res (option Z) :=
  match paths with
  | [] => Ok None
  | p :: rest =>
      let* v := num_in_node_or_kids (find el p) in
      match v with
      | Some _ => Ok v
      | None => num_at_any el rest
      end
  end.

Inductive color : Set := green | yellow | red.

Definition EVENT2COLOR : list (string * color) :=
  [ ("protected-Movement-Allowed", green);
    ("permissive-Movement-Allowed", green);
    ("protected-clearance", yellow);
    ("permissive-clearance", yellow);
    ("caution-Conflicting-Traffic", yellow);
    ("stop-And-Remain", red);
    ("stop-Then-Proceed", red);
    ("dark", red) ].

(** [d.get(key, default)] where the key may be [None]. *)
Fixpoint dict_get {V : Type} (d : list (string * V)) (key : option string) (default : V) : V :=
  match d, key with
  | (k, v) :: r, Some s => if String.eqb k s then v else dict_get r key default
  | _, _ => default
  end.

(** ** MAP parser *)

(** The signal group of a lane: the first connection with a [signalGroup]
    text decides, also when that text is no integer. *)
Fixpoint lane_sg (connections : list element) : option Z :=
  match connections with
  | [] => None
  | ct :: rest =>
      match first ct [Child "signalGroup"] with
      | Some sgt => if PyStr.nonempty sgt then PyStr.int sgt else lane_sg rest
      | None => lane_sg rest
      end
  end.

Definition add_lane (lanes : gmap Z (option Z)) (gl : element) : gmap Z (option Z) :=
  match first gl [Child "laneID"] with
  | Some lid_txt =>
      if PyStr.nonempty lid_txt then
        match PyStr.int lid_txt with
        | Some lid =>
            <[ lid := lane_sg (findall gl [Child "connectsTo"; Child "Connection"]) ]> lanes
        | None => lanes
        end
      else lanes
  | None => lanes
  end.

Definition parse_map (root : element)
  : option string * option string * gmap Z (option Z) :=
  match find root [Desc "intersections"; Child "IntersectionGeometry"] with
  | None => (None, None, ∅)
  | Some ig =>
      let inter_id := PyStr.or_else (first ig [Child "id"; Child "id"])
                                    (first ig [Child "id"]) in
      let inter_name := PyStr.or_else (first ig [Child "name"])
                                      (first ig [Child "id"; Child "name"]) in
      let lanes := fold_left add_lane
                     (findall ig [Child "laneSet"; Child "GenericLane"]) ∅ in
      (inter_id, inter_name, lanes)
  end.

(** ** SPaT parser *)

(** One phase observation: [{"sg": ..., "event": ..., "minEndRaw": ...}]. *)
Record observation : Type := Observation {
  sg : Z;
  event : option string;
  minEndRaw : option Z
}.

Definition within_minute (v : Z) : bool := (v <=? 60000) || (v <=? 6000) || (v <=? 600).

Fixpoint first_within_minute (candidates : list Z) : option Z :=
  match candidates with
  | [] => None
  | v :: r => if within_minute v then Some v else first_within_minute r
  end.

Definition opt_to_list {A : Type} (o : option A) : list A :=
  match o with
  | Some a => [a]
  | None => []
  end.

(** [extract_now_value]; the list of time-stamp paths differs between the two
    programs and is a parameter. *)
Definition extract_now_value_with (ts_paths : list (list step)) (spat : element)
  : res (option Z) :=
  let* ts := num_at_any spat ts_paths in
  let* moy := num_at_any spat [[Desc "moy"]] in
  let candidates := (opt_to_list ts ++ opt_to_list moy)%list in
  match candidates with
  | [] => Ok None
  | c0 :: _ =>
      match first_within_minute candidates with
      | Some v => Ok (Some v)
      | None => Ok (Some c0)
      end
  end.

Definition ts_paths : list (list step) :=
  [[Desc "timeStamp"]; [Desc "msecOfMin"]; [Desc "dSecond"]].

Definition extract_now_value : element -> res (option Z) := extract_now_value_with ts_paths.

Definition read_event_state (ev_el : element) : option string :=
  match find ev_el [Child "eventState"] with
  | None => None
  | Some esn =>
      match children esn with
      | k :: _ => Some (tag k)
      | [] =>
          match text esn with
          | Some t => if PyStr.nonempty t then Some (PyStr.strip t) else None
          | None => None
          end
      end
  end.

Definition end_time_tags : list string := ["likelyTime"; "minEndTime"; "maxEndTime"; "endTime"].

Fixpoint first_tag_num (t : element) (tags : list string) : res (option Z) :=
  match tags with
  | [] => Ok None
  | tg :: rest =>
      let* m := num_at_any t [[Child tg]] in
      match m with
      | Some _ => Ok m
      | None => first_tag_num t rest
      end
  end.

Fixpoint read_min_end_in (ev_el : element) (parents : list string) : res (option Z) :=
  match parents with
  | [] => Ok None
  | parent :: rest =>
      match find ev_el [Child parent] with
      | None => read_min_end_in ev_el rest
      | Some t =>
          let* m := first_tag_num t end_time_tags in
          match m with
          | Some _ => Ok m
          | None => read_min_end_in ev_el rest
          end
      end
  end.

Definition read_min_end_any (ev_el : element) : res (option Z) :=
  read_min_end_in ev_el ["timing"; "timeChangeDetails"].

(** The first event that carries an end time, with that end time. *)
Fixpoint first_timed (events : list element) : res (option (element * option Z)) :=
  match events with
  | [] => Ok None
  | ev_el :: rest =>
      let* m := read_min_end_any ev_el in
      match m with
      | Some _ => Ok (Some (ev_el, m))
      | None => first_timed rest
      end
  end.

Definition choose_event (events : list element) : res (option (element * option Z)) :=
  let* chosen := first_timed events in
  match chosen, events with
  | None, ev0 :: _ => let* m := read_min_end_any ev0 in Ok (Some (ev0, m))
  | _, _ => Ok chosen
  end.

(** The body of the loop over [MovementState] elements. *)
Definition movement_state (ms : element) : res (list observation) :=
  match first ms [Child "signalGroup"] with
  | None => Ok []
  | Some sg_txt =>
      if PyStr.nonempty sg_txt then
        match PyStr.int sg_txt with
        | None => Ok []
        | Some sg =>
            let events := findall ms [Child "state-time-speed"; Child "MovementEvent"] in
            let* chosen := choose_event events in
            match chosen with
            | Some (ev_el, met) => Ok [Observation sg (read_event_state ev_el) met]
            | None => Ok [Observation sg None None]
            end
        end
      else Ok []
  end.

Fixpoint movement_states (l : list element) : res (list observation) :=
  match l with
  | [] => Ok []
  | ms :: rest =>
      let* o := movement_state ms in
      let* os := movement_states rest in
      Ok (o ++ os)%list
  end.

Definition parse_spat_with (now_of : element -> res (option Z)) (spat_root : element)
  : res (option string * option Z * list observation) :=
  let spat :=
    if String.eqb (tag spat_root) "SPAT" then Some spat_root
    else elem_or (find spat_root [Desc "SPAT"]) (find spat_root [Desc "value"; Child "SPAT"]) in
  match spat with
  | None => Ok (None, None, [])
  | Some spat =>
      match find spat [Desc "intersections"; Child "IntersectionState"] with
      | None => Ok (None, None, [])
      | Some inter =>
          let inter_id := PyStr.or_else (first inter [Child "id"; Child "id"])
                                        (first inter [Child "id"]) in
          let* now := now_of spat in
          let* states := movement_states (findall inter [Child "states"; Child "MovementState"]) in
          Ok (inter_id, now, states)
      end
  end.

Definition parse_spat : element -> res (option string * option Z * list observation) :=
  parse_spat_with extract_now_value.

(** ** Countdown Smoother and frame loop ([code_test_3_base_on_code_2.py]) *)

Record args : Type := Args {
  lane : Z;
  rate : float;
  sync_time : bool;
  no_clear : bool
}.

(** The arguments of one call of [draw_card]. *)
Record card : Type := Card {
  approach_name : option string;
  inter_id : option string;
  lane_id : Z;
  card_sg : option Z;
  cur_color : color;
  secs_remaining : option float;
  clear_enabled : bool
}.

(** The variables that live across iterations of the frame loop. *)
Record loop_state : Type := LoopState {
  last_min_end : option Z;
  simulated_rem : option float;
  last_ts : option Z;
  shown : nat
}.

Definition initial_state : loop_state := LoopState None None None 0.

(** [st["sg"] == my_sg], where [my_sg] may be [None]. *)
Definition sg_matches (my_sg : option Z) (st : observation) : bool :=
  match my_sg with
  | Some g => sg st =? g
  | None => false
  end.

(** The observation at which [for st in states: if st["sg"] == my_sg: ... break] stops. *)
Fixpoint first_match (my_sg : option Z) (states : list observation) : option observation :=
  match states with
  | [] => None
  | st :: rest => if sg_matches my_sg st then Some st else first_match my_sg rest
  end.

(** [a == b] on values that are an [int] or [None]. *)
Definition opt_eqb (a b : option Z) : bool :=
  match a, b with
  | Some x, Some y => x =? y
  | None, None => true
  | _, _ => false
  end.

(** The new [simulated_rem] at a frame whose matching observation carries [met]. *)
Definition countdown (rate : float) (s : loop_state) (now_val met : option Z)
  : res (option float) :=
  let* rem_secs := detect_unit_and_delta now_val met in
  match simulated_rem s with
  | Some sim =>
      if opt_eqb met (last_min_end s) then
        match last_ts s, now_val with
        | Some ts, Some now =>
            let* dt := int_truediv (now - ts) f10 in
            Ok (Some (max2 f0 (sub sim dt)))
        | _, _ => Ok (Some (max2 f0 (sub sim rate)))
        end
      else Ok rem_secs
  | None => Ok rem_secs
  end.

(** The search for the observer's signal group: the event shown, and the new
    [simulated_rem] and [last_min_end]. *)
Definition smooth (rate : float) (my_sg : option Z) (s : loop_state)
    (now_val : option Z) (states : list observation)
  : res (option string * option float * option Z) :=
  match first_match my_sg states with
  | Some st =>
      let* sim := countdown rate s now_val (minEndRaw st) in
      Ok (event st, sim, minEndRaw st)
  | None => Ok (None, simulated_rem s, last_min_end s)
  end.

Definition frame_delay (a : args) (ts now_val : option Z) : res float :=
  match sync_time a, ts, now_val with
  | true, Some ts, Some now =>
      let* diff := int_truediv (now - ts) f100 in
      Ok (if leb f0_01 diff && leb diff f5 then diff else rate a)
  | _, _, _ => Ok (rate a)
  end.

(** The factor from seconds to nanoseconds, and the ends of the signed
    64-bit timer: [-2^63] and [2^63]. *)
Definition f1e9 : float := Eval vm_compute in round_int 1000000000.
Definition timer_min : float := Eval vm_compute in round_int (- 2 ^ 63).
Definition timer_sup : float := Eval vm_compute in round_int (2 ^ 63).

(** [time.sleep(secs)] up to the point where it starts to wait.  The length
    is converted to nanoseconds: a NaN raises [ValueError], and
    [OverflowError] is raised unless [-2^63 <= secs * 1e9 < 2^63].  Then a
    negative length raises [ValueError].  (The interpreter rounds
    [secs * 1e9] to a whole number, away from zero, before both tests; that
    moves it neither across an end of the timer nor across zero.) *)
Definition sleep (secs : float) : res unit :=
  match secs with
  | S754_nan => Raise ValueError
  | _ =>
      let d := mul secs f1e9 in
      if leb timer_min d && ltb d timer_sup then
        if ltb secs f0 then Raise ValueError else Ok tt
      else Raise OverflowError
  end.

Inductive frame_result : Type :=
| Skipped                                  (* [continue] *)
| Failed (e : exn)                         (* raised before [draw_card] *)
| Drawn (c : card) (next : res loop_state) (* [draw_card], then the rest of the body *).

(** One iteration of [for blob in spat_blocks]; [None] is a blob that
    [ET.fromstring] rejects. *)
Definition frame (a : args) (inter_id_map inter_name_map : option string)
    (my_sg : option Z) (s : loop_state) (blob : option element) : frame_result :=
  match blob with
  | None => Skipped
  | Some root =>
      match parse_spat root with
      | Raise e => Failed e
      | Ok (_, _, []) => Skipped
      | Ok (inter_id_spat, now_val, states) =>
          match smooth (rate a) my_sg s now_val states with
          | Raise e => Failed e
          | Ok (cur_event, sim, lme) =>
              Drawn
                (Card inter_name_map (PyStr.or_else inter_id_map inter_id_spat)
                      (lane a) my_sg (dict_get EVENT2COLOR cur_event red) sim
                      (negb (no_clear a)))
                (let* delay := frame_delay a (last_ts s) now_val in
                 let* _ := sleep delay in
                 Ok (LoopState lme sim now_val (S (shown s))))
          end
      end
  end.

(** The frame loop: the cards drawn, and the final state or the exception
    that ended the loop. *)
Fixpoint run (a : args) (inter_id_map inter_name_map : option string)
    (my_sg : option Z) (s : loop_state) (blobs : list (option element))
  : list card * res loop_state :=
  match blobs with
  | [] => ([], Ok s)
  | blob :: rest =>
      match frame a inter_id_map inter_name_map my_sg s blob with
      | Skipped => run a inter_id_map inter_name_map my_sg s rest
      | Failed e => ([], Raise e)
      | Drawn c (Raise e) => ([c], Raise e)
      | Drawn c (Ok s') =>
          let '(cs, r) := run a inter_id_map inter_name_map my_sg s' rest in
          (c :: cs, r)
      end
  end.

Inductive outcome : Type :=
| NoMapData                        (* "No MapData found in file." *)
| LaneNotFound                     (* "Lane ... not found in MAP." *)
| NoSpat                           (* "No SPaT found in file." *)
| Completed (no_match_report : bool)
    (* the loop ended; [true] when "SPaT frames found, but none referenced
       your lane's signal group." is printed *)
| Crashed (e : exn).

(** [main], after the log was read and cut into blocks: each block is the
    tree [ET.fromstring] returns for it, or [None] when it raises. *)
Definition main (a : args) (map_blocks spat_blocks : list (option element))
  : list card * outcome :=
  match map_blocks with
  | [] => ([], NoMapData)
  | None :: _ => ([], Crashed ParseError)
  | Some root :: _ =>
      let '(inter_id_map, inter_name_map, lane_info) := parse_map root in
      match lane_info !! lane a with
      | None => ([], LaneNotFound)
      | Some my_sg =>
          match spat_blocks with
          | [] => ([], NoSpat)
          | _ =>
              let '(cards, r) :=
                run a inter_id_map inter_name_map my_sg initial_state spat_blocks in
              (cards,
               match r with
               | Ok s => Completed (Nat.eqb (shown s) 0)
               | Raise e => Crashed e
               end)
          end
      end
  end.

(** ** Frame loop of [Offline_simulation_code.py] *)

Module Offline.

Definition ts_paths : list (list step) :=
  [[Desc "timeStamp"]; [Desc "timeStamp"; Child "msecOfMin"]; [Desc "msecOfMin"];
   [Desc "timeStamp"; Child "dSecond"]; [Desc "dSecond"]].

Definition extract_now_value : element -> res (option Z) := extract_now_value_with ts_paths.

Definition parse_spat : element -> res (option string * option Z * list observation) :=
  parse_spat_with extract_now_value.

(** One iteration up to [draw_card]: [Ok None] is [continue],
    [Ok (Some c)] a call of [draw_card]. *)
Definition frame (lane : Z) (inter_id_map inter_name_map : option string)
    (my_sg : option Z) (blob : option element) : res (option card) :=
  match blob with
  | None => Ok None
  | Some root =>
      let* parsed := parse_spat root in
      match parsed with
      | (_, _, []) => Ok None
      | (inter_id_spat, now_val, states) =>
          let* found :=
            match first_match my_sg states with
            | Some st =>
                let* rem_secs := detect_unit_and_delta now_val (minEndRaw st) in
                Ok (event st, rem_secs)
            | None => Ok (None, None)
            end in
          let '(cur_event, rem_secs) := found in
          Ok (Some (Card inter_name_map (PyStr.or_else inter_id_map inter_id_spat)
                         lane my_sg (dict_get EVENT2COLOR cur_event red) rem_secs true))
      end
  end.

(** The frame loop: the cards drawn, and the final [shown] or the exception
    that ended the loop; [time.sleep(max(0.05, args.rate))] follows each
    card. *)
Fixpoint run (lane : Z) (rate : float) (inter_id_map inter_name_map : option string)
    (my_sg : option Z) (shown : nat) (blobs : list (option element))
  : list card * res nat :=
  match blobs with
  | [] => ([], Ok shown)
  | blob :: rest =>
      match frame lane inter_id_map inter_name_map my_sg blob with
      | Ok None => run lane rate inter_id_map inter_name_map my_sg shown rest
      | Raise e => ([], Raise e)
      | Ok (Some c) =>
          match sleep (max2 f0_05 rate) with
          | Raise e => ([c], Raise e)
          | Ok _ =>
              let '(cs, r) :=
                run lane rate inter_id_map inter_name_map my_sg (S shown) rest in
              (c :: cs, r)
          end
      end
  end.

Definition main (lane : Z) (rate : float) (map_blocks spat_blocks : list (option element))
  : list card * outcome :=
  match map_blocks with
  | [] => ([], NoMapData)
  | None :: _ => ([], Crashed ParseError)
  | Some root :: _ =>
      let '(inter_id_map, inter_name_map, lane_info) := parse_map root in
      match lane_info !! lane with
      | None => ([], LaneNotFound)
      | Some my_sg =>
          match spat_blocks with
          | [] => ([], NoSpat)
          | _ =>
              let '(cards, r) :=
                run lane rate inter_id_map inter_name_map my_sg 0%nat spat_blocks in
              (cards,
               match r with
               | Ok n => Completed (Nat.eqb n 0)
               | Raise e => Crashed e
               end)
          end
      end
  end.

End Offline.

(** ** Sample telemetry *)

Module Samples.

Definition leaf (t x : string) : element := Element t (Some x) [].
Definition node (t : string) (kids : list element) : element := Element t None kids.

(** A [Connection] whose [signalGroup] has text [sgt]. *)
Definition connection (sgt : string) : element :=
  node "Connection" [leaf "signalGroup" sgt].

Definition generic_lane (lane_id : string) (conns : list element) : element :=
  node "GenericLane" [leaf "laneID" lane_id; node "connectsTo" conns].

Definition map_data (lanes : list element) : element :=
  node "MapData"
    [node "intersections"
       [node "IntersectionGeometry"
          [node "id" [leaf "id" "42"]; leaf "name" "Main St"; node "laneSet" lanes]]].

(** A [MovementState] of one event with a [minEndTime]. *)
Definition movement (sg_txt ev met : string) : element :=
  node "MovementState"
    [leaf "signalGroup" sg_txt;
     node "state-time-speed"
       [node "MovementEvent"
          [node "eventState" [node ev []]; node "timing" [leaf "minEndTime" met]]]].

Definition spat (now : string) (movements : list element) : element :=
  node "SPAT"
    [leaf "timeStamp" now;
     node "intersections"
       [node "IntersectionState" [leaf "id" "42"; node "states" movements]]].

(** Lane 5 is governed by signal group 2. *)
Definition map_5_2 : element := map_data [generic_lane "5" [connection "2"]].

(** Lane 7: the first connection carries no integer, the second carries 3. *)
Definition lane_7 : element := generic_lane "7" [connection "x"; connection "3"].

(** Lane 9 has connections without any signal group. *)
Definition map_9_unmapped : element := map_data [generic_lane "9" [node "Connection" []]].

(** The default [--rate] of [code_test_3_base_on_code_2.py]. *)
Definition f0_1 : float := Eval vm_compute in SFdiv prec emax (round_int 1) (round_int 10).

Definition default_args : args := Args 5 f0_1 false false.

(** The default [--rate] of [Offline_simulation_code.py]. *)
Definition f0_5 : float := Eval vm_compute in SFdiv prec emax (round_int 1) (round_int 2).

End Samples.

(** ** Record Extractor *)

(** [text.find(sub, start)]; [None] stands for [-1]. *)
Definition py_find (text sub : string) (start : nat) : option nat := index start sub text.

(** The [while True] loop of [parse_map_blocks] and [parse_spat_blocks], from
    the cursor [start]; [None] when the fuel runs out. *)
Fixpoint blocks_loop (fuel : nat) (open close text : string) (start : nat)
  : option (list string) :=
  match fuel with
  | O => None
  | S fuel' =>
      match py_find text open start with
      | None => Some []
      | Some i =>
          match py_find text close i with
          | None => Some []
          | Some j =>
              let stop := (j + String.length close)%nat in
              match blocks_loop fuel' open close text stop with
              | Some blocks => Some (substring i (stop - i) text :: blocks)
              | None => None
              end
          end
      end
  end.

Definition parse_blocks (open close text : string) : option (list string) :=
  blocks_loop (S (String.length text)) open close text 0.

Definition parse_map_blocks : string -> option (list string) :=
  parse_blocks "<MapData>" "</MapData>".

Definition parse_spat_blocks : string -> option (list string) :=
  parse_blocks "<SPAT>" "</SPAT>".

(* ===================================================================== *)
(** * Part II.  Binary floating point: facts about [SpecFloat] rounding     *)
(* ===================================================================== *)

Module IEEE.

Section Generic.

Variables prec emax : Z.
Hypothesis prec_pos : 0 < prec.
Hypothesis prec_lt_emax : prec < emax.

Local Abbreviation fexp := (fexp prec emax).
Local Abbreviation emin := (emin prec emax).
Local Abbreviation bounded := (bounded prec emax).

(** ** Number of binary digits *)

Lemma pow2_pos (k : Z) : 0 <= k -> 0 < 2 ^ k.
Proof. intros; apply Z.pow_pos_nonneg; lia. Qed.

Lemma pow2_split (a b : Z) : 0 <= a -> 0 <= b -> 2 ^ (a + b) = 2 ^ a * 2 ^ b.
Proof. intros; apply Z.pow_add_r; lia. Qed.

Lemma pow2_le (a b : Z) : 0 <= a <= b -> 2 ^ a <= 2 ^ b.
Proof. intros; apply Z.pow_le_mono_r; lia. Qed.

Lemma pow2_lt (a b : Z) : 0 <= a < b -> 2 ^ a < 2 ^ b.
Proof. intros; apply Z.pow_lt_mono_r; lia. Qed.

Lemma digits2_pos_bounds (p : positive) :
  2 ^ (Zpos (digits2_pos p) - 1) <= Zpos p < 2 ^ Zpos (digits2_pos p).
Proof.
  induction p as [p IH|p IH|]; simpl digits2_pos.
  - rewrite Pos2Z.inj_succ.
    replace (Z.succ (Zpos (digits2_pos p)) - 1) with ((Zpos (digits2_pos p) - 1) + 1) by lia.
    rewrite Z.pow_succ_r by lia. rewrite pow2_split by lia.
    change (2 ^ 1) with 2. lia.
  - rewrite Pos2Z.inj_succ.
    replace (Z.succ (Zpos (digits2_pos p)) - 1) with ((Zpos (digits2_pos p) - 1) + 1) by lia.
    rewrite Z.pow_succ_r by lia. rewrite pow2_split by lia.
    change (2 ^ 1) with 2. lia.
  - simpl. lia.
Qed.

Lemma dig_nonneg (m : Z) : 0 <= Zdigits2 m.
Proof. destruct m; simpl; lia. Qed.

Lemma dig_bounds (m : Z) : 0 < m -> 2 ^ (Zdigits2 m - 1) <= m < 2 ^ Zdigits2 m.
Proof. destruct m as [|p|p]; try lia. intros _. apply digits2_pos_bounds. Qed.

Lemma dig_ub (m : Z) : 0 <= m -> m < 2 ^ Zdigits2 m.
Proof.
  intros H. destruct (Z.eq_dec m 0) as [->|]; [reflexivity|].
  apply dig_bounds; lia.
Qed.

Lemma dig_gt0 (m : Z) : 0 < m -> 0 < Zdigits2 m.
Proof. destruct m; simpl; lia. Qed.

Lemma dig_unique (m d : Z) : 0 < m -> 2 ^ (d - 1) <= m < 2 ^ d -> Zdigits2 m = d.
Proof.
  intros Hm [Hl Hu]. pose proof (dig_bounds m Hm) as [Bl Bu].
  pose proof (dig_gt0 m Hm) as Hd.
  assert (0 < d).
  { destruct (Z_lt_le_dec 0 d); auto.
    destruct (Z.eq_dec d 0) as [->|]; [simpl in Hu; lia|].
    rewrite Z.pow_neg_r in Hu by lia. lia. }
  destruct (Z_lt_le_dec (Zdigits2 m) d).
  - assert (2 ^ Zdigits2 m <= 2 ^ (d - 1)) by (apply pow2_le; lia). lia.
  - destruct (Z_lt_le_dec d (Zdigits2 m)); [|lia].
    assert (2 ^ d <= 2 ^ (Zdigits2 m - 1)) by (apply pow2_le; lia). lia.
Qed.

Lemma dig_le (a b : Z) : 0 <= a <= b -> Zdigits2 a <= Zdigits2 b.
Proof.
  intros [Ha Hab]. destruct (Z.eq_dec a 0) as [->|]; [apply dig_nonneg|].
  pose proof (dig_bounds a ltac:(lia)) as [Al Au].
  pose proof (dig_bounds b ltac:(lia)) as [Bl Bu].
  destruct (Z_lt_le_dec (Zdigits2 b) (Zdigits2 a)); [|lia].
  assert (2 ^ Zdigits2 b <= 2 ^ (Zdigits2 a - 1)).
  { apply pow2_le. pose proof (dig_nonneg b). lia. }
  lia.
Qed.

Lemma dig_shift (m j : Z) : 0 < m -> 0 <= j -> Zdigits2 (m * 2 ^ j) = Zdigits2 m + j.
Proof.
  intros Hm Hj. pose proof (dig_bounds m Hm) as [Bl Bu].
  pose proof (dig_gt0 m Hm). pose proof (pow2_pos j Hj).
  apply dig_unique; [nia|].
  replace (Zdigits2 m + j - 1) with ((Zdigits2 m - 1) + j) by lia.
  rewrite !pow2_split by lia. nia.
Qed.

Lemma dig_pow2 (k : Z) : 0 <= k -> Zdigits2 (2 ^ k) = k + 1.
Proof.
  intros Hk. pose proof (pow2_pos k Hk).
  apply dig_unique; [lia|].
  replace (k + 1 - 1) with k by lia. rewrite pow2_split by lia.
  change (2 ^ 1) with 2. lia.
Qed.

Lemma dig_lt_pow (m d : Z) : 0 <= m -> 0 <= d -> m < 2 ^ d -> Zdigits2 m <= d.
Proof.
  intros Hm Hd Hu. destruct (Z.eq_dec m 0) as [->|]; [exact Hd|].
  pose proof (dig_bounds m ltac:(lia)) as [Bl _].
  pose proof (dig_gt0 m ltac:(lia)).
  destruct (Z_lt_le_dec d (Zdigits2 m)); [|lia].
  assert (2 ^ d <= 2 ^ (Zdigits2 m - 1)) by (apply pow2_le; lia). lia.
Qed.

Lemma fexp_mono (a b : Z) : a <= b -> fexp a <= fexp b.
Proof. unfold SpecFloat.fexp; lia. Qed.

Lemma fexp_ge_emin (a : Z) : emin <= fexp a.
Proof. unfold SpecFloat.fexp; lia. Qed.

(** ** Right shifts that keep a round bit and a sticky bit *)

Definition exact_rec (x : shr_record) : Prop := shr_r x = false /\ shr_s x = false.

Lemma loc_exact_iff (x : shr_record) : loc_of_shr_record x = loc_Exact <-> exact_rec x.
Proof. destruct x as [m [] []]; unfold exact_rec; simpl; intuition congruence. Qed.

(** [shifted k x y]: [y] is [x] shifted right by [k] bits; [y] carries no
    round or sticky bit exactly when nothing was lost. *)
Definition shifted (k : Z) (x y : shr_record) : Prop :=
  shr_m y = shr_m x / 2 ^ k /\
  (exact_rec y <-> (shr_m x mod 2 ^ k = 0 /\ exact_rec x)).

Lemma shifted_0 (x : shr_record) : shifted 0 x x.
Proof.
  unfold shifted. change (2 ^ 0) with 1. rewrite Z.div_1_r, Z.mod_1_r. tauto.
Qed.

Lemma shifted_1 (x : shr_record) : 0 <= shr_m x -> shifted 1 x (shr_1 x).
Proof.
  destruct x as [m r s]. unfold shifted, exact_rec. change (2 ^ 1) with 2.
  cbn [shr_m]. intros Hm.
  destruct m as [|[p|p|]|]; try lia; cbn [shr_1 shr_m shr_r shr_s];
    rewrite ?orb_false_iff.
  - split; [reflexivity|]. tauto.
  - rewrite Pos2Z.inj_xI. split; [Z.div_mod_to_equations; lia|].
    split; [intros [? _]; discriminate|].
    intros [H _]. Z.div_mod_to_equations; lia.
  - rewrite Pos2Z.inj_xO. split; [Z.div_mod_to_equations; lia|].
    split.
    + intros [_ H]. split; [Z.div_mod_to_equations; lia|exact H].
    + intros [_ H]. split; [reflexivity|exact H].
  - split; [reflexivity|]. split; [intros [? _]; discriminate|].
    intros [H _]. discriminate.
Qed.

Lemma shifted_nonneg (k : Z) (x y : shr_record) :
  0 <= k -> 0 <= shr_m x -> shifted k x y -> 0 <= shr_m y.
Proof.
  intros Hk Hx [-> _]. apply Z.div_pos; [exact Hx|apply pow2_pos; exact Hk].
Qed.

Lemma shifted_trans (a b : Z) (x y z : shr_record) :
  0 <= a -> 0 <= b -> shifted a x y -> shifted b y z -> shifted (a + b) x z.
Proof.
  intros Ha Hb [Hy Ey] [Hz Ez]. unfold shifted.
  pose proof (pow2_pos a Ha) as Pa. pose proof (pow2_pos b Hb) as Pb.
  rewrite pow2_split by lia. split.
  - rewrite Hz, Hy. apply Z.div_div; lia.
  - rewrite Ez, Ey, Hy. rewrite Z.rem_mul_r by lia.
    pose proof (Z.mod_pos_bound (shr_m x) (2 ^ a) Pa).
    pose proof (Z.mod_pos_bound (shr_m x / 2 ^ a) (2 ^ b) Pb).
    set (u := shr_m x mod 2 ^ a) in *. set (v := (shr_m x / 2 ^ a) mod 2 ^ b) in *.
    split.
    + intros (H1 & H2 & H3). rewrite H1, H2. split; [lia|exact H3].
    + intros (H1 & H2).
      assert (0 <= 2 ^ a * v) by (apply Z.mul_nonneg_nonneg; lia).
      assert (2 ^ a * v = 0) as Hv by lia.
      assert (u = 0) by lia. apply Z.mul_eq_0 in Hv. assert (v = 0) by lia. tauto.
Qed.

Lemma iter_pos_shifted (p : positive) (x : shr_record) :
  0 <= shr_m x -> shifted (Zpos p) x (iter_pos shr_1 p x).
Proof.
  revert x. induction p as [p IH|p IH|]; intros x Hx; simpl iter_pos.
  - pose proof (shifted_1 x Hx) as S1.
    pose proof (shifted_nonneg 1 _ _ ltac:(lia) Hx S1) as N1.
    pose proof (IH _ N1) as S2.
    pose proof (shifted_nonneg (Zpos p) _ _ ltac:(lia) N1 S2) as N2.
    pose proof (IH _ N2) as S3.
    replace (Zpos p~1) with ((1 + Zpos p) + Zpos p) by lia.
    eapply shifted_trans; [lia|lia| |exact S3].
    eapply shifted_trans; [lia|lia|exact S1|exact S2].
  - pose proof (IH _ Hx) as S2.
    pose proof (shifted_nonneg (Zpos p) _ _ ltac:(lia) Hx S2) as N2.
    pose proof (IH _ N2) as S3.
    replace (Zpos p~0) with (Zpos p + Zpos p) by lia.
    eapply shifted_trans; [lia|lia|exact S2|exact S3].
  - apply shifted_1; exact Hx.
Qed.

Lemma shr_spec (x : shr_record) (e n : Z) :
  0 <= shr_m x ->
  exists y, shr x e n = (y, e + Z.max 0 n) /\ shifted (Z.max 0 n) x y.
Proof.
  intros Hx. destruct n as [|p|p]; simpl.
  - exists x. split; [f_equal; lia|apply shifted_0].
  - exists (iter_pos shr_1 p x). split; [reflexivity|apply iter_pos_shifted; exact Hx].
  - exists x. split; [f_equal; lia|apply shifted_0].
Qed.

Lemma shr_record_of_loc_m (m : Z) (l : location) : shr_m (shr_record_of_loc m l) = m.
Proof. destruct l as [|[]]; reflexivity. Qed.

Lemma shr_record_of_loc_exact (m : Z) (l : location) :
  exact_rec (shr_record_of_loc m l) <-> l = loc_Exact.
Proof. destruct l as [|[]]; unfold exact_rec; simpl; intuition congruence. Qed.

Lemma round_nearest_even_bounds (m : Z) (l : location) :
  m <= round_nearest_even m l <= m + 1 /\ (l = loc_Exact -> round_nearest_even m l = m).
Proof.
  destruct l as [|[]]; simpl; try destruct (Z.even m); split; try lia; congruence.
Qed.


(** ** Rounding never passes a representable bound *)

(** [below l m e mb eb]: the value located by [(m, e, l)] (exactly [m * 2^e]
    when [l] is exact, strictly above it otherwise) is at most [mb * 2^eb]. *)
Definition below (l : location) (m e : Z) (mb : positive) (eb : Z) : Prop :=
  e <= eb /\
  match l with
  | loc_Exact => m <= Zpos mb * 2 ^ (eb - e)
  | loc_Inexact _ => m < Zpos mb * 2 ^ (eb - e)
  end.

Definition rounded_ok (sx : bool) (l : location) (m e : Z) (f : spec_float) : Prop :=
  match f with
  | S754_zero s => s = sx
  | S754_infinity s =>
      s = sx /\ forall mb eb, bounded mb eb = true -> ~ below l m e mb eb
  | S754_nan => False
  | S754_finite s m' e' =>
      s = sx /\ bounded m' e' = true /\
      forall mb eb, bounded mb eb = true -> below l m e mb eb ->
        e' <= eb /\ Zpos m' <= Zpos mb * 2 ^ (eb - e')
  end.

Lemma bounded_inv (mb : positive) (eb : Z) :
  bounded mb eb = true ->
  fexp (Zdigits2 (Zpos mb) + eb) = eb /\ eb <= emax - prec.
Proof.
  unfold SpecFloat.bounded, canonical_mantissa.
  rewrite andb_true_iff, Z.eqb_eq, Z.leb_le. tauto.
Qed.

Lemma bounded_intro (mb : positive) (eb : Z) :
  fexp (Zdigits2 (Zpos mb) + eb) = eb -> eb <= emax - prec -> bounded mb eb = true.
Proof.
  unfold SpecFloat.bounded, canonical_mantissa.
  rewrite andb_true_iff, Z.eqb_eq, Z.leb_le. tauto.
Qed.

Lemma bounded_dig (mb : positive) (eb : Z) :
  bounded mb eb = true -> Zdigits2 (Zpos mb) <= prec /\ emin <= eb /\ Zpos mb < 2 ^ prec.
Proof.
  intros H. apply bounded_inv in H as [H _].
  pose proof (fexp_ge_emin (Zdigits2 (Zpos mb) + eb)).
  assert (Zdigits2 (Zpos mb) <= prec) by (unfold SpecFloat.fexp in H; lia).
  repeat split; try lia.
  pose proof (dig_ub (Zpos mb) ltac:(lia)).
  assert (2 ^ Zdigits2 (Zpos mb) <= 2 ^ prec).
  { apply pow2_le. pose proof (dig_nonneg (Zpos mb)). lia. }
  lia.
Qed.

Lemma below_le (l : location) (m e : Z) (mb : positive) (eb : Z) :
  below l m e mb eb -> e <= eb /\ m <= Zpos mb * 2 ^ (eb - e).
Proof. intros [He H]. split; [exact He|]. destruct l; lia. Qed.

Lemma below_exp (l : location) (m e : Z) (mb : positive) (eb : Z) :
  0 <= m -> e <= fexp (Zdigits2 m + e) -> bounded mb eb = true ->
  below l m e mb eb -> fexp (Zdigits2 m + e) <= eb.
Proof.
  intros Hm He Hb Hbel. apply below_le in Hbel as [Hle Hv].
  pose proof (bounded_inv _ _ Hb) as [Hc _].
  destruct (Z.eq_dec m 0) as [->|Hne].
  - pose proof (bounded_dig _ _ Hb) as (_ & ? & _).
    simpl Zdigits2 in *. unfold SpecFloat.fexp in *. lia.
  - rewrite <- Hc. apply fexp_mono.
    assert (Zdigits2 m <= Zdigits2 (Zpos mb * 2 ^ (eb - e))) by (apply dig_le; lia).
    rewrite dig_shift in H by lia. lia.
Qed.

Lemma binary_round_aux_ok (sx : bool) (m e : Z) (l : location) :
  0 <= m -> e <= fexp (Zdigits2 m + e) ->
  rounded_ok sx l m e (binary_round_aux prec emax sx m e l).
Proof.
  intros Hm He.
  pose proof (below_exp l m e) as BE.
  unfold binary_round_aux, shr_fexp.
  assert (E1 : fexp (Zdigits2 m + e) = Z.max (Zdigits2 m + e - prec) emin) by reflexivity.
  set (e1 := fexp (Zdigits2 m + e)) in *.
  destruct (shr_spec (shr_record_of_loc m l) e (e1 - e)) as (y & Ey & Sy).
  { rewrite shr_record_of_loc_m; exact Hm. }
  rewrite Ey. cbv beta iota.
  replace (e + Z.max 0 (e1 - e)) with e1 in * by lia.
  replace (Z.max 0 (e1 - e)) with (e1 - e) in Sy by lia.
  set (k := e1 - e) in *.
  destruct Sy as [Ym Yx]. rewrite shr_record_of_loc_m in Ym, Yx.
  rewrite shr_record_of_loc_exact in Yx.
  pose proof (round_nearest_even_bounds (shr_m y) (loc_of_shr_record y)) as [Rb Rx].
  rewrite loc_exact_iff in Rx.
  set (m2 := round_nearest_even (shr_m y) (loc_of_shr_record y)) in *.
  set (m1 := shr_m y) in *.
  assert (Hk : 0 <= k) by lia.
  pose proof (pow2_pos k Hk) as Pk.
  pose proof (dig_nonneg m) as Dm.
  assert (Hm1 : 0 <= m1) by (rewrite Ym; apply Z.div_pos; lia).
  assert (Hm1u : m1 < 2 ^ prec).
  { rewrite Ym. apply Z.div_lt_upper_bound; [exact Pk|].
    rewrite <- pow2_split by lia.
    pose proof (dig_ub m Hm).
    assert (2 ^ Zdigits2 m <= 2 ^ (k + prec)) by (apply pow2_le; lia). lia. }
  assert (He1 : emin <= e1) by lia.
  assert (Hnorm : emin < e1 -> 2 ^ (prec - 1) <= m1).
  { intros Hgt. assert (Kd : k = Zdigits2 m - prec) by lia.
    assert (0 < m) by (destruct m; simpl in *; lia).
    pose proof (dig_bounds m ltac:(lia)) as [Bl _].
    rewrite Ym. apply Z.div_le_lower_bound; [exact Pk|].
    rewrite <- pow2_split by lia.
    replace (k + (prec - 1)) with (Zdigits2 m - 1) by lia. exact Bl. }
  assert (HB : forall mb eb, bounded mb eb = true -> below l m e mb eb ->
                 e1 <= eb /\ m2 <= Zpos mb * 2 ^ (eb - e1)).
  { intros mb eb Hb Hbel. pose proof (BE mb eb Hm He Hb Hbel) as Hexp.
    split; [exact Hexp|].
    set (N := Zpos mb * 2 ^ (eb - e1)).
    assert (HN : Zpos mb * 2 ^ (eb - e) = 2 ^ k * N).
    { unfold N. replace (eb - e) with ((eb - e1) + k) by lia.
      rewrite pow2_split by lia. ring. }
    assert (Hle : m <= 2 ^ k * N).
    { destruct Hbel as [_ Hv]. destruct l; lia. }
    assert (m1 <= N) by (rewrite Ym; apply Z.div_le_upper_bound; lia).
    destruct (Z.eq_dec m1 N) as [Heq|Hne]; [|lia].
    assert (2 ^ k * m1 <= m) by (rewrite Ym; apply Z.mul_div_le; lia).
    assert (Hmeq : m = 2 ^ k * N) by nia.
    assert (l = loc_Exact).
    { destruct Hbel as [_ Hv]. destruct l; [reflexivity|lia]. }
    assert (m mod 2 ^ k = 0).
    { rewrite Hmeq, Z.mul_comm. apply Z.mod_mul. lia. }
    rewrite Rx by (apply Yx; tauto). lia. }
  destruct (Z_lt_le_dec m2 (2 ^ prec)) as [Hlt|Hge].
  - (* the rounded mantissa still fits *)
    assert (Hd2 : Zdigits2 m2 <= prec) by (apply dig_lt_pow; lia).
    destruct (shr_spec (shr_record_of_loc m2 loc_Exact) e1
                (fexp (Zdigits2 m2 + e1) - e1)) as (z & Ez & Sz).
    { rewrite shr_record_of_loc_m; lia. }
    rewrite Ez. cbv beta iota.
    assert (F2 : fexp (Zdigits2 m2 + e1) = Z.max (Zdigits2 m2 + e1 - prec) emin) by reflexivity.
    replace (Z.max 0 (fexp (Zdigits2 m2 + e1) - e1)) with 0 in * by lia.
    destruct Sz as [Zm _]. rewrite shr_record_of_loc_m in Zm.
    change (2 ^ 0) with 1 in Zm. rewrite Z.div_1_r in Zm. rewrite Zm.
    replace (e1 + 0) with e1 by lia.
    destruct m2 as [|p|p] eqn:M2; [reflexivity| |lia].
    assert (Hcan : fexp (Zdigits2 (Zpos p) + e1) = e1).
    { destruct (Z.eq_dec e1 emin) as [Hmin|Hmin]; [lia|].
      assert (2 ^ (prec - 1) <= Zpos p) by lia.
      assert (Zdigits2 (Zpos p) = prec).
      { apply dig_unique; lia. }
      lia. }
    destruct (Z.leb_spec e1 (emax - prec)) as [Hfin|Hinf].
    + split; [reflexivity|]. split; [apply bounded_intro; assumption|].
      intros mb eb Hb Hbel. apply HB; assumption.
    + split; [reflexivity|]. intros mb eb Hb Hbel.
      pose proof (HB mb eb Hb Hbel) as [? _].
      pose proof (bounded_inv _ _ Hb) as [_ ?]. lia.
  - (* the rounded mantissa became [2 ^ prec]: one more shift *)
    assert (M2 : m2 = 2 ^ prec) by lia.
    assert (Hd2 : Zdigits2 m2 = prec + 1) by (rewrite M2; apply dig_pow2; lia).
    destruct (shr_spec (shr_record_of_loc m2 loc_Exact) e1
                (fexp (Zdigits2 m2 + e1) - e1)) as (z & Ez & Sz).
    { rewrite shr_record_of_loc_m; lia. }
    rewrite Ez. cbv beta iota.
    assert (F2 : fexp (Zdigits2 m2 + e1) = Z.max (Zdigits2 m2 + e1 - prec) emin) by reflexivity.
    replace (Z.max 0 (fexp (Zdigits2 m2 + e1) - e1)) with 1 in * by lia.
    destruct Sz as [Zm _]. rewrite shr_record_of_loc_m in Zm.
    assert (P2 : 2 ^ prec = 2 * 2 ^ (prec - 1)).
    { replace prec with (1 + (prec - 1)) at 1 by lia. rewrite pow2_split by lia. reflexivity. }
    assert (Zm' : shr_m z = 2 ^ (prec - 1)).
    { rewrite Zm, M2, P2. change (2 ^ 1) with 2.
      rewrite Z.mul_comm. apply Z.div_mul. lia. }
    pose proof (pow2_pos (prec - 1) ltac:(lia)) as Pp.
    rewrite Zm'.
    destruct (2 ^ (prec - 1)) as [|p|p] eqn:HP; [lia| |lia].
    assert (Hcan : fexp (Zdigits2 (Zpos p) + (e1 + 1)) = e1 + 1).
    { rewrite <- HP. rewrite dig_pow2 by lia. unfold SpecFloat.fexp. lia. }
    assert (HB' : forall mb eb, bounded mb eb = true -> below l m e mb eb ->
                    e1 + 1 <= eb /\ Zpos p <= Zpos mb * 2 ^ (eb - (e1 + 1))).
    { intros mb eb Hb Hbel. pose proof (HB mb eb Hb Hbel) as [Hexp Hval].
      pose proof (bounded_dig _ _ Hb) as (_ & _ & Hmb).
      assert (e1 <> eb).
      { intros <-. rewrite Z.sub_diag in Hval. change (2 ^ 0) with 1 in Hval. lia. }
      split; [lia|].
      replace (eb - e1) with (1 + (eb - (e1 + 1))) in Hval by lia.
      rewrite pow2_split in Hval by lia. change (2 ^ 1) with 2 in Hval. lia. }
    destruct (Z.leb_spec (e1 + 1) (emax - prec)) as [Hfin|Hinf].
    + split; [reflexivity|]. split; [apply bounded_intro; assumption|exact HB'].
    + split; [reflexivity|]. intros mb eb Hb Hbel.
      pose proof (HB' mb eb Hb Hbel) as [? _].
      pose proof (bounded_inv _ _ Hb) as [_ ?]. lia.
Qed.


(** ** Normalisation of an exact integer mantissa *)

Lemma pos_iter_xO (mx d : positive) : Zpos (Pos.iter xO mx d) = Zpos mx * 2 ^ Zpos d.
Proof.
  apply Pos.iter_ind with (P := fun d a => Zpos a = Zpos mx * 2 ^ Zpos d).
  - rewrite Pos2Z.inj_xO. change (2 ^ 1) with 2. ring.
  - intros q a IH. rewrite Pos2Z.inj_xO, IH, Pos2Z.inj_succ, Z.pow_succ_r by lia. ring.
Qed.

Lemma shl_align_spec (mx : positive) (ex ex' : Z) :
  snd (shl_align mx ex ex') = Z.min ex ex' /\
  Zpos (fst (shl_align mx ex ex')) = Zpos mx * 2 ^ (ex - Z.min ex ex').
Proof.
  unfold shl_align. destruct (ex' - ex) as [|d|d] eqn:E; simpl fst; simpl snd.
  - replace (Z.min ex ex') with ex by lia. rewrite Z.sub_diag. change (2 ^ 0) with 1. lia.
  - replace (Z.min ex ex') with ex by lia. rewrite Z.sub_diag. change (2 ^ 0) with 1. lia.
  - replace (Z.min ex ex') with ex' by lia. split; [reflexivity|].
    rewrite pos_iter_xO. f_equal. f_equal. lia.
Qed.

Lemma rounded_ok_weaken (sx : bool) (l l' : location) (m e m' e' : Z) (f : spec_float) :
  (forall mb eb, below l' m' e' mb eb -> below l m e mb eb) ->
  rounded_ok sx l m e f -> rounded_ok sx l' m' e' f.
Proof.
  intros W. destruct f as [s|s| |s mf ef]; simpl; auto.
  - intros [-> H]. split; [reflexivity|]. intros mb eb Hb Hbel. apply (H mb eb Hb). auto.
  - intros (-> & Hb & H). split; [reflexivity|]. split; [exact Hb|].
    intros mb eb Hb' Hbel. apply H; auto.
Qed.

Lemma binary_round_ok (sx : bool) (mx : positive) (ex : Z) :
  rounded_ok sx loc_Exact (Zpos mx) ex (binary_round prec emax sx mx ex).
Proof.
  unfold binary_round.
  pose proof (shl_align_spec mx ex (fexp (Zpos (digits2_pos mx) + ex))) as [Hs Hf].
  destruct (shl_align mx ex (fexp (Zpos (digits2_pos mx) + ex))) as [mz ez].
  simpl fst in Hf; simpl snd in Hs.
  change (Zpos (digits2_pos mx)) with (Zdigits2 (Zpos mx)) in Hs, Hf.
  assert (Hd : Zdigits2 (Zpos mz) + ez = Zdigits2 (Zpos mx) + ex).
  { rewrite Hf, dig_shift by lia. lia. }
  eapply rounded_ok_weaken; [|apply binary_round_aux_ok; [lia|rewrite Hd; lia]].
  intros mb eb [Hle Hv]. split; [lia|].
  rewrite Hf. replace (eb - ez) with ((eb - ex) + (ex - Z.min ex (fexp (Zdigits2 (Zpos mx) + ex)))) by lia.
  rewrite pow2_split by lia.
  pose proof (pow2_pos (ex - Z.min ex (fexp (Zdigits2 (Zpos mx) + ex))) ltac:(lia)). nia.
Qed.

(** ** Comparison of non-negative finite numbers *)

Lemma SFleb_of_bound (m1 : positive) (e1 : Z) (m2 : positive) (e2 : Z) :
  e1 <= e2 -> Zpos m1 <= Zpos m2 * 2 ^ (e2 - e1) ->
  SFleb (S754_finite false m1 e1) (S754_finite false m2 e2) = true.
Proof.
  intros He Hv. unfold SFleb, SFcompare.
  destruct (Z.compare_spec e1 e2) as [Heq|Hlt|Hgt]; [|reflexivity|lia].
  subst e2. rewrite Z.sub_diag in Hv. change (2 ^ 0) with 1 in Hv.
  change (Pos.compare_cont Eq m1 m2) with (Pos.compare m1 m2).
  destruct (Pos.compare_spec m1 m2); try reflexivity. lia.
Qed.

Lemma SFleb_bound (m1 : positive) (e1 : Z) (m2 : positive) (e2 : Z) :
  bounded m1 e1 = true -> bounded m2 e2 = true ->
  SFleb (S754_finite false m1 e1) (S754_finite false m2 e2) = true ->
  e1 <= e2 /\ Zpos m1 <= Zpos m2 * 2 ^ (e2 - e1).
Proof.
  intros B1 B2. unfold SFleb, SFcompare.
  destruct (Z.compare_spec e1 e2) as [Heq|Hlt|Hgt]; [| |discriminate].
  - subst e2. rewrite Z.sub_diag. change (2 ^ 0) with 1.
    change (Pos.compare_cont Eq m1 m2) with (Pos.compare m1 m2).
    destruct (Pos.compare_spec m1 m2); try discriminate; lia.
  - intros _. split; [lia|].
    pose proof (bounded_dig _ _ B1) as (_ & Hmin & Hm1).
    pose proof (bounded_inv _ _ B2) as [Hc _].
    assert (Zdigits2 (Zpos m2) = prec) by (unfold SpecFloat.fexp in Hc; lia).
    pose proof (dig_bounds (Zpos m2) ltac:(lia)) as [Bl _].
    assert (2 ^ prec = 2 * 2 ^ (prec - 1)).
    { replace prec with (1 + (prec - 1)) at 1 by lia. rewrite pow2_split by lia. reflexivity. }
    assert (P1 : 2 ^ 1 <= 2 ^ (e2 - e1)) by (apply pow2_le; lia).
    change (2 ^ 1) with 2 in P1. rewrite H in Bl.
    assert (Zpos m2 * 2 <= Zpos m2 * 2 ^ (e2 - e1)) by (apply Z.mul_le_mono_nonneg_l; lia).
    lia.
Qed.

(** ** Division by a number that is at least one *)

Lemma new_location_cases (n k : Z) :
  (k = 0 /\ new_location n k = loc_Exact) \/
  (k <> 0 /\ exists c, new_location n k = loc_Inexact c).
Proof.
  unfold new_location.
  destruct (Z.even n); unfold new_location_even, new_location_odd;
    (destruct (Z.eqb_spec k 0) as [->|Hk];
     [left; split; reflexivity|right; split; [exact Hk|eexists; reflexivity]]).
Qed.

Lemma SFdiv_ge_one (sx sy : bool) (mx my : positive) (ex ey : Z) :
  bounded mx ex = true -> ey <= 0 -> 2 ^ (- ey) <= Zpos my ->
  match SFdiv prec emax (S754_finite sx mx ex) (S754_finite sy my ey) with
  | S754_zero s => s = xorb sx sy
  | S754_finite s m' e' =>
      s = xorb sx sy /\ bounded m' e' = true /\
      e' <= ex /\ Zpos m' <= Zpos mx * 2 ^ (ex - e')
  | _ => False
  end.
Proof.
  intros Bx Hey Hmy.
  pose proof (bounded_dig _ _ Bx) as (Dx & Emin & _).
  unfold SFdiv, SFdiv_core_binary.
  set (d1 := Zdigits2 (Zpos mx)) in *. set (d2 := Zdigits2 (Zpos my)).
  assert (F : fexp (d1 + ex - (d2 + ey)) = Z.max (d1 + ex - (d2 + ey) - prec) emin) by reflexivity.
  set (e' := Z.min (fexp (d1 + ex - (d2 + ey))) (ex - ey)) in *.
  set (s := ex - ey - e').
  assert (Hs : 0 <= s) by lia.
  assert (D2 : - ey + 1 <= d2).
  { unfold d2. rewrite <- dig_pow2 by lia. apply dig_le.
    pose proof (pow2_pos (- ey) ltac:(lia)). lia. }
  assert (Hm' : match s with Zpos _ => Z.shiftl (Zpos mx) s | 0 => Zpos mx | Zneg _ => 0 end
                = Zpos mx * 2 ^ s).
  { destruct s as [|p|p] eqn:S; [change (2 ^ 0) with 1; lia| |lia].
    apply Z.shiftl_mul_pow2. lia. }
  rewrite Hm'. clear Hm'.
  pose proof (pow2_pos s Hs) as Ps.
  set (m' := Zpos mx * 2 ^ s).
  assert (Hdm : Zdigits2 m' = d1 + s) by (apply dig_shift; lia).
  pose proof (Z_div_mod m' (Zpos my) ltac:(lia)) as DM.
  destruct (Z.div_eucl m' (Zpos my)) as [q r]. destruct DM as [DM Hr].
  assert (Hq : 0 <= q) by nia.
  assert (Hdq : d1 + s - d2 <= Zdigits2 q).
  { destruct (Z_lt_le_dec (d1 - 1 + s) d2) as [Hsmall|Hbig].
    - pose proof (dig_nonneg q). lia.
    - pose proof (dig_bounds m' ltac:(unfold m'; nia)) as [Bl _].
      pose proof (dig_ub (Zpos my) ltac:(lia)) as Bmy. fold d2 in Bmy.
      rewrite Hdm in Bl.
      assert (P : 2 ^ (d1 + s - 1) = 2 ^ (d1 - 1 + s - d2) * 2 ^ d2).
      { rewrite <- pow2_split by (unfold d2; pose proof (dig_nonneg (Zpos my)); lia).
        f_equal. lia. }
      pose proof (pow2_pos (d1 - 1 + s - d2) ltac:(lia)) as Pt.
      assert (2 ^ (d1 - 1 + s - d2) <= q) by nia.
      assert (Hdd : Zdigits2 (2 ^ (d1 - 1 + s - d2)) <= Zdigits2 q) by (apply dig_le; lia).
      rewrite dig_pow2 in Hdd by lia. lia. }
  assert (Hprecise : e' <= fexp (Zdigits2 q + e')).
  { assert (fexp (d1 + ex - (d2 + ey)) <= fexp (Zdigits2 q + e')) by (apply fexp_mono; lia).
    lia. }
  pose proof (binary_round_aux_ok (xorb sx sy) q e' (new_location (Zpos my) r) Hq Hprecise) as OK.
  assert (Hbel : below (new_location (Zpos my) r) q e' mx ex).
  { assert (He' : e' <= ex) by lia.
    split; [exact He'|].
    set (T := Zpos mx * 2 ^ (ex - e')).
    assert (HT : m' = T * 2 ^ (- ey)).
    { unfold m', T. replace s with ((ex - e') + (- ey)) by lia.
      rewrite pow2_split by lia. ring. }
    assert (0 <= T) by (unfold T; pose proof (pow2_pos (ex - e') ltac:(lia)); nia).
    destruct (new_location_cases (Zpos my) r) as [[Hr0 ->]|[Hr0 [c ->]]]; nia. }
  destruct (binary_round_aux prec emax (xorb sx sy) q e' (new_location (Zpos my) r))
    as [s0|s0| |s0 mf ef]; simpl in OK.
  - exact OK.
  - destruct OK as [_ H]. exact (H mx ex Bx Hbel).
  - exact OK.
  - destruct OK as (-> & Bf & H). split; [reflexivity|]. split; [exact Bf|].
    apply H; assumption.
Qed.


End Generic.


(** ** Binary64 *)

Lemma prec_gt_0 : 0 < prec.
Proof. reflexivity. Qed.

Lemma prec_lt_emax : prec < emax.
Proof. reflexivity. Qed.

Local Abbreviation bounded64 := (bounded prec emax).
Local Abbreviation rounded64 := (rounded_ok prec emax).

(** Neither a NaN nor an infinity. *)
Definition finite_or_zero (x : float) : Prop :=
  match x with
  | S754_zero _ | S754_finite _ _ _ => True
  | _ => False
  end.

(** [upto mb eb x]: [x] is [+0.0], or a positive float in canonical form
    whose value is at most [mb * 2^eb]. *)
Definition upto (mb : positive) (eb : Z) (x : float) : Prop :=
  match x with
  | S754_zero s => s = false
  | S754_finite s m e =>
      s = false /\ bounded64 m e = true /\ e <= eb /\ Zpos m <= Zpos mb * 2 ^ (eb - e)
  | _ => False
  end.

Definition m60 : positive := 8444249301319680.
Definition e60 : Z := -47.

Lemma f60_eq : f60 = S754_finite false m60 e60.
Proof. reflexivity. Qed.

Lemma bounded_60 : bounded64 m60 e60 = true.
Proof. reflexivity. Qed.

Lemma upto_finite_or_zero (mb : positive) (eb : Z) (x : float) :
  upto mb eb x -> finite_or_zero x.
Proof. destruct x; simpl; tauto. Qed.

Lemma upto_trans (m1 : positive) (e1 : Z) (mb : positive) (eb : Z) (x : float) :
  e1 <= eb -> Zpos m1 <= Zpos mb * 2 ^ (eb - e1) -> upto m1 e1 x -> upto mb eb x.
Proof.
  intros He Hv. destruct x as [s|s| |s m e]; simpl; auto.
  intros (-> & Hb & Hle & Hm). repeat split; auto; try lia.
  replace (eb - e) with ((eb - e1) + (e1 - e)) by lia.
  rewrite pow2_split by lia.
  pose proof (pow2_pos (e1 - e) ltac:(lia)). nia.
Qed.

Lemma normalize_ok (sx : bool) (z e : Z) (s0 : bool) :
  0 < z ->
  rounded64 sx loc_Exact z e (binary_normalize prec emax (cond_Zopp sx z) e s0).
Proof.
  intros Hz. destruct z as [|p|p]; try lia.
  destruct sx; simpl; apply binary_round_ok; reflexivity.
Qed.

Lemma normalize_upto (z e : Z) (s0 : bool) (mb : positive) (eb : Z) :
  0 < z -> bounded64 mb eb = true -> e <= eb -> z <= Zpos mb * 2 ^ (eb - e) ->
  upto mb eb (binary_normalize prec emax z e s0).
Proof.
  intros Hz Hb He Hv. pose proof (normalize_ok false z e s0 Hz) as OK.
  simpl cond_Zopp in OK.
  assert (Hbel : below loc_Exact z e mb eb) by (split; assumption).
  destruct (binary_normalize prec emax z e s0) as [s|s| |s m' e']; simpl in *.
  - exact OK.
  - destruct OK as [_ H]. exact (H mb eb Hb Hbel).
  - exact OK.
  - destruct OK as (-> & Bf & H). destruct (H mb eb Hb Hbel). auto.
Qed.

(** A negative exact value not below [-(mb * 2^eb)] rounds to a finite
    negative number or to [-0.0]. *)
Lemma normalize_neg_finite (z e : Z) (s0 : bool) (mb : positive) (eb : Z) :
  0 < z -> bounded64 mb eb = true -> e <= eb -> z <= Zpos mb * 2 ^ (eb - e) ->
  match binary_normalize prec emax (- z) e s0 with
  | S754_zero s => s = true
  | S754_finite s m' e' =>
      s = true /\ bounded64 m' e' = true /\ e' <= eb /\ Zpos m' <= Zpos mb * 2 ^ (eb - e')
  | _ => False
  end.
Proof.
  intros Hz Hb He Hv. pose proof (normalize_ok true z e s0 Hz) as OK.
  simpl cond_Zopp in OK.
  assert (Hbel : below loc_Exact z e mb eb) by (split; assumption).
  destruct (binary_normalize prec emax (- z) e s0) as [s|s| |s m' e']; simpl in *.
  - exact OK.
  - destruct OK as [_ H]. exact (H mb eb Hb Hbel).
  - exact OK.
  - destruct OK as (-> & Bf & H). destruct (H mb eb Hb Hbel). auto.
Qed.


(** ** Conversions and divisions by the constants of the source *)

(** [+0.0] or a positive float in canonical form. *)
Definition nonneg_valid (x : float) : Prop :=
  match x with
  | S754_zero s => s = false
  | S754_finite s m e => s = false /\ bounded64 m e = true
  | _ => False
  end.

Lemma upto_nonneg_valid (mb : positive) (eb : Z) (x : float) :
  upto mb eb x -> nonneg_valid x.
Proof. destruct x; simpl; tauto. Qed.

Lemma nonneg_valid_finite_or_zero (x : float) : nonneg_valid x -> finite_or_zero x.
Proof. destruct x; simpl; tauto. Qed.

(** The largest float, an integer. *)
Definition max_float_int : Z := 9007199254740991 * 2 ^ 971.

Lemma of_int_nonneg (z : Z) (x : float) : 0 <= z -> of_int z = Ok x -> nonneg_valid x.
Proof.
  intros Hz. unfold of_int, round_int.
  destruct (Z.eq_dec z 0) as [->|Hne].
  - simpl. intros [= <-]. reflexivity.
  - pose proof (normalize_ok false z 0 false ltac:(lia)) as OK. simpl cond_Zopp in OK.
    destruct (binary_normalize prec emax z 0 false) as [s|s| |s m e]; simpl in OK;
      intros [= <-]; simpl; tauto.
Qed.

Lemma of_int_ok (z : Z) :
  0 <= z <= max_float_int -> exists x, of_int z = Ok x /\ nonneg_valid x.
Proof.
  intros [Hz Hmax]. unfold of_int, round_int.
  destruct (Z.eq_dec z 0) as [->|Hne].
  - exists (S754_zero false). split; reflexivity.
  - pose proof (normalize_upto z 0 false 9007199254740991 971 ltac:(lia)
                  ltac:(reflexivity) ltac:(lia) Hmax) as U.
    destruct (binary_normalize prec emax z 0 false) as [s|s| |s m e]; simpl in U; try tauto.
    + eexists; split; [reflexivity|exact U].
    + eexists; split; [reflexivity|]. simpl. tauto.
Qed.

(** A positive float that is at least one, with a non-positive exponent. *)
Definition ge_one (c : float) : Prop :=
  match c with
  | S754_finite false my ey => ey <= 0 /\ 2 ^ (- ey) <= Zpos my
  | _ => False
  end.

Lemma ge_one_10 : ge_one f10.
Proof. simpl. split; [lia|]. vm_compute. discriminate. Qed.

Lemma ge_one_100 : ge_one f100.
Proof. simpl. split; [lia|]. vm_compute. discriminate. Qed.

Lemma ge_one_1000 : ge_one f1000.
Proof. simpl. split; [lia|]. vm_compute. discriminate. Qed.

Lemma truediv_ge_one (x c : float) :
  nonneg_valid x -> ge_one c ->
  exists y, truediv x c = Ok y /\ nonneg_valid y.
Proof.
  intros Hx Hc. destruct c as [| | |[] my ey]; simpl in Hc; try tauto.
  destruct Hc as [Hey Hmy]. unfold truediv. simpl is_zero.
  destruct x as [s|s| |s mx ex]; simpl in Hx; try tauto.
  - subst s. eexists; split; [reflexivity|]. reflexivity.
  - destruct Hx as [-> Bx].
    pose proof (SFdiv_ge_one prec emax prec_gt_0 prec_lt_emax false false mx my ex ey Bx Hey Hmy) as D.
    eexists; split; [reflexivity|].
    destruct (SFdiv prec emax (S754_finite false mx ex) (S754_finite false my ey))
      as [s|s| |s m e]; simpl in *; tauto.
Qed.

Lemma int_truediv_nonneg (z : Z) (c y : float) :
  0 <= z -> ge_one c -> int_truediv z c = Ok y -> nonneg_valid y.
Proof.
  intros Hz Hc. unfold int_truediv, rbind.
  destruct (of_int z) as [x|e] eqn:E; [|discriminate].
  destruct (truediv_ge_one x c (of_int_nonneg z x Hz E) Hc) as (y' & -> & Hy).
  intros [= <-]. exact Hy.
Qed.

Lemma int_truediv_ok (z : Z) (c : float) :
  0 <= z <= max_float_int -> ge_one c ->
  exists y, int_truediv z c = Ok y /\ nonneg_valid y.
Proof.
  intros Hz Hc. unfold int_truediv, rbind.
  destruct (of_int_ok z Hz) as (x & -> & Hx).
  apply truediv_ge_one; assumption.
Qed.


(** ** The remainder modulo [60.0] *)

Lemma fmod_60 (x : float) :
  finite_or_zero x ->
  match fmod x f60 with
  | S754_zero _ => True
  | S754_finite s m e =>
      s = sign_bit x /\ bounded64 m e = true /\
      e <= e60 /\ Zpos m <= Zpos m60 * 2 ^ (e60 - e)
  | _ => False
  end.
Proof.
  destruct x as [s|s| |sx mx ex]; simpl finite_or_zero; try tauto; intros _.
  - rewrite f60_eq. unfold fmod. cbv zeta.
    set (e0 := Z.min ex e60).
    set (X := Zpos mx * 2 ^ (ex - e0)). set (Y := Zpos m60 * 2 ^ (e60 - e0)).
    assert (HY : 0 < Y) by (unfold Y; pose proof (pow2_pos (e60 - e0) ltac:(lia)); nia).
    pose proof (Z.mod_pos_bound X Y HY) as HR.
    destruct (Z.eq_dec (X mod Y) 0) as [->|Hne].
    + destruct sx; exact I.
    + pose proof (normalize_ok sx (X mod Y) e0 sx ltac:(lia)) as OK.
      assert (Hbel : below loc_Exact (X mod Y) e0 m60 e60).
      { split; [lia|]. fold Y. lia. }
      destruct (binary_normalize prec emax (cond_Zopp sx (X mod Y)) e0 sx)
        as [s|s| |s m e]; simpl in OK; simpl sign_bit.
      * exact I.
      * destruct OK as [_ H]. exact (H m60 e60 bounded_60 Hbel).
      * exact OK.
      * destruct OK as (-> & Bf & H). destruct (H m60 e60 bounded_60 Hbel). auto.
Qed.

Lemma ltb_finite_0 (s : bool) (m : positive) (e : Z) : ltb (S754_finite s m e) f0 = s.
Proof. destruct s; reflexivity. Qed.

Lemma float_rem_60 (x : float) :
  finite_or_zero x -> exists r, float_rem x f60 = Ok r /\ upto m60 e60 r.
Proof.
  intros Hx. pose proof (fmod_60 x Hx) as F. unfold float_rem.
  change (is_zero f60) with false. cbv iota.
  destruct (fmod x f60) as [s|s| |s m e]; try tauto.
  - exists (S754_zero false). split; reflexivity.
  - destruct F as (_ & Bf & He & Hm). simpl is_zero. cbv iota.
    rewrite ltb_finite_0. change (ltb f60 f0) with false.
    destruct s; simpl negb; cbv iota.
    + eexists; split; [reflexivity|].
      rewrite f60_eq. unfold add, SFadd. cbv zeta.
      pose proof (shl_align_spec m e (Z.min e e60)) as [_ A1].
      pose proof (shl_align_spec m60 e60 (Z.min e e60)) as [_ A2].
      rewrite A1, A2. replace (Z.min e (Z.min e e60)) with e by lia.
      replace (Z.min e60 (Z.min e e60)) with e by lia.
      replace (Z.min e e60) with e by lia.
      rewrite Z.sub_diag. change (2 ^ 0) with 1. rewrite Z.mul_1_r.
      cbn [cond_Zopp].
      set (S := - Zpos m + Zpos m60 * 2 ^ (e60 - e)).
      destruct (Z.eq_dec S 0) as [->|Hne]; [reflexivity|].
      apply normalize_upto; [unfold S in *; lia|exact bounded_60|lia|unfold S; lia].
    + eexists; split; [reflexivity|]. simpl. auto.
Qed.

Lemma upto_in_0_60 (r : float) : upto m60 e60 r -> in_0_60 r = true.
Proof.
  destruct r as [s|s| |s m e]; simpl upto; try tauto.
  intros (-> & _ & He & Hm). unfold in_0_60. rewrite f60_eq.
    unfold leb. rewrite (SFleb_of_bound m e m60 e60 He Hm). reflexivity.
Qed.

(** ** Differences *)

Lemma sub_finite (a b : float) (mb : positive) (eb : Z) :
  bounded64 mb eb = true -> upto mb eb a -> upto mb eb b -> finite_or_zero (sub a b).
Proof.
  intros Hb Ha Hbb.
  destruct a as [sa|sa| |sa ma ea]; simpl in Ha; try tauto;
  destruct b as [sb|sb| |sb mb' eb']; simpl in Hbb; try tauto.
  - subst. exact I.
  - exact I.
  - exact I.
  - destruct Ha as (-> & Ba & Hea & Hma). destruct Hbb as (-> & Bb & Heb & Hmb).
    unfold sub, SFsub. cbv zeta.
    pose proof (shl_align_spec ma ea (Z.min ea eb')) as [_ A1].
    pose proof (shl_align_spec mb' eb' (Z.min ea eb')) as [_ A2].
    rewrite A1, A2. cbn [cond_Zopp].
    replace (Z.min ea (Z.min ea eb')) with (Z.min ea eb') by lia.
    replace (Z.min eb' (Z.min ea eb')) with (Z.min ea eb') by lia.
    set (ez := Z.min ea eb').
    set (A := Zpos ma * 2 ^ (ea - ez)). set (B := Zpos mb' * 2 ^ (eb' - ez)).
    assert (PA : A <= Zpos mb * 2 ^ (eb - ez)).
    { unfold A. replace (eb - ez) with ((eb - ea) + (ea - ez)) by lia.
      rewrite pow2_split by lia. pose proof (pow2_pos (ea - ez) ltac:(lia)). nia. }
    assert (PB : B <= Zpos mb * 2 ^ (eb - ez)).
    { unfold B. replace (eb - ez) with ((eb - eb') + (eb' - ez)) by lia.
      rewrite pow2_split by lia. pose proof (pow2_pos (eb' - ez) ltac:(lia)). nia. }
    assert (0 < A) by (unfold A; pose proof (pow2_pos (ea - ez) ltac:(lia)); nia).
    assert (0 < B) by (unfold B; pose proof (pow2_pos (eb' - ez) ltac:(lia)); nia).
    destruct (Z.compare_spec A B) as [Heq|Hlt|Hgt].
    + replace (A - B) with 0 by lia. exact I.
    + pose proof (normalize_neg_finite (B - A) ez false mb eb ltac:(lia) Hb ltac:(lia) ltac:(lia)) as N.
      replace (- (B - A)) with (A - B) in N by lia.
      destruct (binary_normalize prec emax (A - B) ez false); simpl; tauto.
    + pose proof (normalize_upto (A - B) ez false mb eb ltac:(lia) Hb ltac:(lia) ltac:(lia)) as N.
      destruct (binary_normalize prec emax (A - B) ez false); simpl in *; tauto.
Qed.


(** ** The primary hypothesis of the resolver *)

Lemma primary_upto (now_val met_val : Z) (r : float) :
  0 <= now_val -> 0 <= met_val -> primary now_val met_val = Ok r -> upto m60 e60 r.
Proof.
  intros Hn Hm. unfold primary, rbind.
  destruct (int_truediv now_val f1000) as [a|] eqn:Ea; [|discriminate].
  pose proof (int_truediv_nonneg _ _ _ Hn ge_one_1000 Ea) as Va.
  destruct (float_rem_60 a (nonneg_valid_finite_or_zero a Va)) as (now_sec & -> & Un).
  destruct (int_truediv met_val f10) as [b|] eqn:Eb; [|discriminate].
  pose proof (int_truediv_nonneg _ _ _ Hm ge_one_10 Eb) as Vb.
  destruct (float_rem_60 b (nonneg_valid_finite_or_zero b Vb)) as (end_sec & -> & Ue).
  pose proof (sub_finite end_sec now_sec m60 e60 bounded_60 Ue Un) as Fd.
  destruct (float_rem_60 _ Fd) as (r' & -> & Ur).
  intros [= <-]. exact Ur.
Qed.

Lemma primary_ok (now_val met_val : Z) :
  0 <= now_val <= max_float_int -> 0 <= met_val <= max_float_int ->
  exists r, primary now_val met_val = Ok r /\ upto m60 e60 r.
Proof.
  intros Hn Hm. unfold primary, rbind.
  destruct (int_truediv_ok now_val f1000 Hn ge_one_1000) as (a & -> & Va).
  destruct (float_rem_60 a (nonneg_valid_finite_or_zero a Va)) as (now_sec & -> & Un).
  destruct (int_truediv_ok met_val f10 Hm ge_one_10) as (b & -> & Vb).
  destruct (float_rem_60 b (nonneg_valid_finite_or_zero b Vb)) as (end_sec & -> & Ue).
  pose proof (sub_finite end_sec now_sec m60 e60 bounded_60 Ue Un) as Fd.
  destruct (float_rem_60 _ Fd) as (r' & -> & Ur).
  exists r'. split; [reflexivity|exact Ur].
Qed.

(** ** Floats between [0.0] and [60.0] *)

(** A well-formed binary64 value [x] with [0.0 <= x <= 60.0]. *)
Definition in_range (x : float) : Prop :=
  valid_binary prec emax x = true /\ in_0_60 x = true.

Lemma upto_in_range (x : float) : upto m60 e60 x -> in_range x.
Proof.
  intros U. split; [|apply upto_in_0_60; exact U].
  destruct x as [s|s| |s m e]; simpl in *; tauto.
Qed.

Lemma in_range_cases (x : float) : in_range x -> upto m60 e60 x \/ x = S754_zero true.
Proof.
  intros [V R]. destruct x as [[]|[]| |[] m e]; try discriminate R; auto.
  - left. reflexivity.
  - left. simpl in V. unfold in_0_60 in R. rewrite f60_eq in R.
    apply andb_true_iff in R as [_ R].
    destruct (SFleb_bound prec emax prec_gt_0 m e m60 e60 V bounded_60 R) as [He Hm].
    simpl. auto.
Qed.

Lemma max2_f0_not_pos (x : float) : ltb f0 x = false -> max2 f0 x = f0.
Proof. unfold max2. intros ->. reflexivity. Qed.

Lemma leb_refl_finite (m : positive) (e : Z) :
  leb (S754_finite false m e) (S754_finite false m e) = true.
Proof.
  apply SFleb_of_bound; [lia|]. rewrite Z.sub_diag. change (2 ^ 0) with 1. lia.
Qed.

(** The clamped decrement by a non-negative amount stays between [0.0] and
    the value it started from. *)
Lemma decrement_upto (sim d : float) :
  in_range sim -> leb f0 d = true ->
  upto m60 e60 (max2 f0 (sub sim d)) /\ leb (max2 f0 (sub sim d)) sim = true.
Proof.
  intros Hs Hd.
  assert (Z0 : upto m60 e60 f0) by reflexivity.
  destruct (in_range_cases sim Hs) as [U| ->].
  - destruct sim as [ss|ss| |ss ms es]; simpl in U; try tauto.
    + subst ss. destruct d as [[]|[]| |[] md ed]; try discriminate Hd; split; reflexivity.
    + destruct U as (-> & Bs & Hes & Hms).
      destruct d as [[]|[]| |[] md ed]; try discriminate Hd.
      * split; [simpl; auto|apply leb_refl_finite].
      * split; [simpl; auto|apply leb_refl_finite].
      * split; reflexivity.
      * unfold sub, SFsub. cbv zeta.
        pose proof (shl_align_spec ms es (Z.min es ed)) as [_ A1].
        pose proof (shl_align_spec md ed (Z.min es ed)) as [_ A2].
        rewrite A1, A2. cbn [cond_Zopp].
        replace (Z.min es (Z.min es ed)) with (Z.min es ed) by lia.
        replace (Z.min ed (Z.min es ed)) with (Z.min es ed) by lia.
        set (ez := Z.min es ed).
        set (A := Zpos ms * 2 ^ (es - ez)). set (B := Zpos md * 2 ^ (ed - ez)).
        assert (0 < A) by (unfold A; pose proof (pow2_pos (es - ez) ltac:(lia)); nia).
        assert (0 < B) by (unfold B; pose proof (pow2_pos (ed - ez) ltac:(lia)); nia).
        destruct (Z.compare_spec A B) as [Heq|Hlt|Hgt].
        -- replace (A - B) with 0 by lia. split; reflexivity.
        -- pose proof (normalize_ok true (B - A) ez false ltac:(lia)) as N.
           cbn [cond_Zopp] in N. replace (- (B - A)) with (A - B) in N by lia.
           rewrite max2_f0_not_pos; [split; reflexivity|].
           destruct (binary_normalize prec emax (A - B) ez false) as [s|s| |s m e];
             simpl in N.
           ++ reflexivity.
           ++ destruct N as [-> _]. reflexivity.
           ++ contradiction.
           ++ destruct N as [-> _]. reflexivity.
        -- pose proof (normalize_upto (A - B) ez false ms es ltac:(lia) Bs ltac:(lia)
                         ltac:(fold A; lia)) as N.
           destruct (binary_normalize prec emax (A - B) ez false) as [s|s| |s m e];
             simpl in N.
           ++ subst s. split; reflexivity.
           ++ contradiction.
           ++ contradiction.
           ++ destruct N as (-> & Bm & He & Hm).
              change (max2 f0 (S754_finite false m e)) with (S754_finite false m e).
              split; [|apply SFleb_of_bound; assumption].
              apply (upto_trans ms es m60 e60); [exact Hes|exact Hms|].
              simpl. auto.
  - destruct d as [[]|[]| |[] md ed]; try discriminate Hd; split; reflexivity.
Qed.

End IEEE.
Export IEEE.
(* ===================================================================== *)
(** * Part III.  Properties of the programs                               *)
(* ===================================================================== *)

(** ** Time Resolver *)

Lemma detect_primary (now_val met_val : Z) (remaining : float) :
  primary now_val met_val = Ok remaining -> in_0_60 remaining = true ->
  detect_unit_and_delta (Some now_val) (Some met_val) = Ok (Some remaining).
Proof. intros E G. unfold detect_unit_and_delta. rewrite E. simpl. rewrite G. reflexivity. Qed.

(** What the resolver returns for counters that are not negative. *)
Lemma detect_nonneg (now_val met_val : Z) (r : option float) :
  0 <= now_val -> 0 <= met_val ->
  detect_unit_and_delta (Some now_val) (Some met_val) = Ok r ->
  exists v, r = Some v /\ primary now_val met_val = Ok v /\ upto m60 e60 v.
Proof.
  intros Hn Hm. unfold detect_unit_and_delta.
  destruct (primary now_val met_val) as [v|] eqn:E; simpl; [|discriminate].
  pose proof (primary_upto _ _ _ Hn Hm E) as U.
  rewrite (upto_in_0_60 v U). intros [= <-]. eauto.
Qed.

(** The literal [39.0]. *)
Definition f39 : float := Eval vm_compute in round_int 39.

(** The two readings of a counter under the primary hypothesis. *)
Definition now_reading (x : Z) : res float :=
  let* a := int_truediv x f1000 in float_rem a f60.

Definition end_reading (x : Z) : res float :=
  let* b := int_truediv x f10 in float_rem b f60.

Lemma reading_upto (x : Z) (c v : float) :
  0 <= x -> ge_one c ->
  (let* a := int_truediv x c in float_rem a f60) = Ok v -> upto m60 e60 v.
Proof.
  intros Hx Hc. unfold rbind.
  destruct (int_truediv x c) as [a|] eqn:Ea; [|discriminate].
  pose proof (int_truediv_nonneg _ _ _ Hx Hc Ea) as Va.
  destruct (float_rem_60 a (nonneg_valid_finite_or_zero a Va)) as (r & -> & U).
  intros [= <-]. exact U.
Qed.

Lemma sub_self (v : float) : upto m60 e60 v -> sub v v = f0.
Proof.
  destruct v as [s|s| |s m e]; simpl upto; try tauto.
  - intros ->. reflexivity.
  - intros (-> & _). unfold sub, SFsub. cbv zeta. rewrite Z.sub_diag. reflexivity.
Qed.

(** C1 (as the code has it).  For non-negative counters that fit a float,
    the resolver returns the primary-hypothesis value; that value satisfies
    the guard [0.0 <= remaining <= 60.0] of the source, so the primary
    hypothesis is accepted and the fallback hypotheses are not consulted.
    The upper bound is closed: [60.0] itself is returned for some inputs. *)
Theorem C1_primary_accepted (now_val met_val : Z) :
  0 <= now_val <= max_float_int -> 0 <= met_val <= max_float_int ->
  exists remaining,
    primary now_val met_val = Ok remaining /\
    leb f0 remaining = true /\ leb remaining f60 = true /\
    detect_unit_and_delta (Some now_val) (Some met_val) = Ok (Some remaining).
Proof.
  intros Hn Hm. destruct (primary_ok now_val met_val Hn Hm) as (r & E & U).
  pose proof (upto_in_0_60 r U) as G. exists r.
  pose proof G as G'. unfold in_0_60 in G'. apply andb_true_iff in G' as [G0 G60].
  repeat split; try assumption. apply detect_primary; assumption.
Qed.

Lemma C1_primary_accepted_witness :
  exists remaining,
    primary 58000 50 = Ok remaining /\
    leb f0 remaining = true /\ leb remaining f60 = true /\
    detect_unit_and_delta (Some 58000) (Some 50) = Ok (Some remaining).
Proof.
  apply C1_primary_accepted; (split; [lia|vm_compute; discriminate]).
Defined.

(** C1 as stated fails: at [now = 300], [phase_end_raw = 603] the two readings
    are [0.3] and [0.29999999999999716], their difference is a tiny negative
    number, and the remainder modulo [60.0] rounds to [60.0]: the value is
    not below [60]. *)
Lemma C1_counterexample :
  detect_unit_and_delta (Some 300) (Some 603) = Ok (Some f60) /\
  ~ (exists r, detect_unit_and_delta (Some 300) (Some 603) = Ok (Some r) /\
               leb f0 r = true /\ ltb r f60 = true).
Proof.
  assert (E : detect_unit_and_delta (Some 300) (Some 603) = Ok (Some f60))
    by (vm_compute; reflexivity).
  split; [exact E|]. intros (r & Hr & _ & Hlt). rewrite E in Hr.
  injection Hr as <-. vm_compute in Hlt. discriminate.
Qed.

(** C2 (as the code has it).  With [now = X] and [phase_end_raw = X] the
    resolver yields [0.0] when the millisecond reading and the decisecond
    reading of [X] fall on the same second of the minute. *)
Theorem C2_identity_when_readings_agree (x : Z) (v : float) :
  0 <= x -> now_reading x = Ok v -> end_reading x = Ok v ->
  detect_unit_and_delta (Some x) (Some x) = Ok (Some f0).
Proof.
  intros Hx Hn He.
  pose proof (reading_upto x f1000 v Hx ge_one_1000 Hn) as U.
  apply detect_primary; [|reflexivity].
  unfold primary. unfold now_reading, rbind in Hn. unfold end_reading, rbind in He.
  unfold rbind.
  destruct (int_truediv x f1000) as [a|]; [|discriminate]. rewrite Hn.
  destruct (int_truediv x f10) as [b|]; [|discriminate]. rewrite He.
  rewrite (sub_self v U). reflexivity.
Qed.

Lemma C2_identity_when_readings_agree_witness :
  detect_unit_and_delta (Some 20000) (Some 20000) = Ok (Some f0).
Proof.
  apply (C2_identity_when_readings_agree 20000 (round_int 20));
    [lia|vm_compute; reflexivity|vm_compute; reflexivity].
Defined.

(** C2 as stated fails: at [X = 1000] the readings are [1.0] and [40.0] and
    the resolver yields [39.0]. *)
Lemma C2_counterexample :
  detect_unit_and_delta (Some 1000) (Some 1000) = Ok (Some f39) /\
  detect_unit_and_delta (Some 1000) (Some 1000) <> Ok (Some f0).
Proof. split; [vm_compute; reflexivity|vm_compute; discriminate]. Qed.

(** ** Numeric extraction *)

Lemma digit_val_nonneg (c : ascii) : PyStr.is_decimal c = true -> 0 <= PyStr.digit_val c.
Proof.
  unfold PyStr.is_decimal, PyStr.digit_val. rewrite andb_true_iff, N.leb_le. lia.
Qed.

Lemma digits_nonneg (l : list ascii) :
  (forall acc z, 0 <= acc -> PyStr.digits l acc = Some z -> 0 <= z) /\
  (forall c acc z, 0 <= acc -> PyStr.digits (c :: l) acc = Some z -> 0 <= z).
Proof.
  induction l as [|a l [IH1 IH2]].
  - split.
    + intros acc z Ha [= <-]. exact Ha.
    + intros c acc z Ha. simpl.
      destruct (PyStr.is_decimal c) eqn:Dc.
      * intros [= <-]. pose proof (digit_val_nonneg c Dc). lia.
      * destruct (Ascii.eqb c "_"); discriminate.
  - split; [exact (IH2 a)|].
    intros c acc z Ha. cbn [PyStr.digits].
    destruct (PyStr.is_decimal c) eqn:Dc.
    + apply IH2. pose proof (digit_val_nonneg c Dc). lia.
    + destruct (Ascii.eqb c "_"); [|discriminate].
      destruct (PyStr.is_decimal a) eqn:Da; [|discriminate].
      apply IH1. pose proof (digit_val_nonneg a Da). lia.
Qed.

Lemma unsigned_nonneg (l : list ascii) (z : Z) : PyStr.unsigned l = Some z -> 0 <= z.
Proof.
  destruct l as [|c r]; [discriminate|]. simpl.
  destruct (PyStr.is_decimal c) eqn:Dc; [|discriminate].
  apply (proj1 (digits_nonneg r)). apply digit_val_nonneg; exact Dc.
Qed.

Lemma lstrip_incl (blank : ascii -> bool) (l : list ascii) (c : ascii) :
  In c (PyStr.lstrip blank l) -> In c l.
Proof.
  induction l as [|a l IH]; simpl; [tauto|].
  destruct (blank a); [right; auto|intros H; exact H].
Qed.

Lemma strip_list_incl (blank : ascii -> bool) (l : list ascii) (c : ascii) :
  In c (PyStr.strip_list blank l) -> In c l.
Proof.
  unfold PyStr.strip_list. intros H.
  apply in_rev, lstrip_incl, in_rev, lstrip_incl in H. exact H.
Qed.

(** [int] of a text that [isdigit] accepts is not negative (it is a
    [ValueError] when the text holds a superscript digit). *)
Lemma int_of_isdigit_nonneg (t : string) (z : Z) :
  PyStr.isdigit t = true -> PyStr.int t = Some z -> 0 <= z.
Proof.
  unfold PyStr.isdigit, PyStr.int. cbv zeta. intros Hd.
  destruct (Nat.ltb _ _); [discriminate|]. unfold PyStr.literal.
  assert (Hall : forall c, In c (list_ascii_of_string t) -> PyStr.is_digit c = true).
  { destruct (list_ascii_of_string t) as [|c0 l0]; [discriminate|].
    intros c Hc. rewrite forallb_forall in Hd. apply Hd. exact Hc. }
  destruct (PyStr.strip_list PyStr.is_int_space (list_ascii_of_string t)) as [|c r] eqn:E;
    [discriminate|].
  assert (Hc : PyStr.is_digit c = true).
  { apply Hall, (strip_list_incl PyStr.is_int_space). rewrite E. left. reflexivity. }
  destruct (Ascii.eqb_spec c "-") as [->|_]; [discriminate Hc|].
  destruct (Ascii.eqb_spec c "+") as [->|_]; [discriminate Hc|].
  apply unsigned_nonneg.
Qed.

Lemma digit_text_nonneg (e : element) (t : string) (z : Z) :
  digit_text e = Some t -> int_or_raise t = Ok z -> 0 <= z.
Proof.
  unfold digit_text, int_or_raise. destruct (text e) as [t0|]; [|discriminate].
  destruct (PyStr.nonempty t0); [|discriminate]. simpl.
  destruct (PyStr.isdigit (PyStr.strip t0)) eqn:D; [|discriminate].
  intros [= <-]. destruct (PyStr.int (PyStr.strip t0)) as [z'|] eqn:I; [|discriminate].
  intros [= <-]. eapply int_of_isdigit_nonneg; eassumption.
Qed.

Lemma first_digit_text_nonneg (l : list element) (t : string) (z : Z) :
  first_digit_text l = Some t -> int_or_raise t = Ok z -> 0 <= z.
Proof.
  induction l as [|e l IH]; simpl; [discriminate|].
  destruct (digit_text e) as [t'|] eqn:D; [|exact IH].
  intros [= <-]. eapply digit_text_nonneg; eassumption.
Qed.

(** A counter: absent, or not negative. *)
Definition counter (v : option Z) : Prop := forall z, v = Some z -> 0 <= z.

Lemma counter_None : counter None.
Proof. intros z; discriminate. Qed.

Lemma num_in_node_or_kids_counter (node : option element) (v : option Z) :
  num_in_node_or_kids node = Ok v -> counter v.
Proof.
  unfold num_in_node_or_kids. destruct node as [n|]; [|intros [= <-]; apply counter_None].
  destruct (digit_text n) as [t|] eqn:D.
  - unfold rbind. destruct (int_or_raise t) as [z|] eqn:I; [|discriminate].
    intros [= <-] z' [= <-]. eapply digit_text_nonneg; eassumption.
  - destruct (first_digit_text (descendants n)) as [t|] eqn:F.
    + unfold rbind. destruct (int_or_raise t) as [z|] eqn:I; [|discriminate].
      intros [= <-] z' [= <-]. eapply first_digit_text_nonneg; eassumption.
    + intros [= <-]; apply counter_None.
Qed.

Lemma num_at_any_counter (el : element) (paths : list (list step)) (v : option Z) :
  num_at_any el paths = Ok v -> counter v.
Proof.
  induction paths as [|p rest IH]; simpl.
  - intros [= <-]; apply counter_None.
  - unfold rbind. destruct (num_in_node_or_kids (find el p)) as [w|] eqn:N; [|discriminate].
    destruct w as [z|]; [|exact IH].
    intros [= <-]. eapply num_in_node_or_kids_counter; eassumption.
Qed.

Lemma first_within_minute_in (l : list Z) (v : Z) :
  first_within_minute l = Some v -> In v l.
Proof.
  induction l as [|a l IH]; simpl; [discriminate|].
  destruct (within_minute a); [intros [= <-]; auto|auto].
Qed.

Lemma extract_now_value_counter (paths : list (list step)) (spat : element) (v : option Z) :
  extract_now_value_with paths spat = Ok v -> counter v.
Proof.
  unfold extract_now_value_with, rbind.
  destruct (num_at_any spat paths) as [ts|] eqn:T; [|discriminate].
  destruct (num_at_any spat [[Desc "moy"]]) as [moy|] eqn:M; [|discriminate].
  pose proof (num_at_any_counter _ _ _ T) as Cts.
  pose proof (num_at_any_counter _ _ _ M) as Cmoy.
  assert (Hall : forall z, In z (opt_to_list ts ++ opt_to_list moy)%list -> 0 <= z).
  { intros z Hz. apply in_app_or in Hz as [Hz|Hz].
    - destruct ts as [t|]; simpl in Hz; [|tauto]. destruct Hz as [<-|[]]. apply Cts; reflexivity.
    - destruct moy as [t|]; simpl in Hz; [|tauto]. destruct Hz as [<-|[]]. apply Cmoy; reflexivity. }
  destruct (opt_to_list ts ++ opt_to_list moy)%list as [|c0 cs] eqn:C.
  - intros [= <-]; apply counter_None.
  - destruct (first_within_minute (c0 :: cs)) as [w|] eqn:W.
    + intros [= <-] z [= <-]. apply Hall. eapply first_within_minute_in; exact W.
    + intros [= <-] z [= <-]. apply Hall. left; reflexivity.
Qed.

Lemma first_tag_num_counter (t : element) (tags : list string) (v : option Z) :
  first_tag_num t tags = Ok v -> counter v.
Proof.
  induction tags as [|tg rest IH]; cbn [first_tag_num].
  - intros [= <-]; apply counter_None.
  - unfold rbind. destruct (num_at_any t [[Child tg]]) as [w|] eqn:N; [|discriminate].
    destruct w as [z|]; [|exact IH].
    intros [= <-]. eapply num_at_any_counter; eassumption.
Qed.

Lemma read_min_end_in_counter (ev_el : element) (parents : list string) (v : option Z) :
  read_min_end_in ev_el parents = Ok v -> counter v.
Proof.
  induction parents as [|p rest IH]; cbn [read_min_end_in].
  - intros [= <-]; apply counter_None.
  - destruct (find ev_el [Child p]) as [t|]; [|exact IH].
    unfold rbind. destruct (first_tag_num t end_time_tags) as [w|] eqn:N; [|discriminate].
    destruct w as [z|]; [|exact IH].
    intros [= <-]. eapply first_tag_num_counter; eassumption.
Qed.

Lemma first_timed_counter (events : list element) (ev : element) (m : option Z) :
  first_timed events = Ok (Some (ev, m)) -> counter m.
Proof.
  induction events as [|e rest IH]; cbn [first_timed]; [discriminate|].
  unfold rbind. destruct (read_min_end_any e) as [w|] eqn:N; [|discriminate].
  destruct w as [z|]; [|exact IH].
  intros [= <- <-]. eapply read_min_end_in_counter; exact N.
Qed.

Lemma choose_event_counter (events : list element) (ev : element) (m : option Z) :
  choose_event events = Ok (Some (ev, m)) -> counter m.
Proof.
  unfold choose_event, rbind.
  destruct (first_timed events) as [chosen|] eqn:F; [|discriminate].
  destruct chosen as [[ev' m']|].
  - intros [= <- <-]. eapply first_timed_counter; exact F.
  - destruct events as [|ev0 rest]; [discriminate|].
    destruct (read_min_end_any ev0) as [w|] eqn:N; [|discriminate].
    intros [= <- <-]. eapply read_min_end_in_counter; exact N.
Qed.

Lemma movement_state_counter (ms : element) (os : list observation) :
  movement_state ms = Ok os -> Forall (fun o => counter (minEndRaw o)) os.
Proof.
  unfold movement_state.
  destruct (first ms [Child "signalGroup"]) as [sg_txt|]; [|intros [= <-]; constructor].
  destruct (PyStr.nonempty sg_txt); [|intros [= <-]; constructor].
  destruct (PyStr.int sg_txt) as [g|]; [|intros [= <-]; constructor].
  unfold rbind.
  destruct (choose_event _) as [chosen|] eqn:C; [|discriminate].
  destruct chosen as [[ev m]|]; intros [= <-]; repeat constructor; simpl.
  - eapply choose_event_counter; exact C.
  - apply counter_None.
Qed.

Lemma movement_states_counter (l : list element) (os : list observation) :
  movement_states l = Ok os -> Forall (fun o => counter (minEndRaw o)) os.
Proof.
  revert os. induction l as [|ms rest IH]; cbn [movement_states]; intros os.
  - intros [= <-]; constructor.
  - unfold rbind. destruct (movement_state ms) as [o|] eqn:M; [|discriminate].
    destruct (movement_states rest) as [os'|]; [|discriminate].
    intros [= <-]. apply Forall_app. split.
    + eapply movement_state_counter; exact M.
    + apply IH; reflexivity.
Qed.

Lemma parse_spat_with_counters (paths : list (list step)) (root : element)
    (id : option string) (now : option Z) (states : list observation) :
  parse_spat_with (extract_now_value_with paths) root = Ok (id, now, states) ->
  counter now /\ Forall (fun o => counter (minEndRaw o)) states.
Proof.
  unfold parse_spat_with.
  destruct (if String.eqb (tag root) "SPAT" then Some root else _) as [spat|];
    [|intros [= <- <- <-]; split; [apply counter_None|constructor]].
  destruct (find spat _) as [inter|];
    [|intros [= <- <- <-]; split; [apply counter_None|constructor]].
  unfold rbind.
  destruct (extract_now_value_with paths spat) as [n|] eqn:N; [|discriminate].
  destruct (movement_states _) as [os|] eqn:M; [|discriminate].
  intros [= <- <- <-]. split.
  - eapply extract_now_value_counter; exact N.
  - eapply movement_states_counter; exact M.
Qed.

(** ** Countdown Smoother *)

Lemma opt_eqb_eq (a b : option Z) : opt_eqb a b = true <-> a = b.
Proof.
  destruct a as [x|], b as [y|]; simpl; try (split; congruence).
  rewrite Z.eqb_eq. split; congruence.
Qed.

Lemma first_match_some (my_sg : option Z) (states : list observation) (st : observation) :
  first_match my_sg states = Some st -> In st states /\ sg_matches my_sg st = true.
Proof.
  induction states as [|o rest IH]; simpl; [discriminate|].
  destruct (sg_matches my_sg o) eqn:M.
  - intros [= <-]. auto.
  - intros H. destruct (IH H). auto.
Qed.

Lemma first_match_absent (states : list observation) : first_match None states = None.
Proof. induction states as [|o rest IH]; simpl; auto. Qed.

Lemma nonneg_valid_leb (d : float) : nonneg_valid d -> leb f0 d = true.
Proof.
  destruct d as [s|s| |s m e]; simpl nonneg_valid; try contradiction.
  - intros _. reflexivity.
  - intros [-> _]. reflexivity.
Qed.

Lemma max2_f0_nonneg (x : float) : leb f0 (max2 f0 x) = true.
Proof.
  unfold max2. destruct (ltb f0 x) eqn:L; [|reflexivity].
  unfold ltb, SFltb in L. unfold leb, SFleb.
  destruct (SFcompare f0 x) as [[]|]; try discriminate; reflexivity.
Qed.

(** The resolver's estimate for decoded counters. *)
Lemma detect_counters (now met : option Z) (r : option float) :
  counter now -> counter met -> detect_unit_and_delta now met = Ok r ->
  forall v, r = Some v -> upto m60 e60 v.
Proof.
  intros Cn Cm D v ->.
  destruct now as [n|], met as [m|]; try discriminate D.
  destruct (detect_nonneg n m _ (Cn n eq_refl) (Cm m eq_refl) D) as (v' & [= <-] & _ & U).
  exact U.
Qed.

(** [clock_le ts now]: the clock did not run backwards from [ts] to [now]. *)
Definition clock_le (ts now : option Z) : Prop :=
  forall t n, ts = Some t -> now = Some n -> t <= n.

(** The new simulated value is never negative. *)
Lemma countdown_nonneg (rate : float) (s : loop_state) (now met : option Z)
    (r : option float) :
  counter now -> counter met -> countdown rate s now met = Ok r ->
  forall v, r = Some v -> leb f0 v = true.
Proof.
  intros Cn Cm. unfold countdown, rbind.
  destruct (detect_unit_and_delta now met) as [rem|] eqn:D; [|discriminate].
  assert (Hrem : forall v, rem = Some v -> leb f0 v = true).
  { intros v Hv. pose proof (detect_counters _ _ _ Cn Cm D v Hv) as U.
    apply upto_in_0_60 in U. unfold in_0_60 in U.
    apply andb_true_iff in U. tauto. }
  destruct (simulated_rem s) as [sim|]; [|intros [= <-]; exact Hrem].
  destruct (opt_eqb met (last_min_end s)); [|intros [= <-]; exact Hrem].
  destruct (last_ts s) as [ts|], now as [n|];
    try (intros [= <-] v [= <-]; apply max2_f0_nonneg).
  destruct (int_truediv (n - ts) f10) as [dt|]; [|discriminate].
  intros [= <-] v [= <-]. apply max2_f0_nonneg.
Qed.

(** With a clock that did not run backwards and a non-negative nominal
    interval, the new simulated value is between [0.0] and [60.0]. *)
Lemma countdown_range (rate : float) (s : loop_state) (now met : option Z)
    (r : option float) :
  counter now -> counter met ->
  (forall v, simulated_rem s = Some v -> in_range v) ->
  leb f0 rate = true -> clock_le (last_ts s) now ->
  countdown rate s now met = Ok r ->
  forall v, r = Some v -> in_range v.
Proof.
  intros Cn Cm Hs Hr Hc. unfold countdown, rbind.
  destruct (detect_unit_and_delta now met) as [rem|] eqn:D; [|discriminate].
  assert (Hrem : forall v, rem = Some v -> in_range v).
  { intros v Hv. apply upto_in_range. exact (detect_counters _ _ _ Cn Cm D v Hv). }
  destruct (simulated_rem s) as [sim|]; [|intros [= <-]; exact Hrem].
  specialize (Hs sim eq_refl).
  destruct (opt_eqb met (last_min_end s)); [|intros [= <-]; exact Hrem].
  destruct (last_ts s) as [ts|] eqn:T, now as [n|] eqn:N;
    try (intros [= <-] v [= <-]; apply upto_in_range;
         apply (decrement_upto sim rate Hs Hr)).
  destruct (int_truediv (n - ts) f10) as [dt|] eqn:E; [|discriminate].
  intros [= <-] v [= <-]. apply upto_in_range.
  apply (decrement_upto sim dt Hs). apply nonneg_valid_leb.
  apply (int_truediv_nonneg (n - ts) f10 dt); [|exact ge_one_10|exact E].
  specialize (Hc ts n eq_refl eq_refl). lia.
Qed.

(** In the decrement branch with a non-negative decrement the simulated
    value does not increase. *)
Lemma countdown_decrement_le (rate : float) (s : loop_state) (now met : option Z)
    (sim v : float) :
  counter now -> simulated_rem s = Some sim -> in_range sim ->
  met = last_min_end s -> leb f0 rate = true -> clock_le (last_ts s) now ->
  countdown rate s now met = Ok (Some v) -> leb v sim = true.
Proof.
  intros Cn Es Hs Em Hr Hc. unfold countdown, rbind.
  destruct (detect_unit_and_delta now met) as [rem|]; [|discriminate].
  rewrite Es. rewrite (proj2 (opt_eqb_eq met (last_min_end s)) Em).
  destruct (last_ts s) as [ts|] eqn:T, now as [n|] eqn:N;
    try (intros [= <-]; apply (decrement_upto sim rate Hs Hr)).
  destruct (int_truediv (n - ts) f10) as [dt|] eqn:E; [|discriminate].
  intros [= <-]. apply (decrement_upto sim dt Hs). apply nonneg_valid_leb.
  apply (int_truediv_nonneg (n - ts) f10 dt); [|exact ge_one_10|exact E].
  specialize (Hc ts n eq_refl eq_refl). lia.
Qed.

Lemma smooth_cases (rate : float) (my_sg : option Z) (s : loop_state)
    (now : option Z) (states : list observation)
    (ev : option string) (sim : option float) (lme : option Z) :
  smooth rate my_sg s now states = Ok (ev, sim, lme) ->
  (first_match my_sg states = None /\
   ev = None /\ sim = simulated_rem s /\ lme = last_min_end s) \/
  (exists st, first_match my_sg states = Some st /\
              countdown rate s now (minEndRaw st) = Ok sim /\
              ev = event st /\ lme = minEndRaw st).
Proof.
  unfold smooth, rbind. destruct (first_match my_sg states) as [st|].
  - destruct (countdown rate s now (minEndRaw st)) as [r|] eqn:C; [|discriminate].
    intros [= <- <- <-]. right. exists st. auto.
  - intros [= <- <- <-]. left. auto.
Qed.

(** What a drawn frame is made of. *)
Lemma frame_drawn (a : args) (idm name : option string) (my_sg : option Z)
    (s : loop_state) (root : element) (id : option string) (now : option Z)
    (states : list observation) (c : card) (next : res loop_state) :
  parse_spat root = Ok (id, now, states) ->
  frame a idm name my_sg s (Some root) = Drawn c next ->
  exists ev sim lme,
    smooth (rate a) my_sg s now states = Ok (ev, sim, lme) /\
    secs_remaining c = sim /\ cur_color c = dict_get EVENT2COLOR ev red /\
    forall s', next = Ok s' -> s' = LoopState lme sim now (S (shown s)).
Proof.
  intros P. unfold frame. rewrite P.
  destruct states as [|st0 sts]; [discriminate|].
  destruct (smooth (rate a) my_sg s now (st0 :: sts)) as [[[ev sim] lme]|]; [|discriminate].
  intros [= <- <-]. exists ev, sim, lme. repeat split.
  intros s'. unfold rbind.
  destruct (frame_delay a (last_ts s) now) as [delay|]; [|discriminate].
  destruct (sleep delay); [|discriminate]. congruence.
Qed.

Lemma frame_not_drawn (a : args) (idm name : option string) (my_sg : option Z)
    (s : loop_state) (blob : option element) :
  match blob with
  | Some root =>
      match parse_spat root with
      | Ok (_, _, _ :: _) => True
      | _ => frame a idm name my_sg s blob <> Skipped ->
             exists e, frame a idm name my_sg s blob = Failed e
      end
  | None => frame a idm name my_sg s blob = Skipped
  end.
Proof.
  destruct blob as [root|]; [|reflexivity]. unfold frame.
  destruct (parse_spat root) as [[[id now] [|st0 sts]]|e]; try exact I.
  - intros H; contradiction.
  - intros _. eauto.
Qed.

(** ** The frame loop *)

(** The clock never runs backwards between consecutive processed frames. *)
Fixpoint steady_clock (ts : option Z) (blobs : list (option element)) : Prop :=
  match blobs with
  | [] => True
  | None :: rest => steady_clock ts rest
  | Some root :: rest =>
      match parse_spat root with
      | Ok (_, now, _ :: _) => clock_le ts now /\ steady_clock now rest
      | _ => steady_clock ts rest
      end
  end.

Lemma run_cards (a : args) (idm name : option string) (my_sg : option Z)
    (Inv : loop_state -> list (option element) -> Prop) (P : card -> Prop) :
  (forall s blob rest, Inv s (blob :: rest) ->
     match frame a idm name my_sg s blob with
     | Skipped => Inv s rest
     | Failed _ => True
     | Drawn c next => P c /\ forall s', next = Ok s' -> Inv s' rest
     end) ->
  forall blobs s, Inv s blobs -> Forall P (fst (run a idm name my_sg s blobs)).
Proof.
  intros Step. induction blobs as [|blob rest IH]; intros s HI; cbn [run].
  - constructor.
  - specialize (Step s blob rest HI).
    destruct (frame a idm name my_sg s blob) as [|e|c [s'|e]].
    + apply IH; exact Step.
    + constructor.
    + destruct Step as [Pc Hn]. specialize (IH s' (Hn s' eq_refl)).
      destruct (run a idm name my_sg s' rest) as [cs r]. constructor; assumption.
    + destruct Step as [Pc _]. repeat constructor. exact Pc.
Qed.

Lemma parse_spat_counters (root : element) (id : option string) (now : option Z)
    (states : list observation) :
  parse_spat root = Ok (id, now, states) ->
  counter now /\ Forall (fun o => counter (minEndRaw o)) states.
Proof. apply parse_spat_with_counters. Qed.

Definition nonneg_secs (c : card) : Prop :=
  forall v, secs_remaining c = Some v -> leb f0 v = true.

Definition secs_in_range (c : card) : Prop :=
  forall v, secs_remaining c = Some v -> in_range v.

Lemma run_nonneg (a : args) (idm name : option string) (my_sg : option Z)
    (s : loop_state) (blobs : list (option element)) :
  (forall v, simulated_rem s = Some v -> leb f0 v = true) ->
  Forall nonneg_secs (fst (run a idm name my_sg s blobs)).
Proof.
  apply (run_cards a idm name my_sg
           (fun s _ => forall v, simulated_rem s = Some v -> leb f0 v = true)).
  clear s blobs. intros s blob rest Hs.
  destruct (frame a idm name my_sg s blob) as [|e|c next] eqn:F; auto.
  destruct blob as [root|]; [|discriminate F].
  destruct (parse_spat root) as [[[id now] states]|e] eqn:P;
    [|unfold frame in F; rewrite P in F; discriminate F].
  destruct (parse_spat_counters _ _ _ _ P) as [Cn Cs].
  destruct (frame_drawn _ _ _ _ _ _ _ _ _ _ _ P F) as (ev & sim & lme & Sm & Hc & _ & Hn).
  assert (Hsim : forall v, sim = Some v -> leb f0 v = true).
  { destruct (smooth_cases _ _ _ _ _ _ _ _ Sm) as [(_ & _ & -> & _)|(st & Fm & Cd & _ & _)].
    - exact Hs.
    - apply first_match_some in Fm as [Hin _].
      rewrite Forall_forall in Cs. exact (countdown_nonneg _ _ _ _ _ Cn (Cs st Hin) Cd). }
  split.
  - unfold nonneg_secs. rewrite Hc. exact Hsim.
  - intros s' Hs'. rewrite (Hn s' Hs'). exact Hsim.
Qed.

Lemma run_in_range (a : args) (idm name : option string) (my_sg : option Z)
    (s : loop_state) (blobs : list (option element)) :
  leb f0 (rate a) = true ->
  (forall v, simulated_rem s = Some v -> in_range v) /\ steady_clock (last_ts s) blobs ->
  Forall secs_in_range (fst (run a idm name my_sg s blobs)).
Proof.
  intros Hr.
  apply (run_cards a idm name my_sg
           (fun s blobs => (forall v, simulated_rem s = Some v -> in_range v) /\
                           steady_clock (last_ts s) blobs)).
  clear s blobs. intros s blob rest [Hs Hclk].
  pose proof (frame_not_drawn a idm name my_sg s blob) as ND.
  destruct blob as [root|]; [|rewrite ND; split; assumption].
  cbn [steady_clock] in Hclk.
  destruct (parse_spat root) as [[[id now] states]|e] eqn:P.
  - destruct states as [|st0 sts].
    + destruct (frame a idm name my_sg s (Some root)) as [|e|c next] eqn:F; auto.
      destruct ND as [e He]; [discriminate|discriminate He].
    + destruct Hclk as [Hle Hrest].
      destruct (frame a idm name my_sg s (Some root)) as [|e|c next] eqn:F; auto.
      * unfold frame in F. rewrite P in F.
        destruct (smooth (rate a) my_sg s now (st0 :: sts)) as [[[? ?] ?]|]; discriminate F.
      * destruct (parse_spat_counters _ _ _ _ P) as [Cn Cs].
        destruct (frame_drawn _ _ _ _ _ _ _ _ _ _ _ P F)
          as (ev & sim & lme & Sm & Hc & _ & Hn).
        assert (Hsim : forall v, sim = Some v -> in_range v).
        { destruct (smooth_cases _ _ _ _ _ _ _ _ Sm)
            as [(_ & _ & -> & _)|(st & Fm & Cd & _ & _)].
          - exact Hs.
          - apply first_match_some in Fm as [Hin _].
            rewrite Forall_forall in Cs.
            exact (countdown_range _ _ _ _ _ Cn (Cs st Hin) Hs Hr Hle Cd). }
        split.
        -- unfold secs_in_range. rewrite Hc. exact Hsim.
        -- intros s' Hs'. rewrite (Hn s' Hs'). cbn [simulated_rem last_ts].
           split; assumption.
  - destruct (frame a idm name my_sg s (Some root)) as [|e'|c next] eqn:F; auto.
    destruct ND as [e' He]; [discriminate|discriminate He].
Qed.

(** ** Sessions *)

Import Samples.

(** The cards of a session come from the frame loop started in the initial state. *)
Lemma main_cards (a : args) (maps spats : list (option element))
    (cards : list card) (out : outcome) :
  main a maps spats = (cards, out) ->
  cards = [] \/
  exists idm name my_sg,
    cards = fst (run a idm name my_sg initial_state spats).
Proof.
  unfold main. destruct maps as [|[root|] maps]; try (intros [= <- <-]; auto).
  destruct (parse_map root) as [[idm name] lanes].
  destruct (lanes !! lane a) as [my_sg|]; [|intros [= <- <-]; auto].
  destruct spats as [|b spats]; [intros [= <- <-]; auto|].
  destruct (run a idm name my_sg initial_state (b :: spats)) as [cs r] eqn:R.
  intros [= <- <-]. right. exists idm, name, my_sg. rewrite R. reflexivity.
Qed.

(** Two frames around a minute boundary: the millisecond counter wraps from
    59900 to 100 while the phase end stays at 50. *)
Definition minute_wrap : list (option element) :=
  [Some (spat "59900" [movement "2" "stop-And-Remain" "50"]);
   Some (spat "100" [movement "2" "stop-And-Remain" "50"])].

(** C3 (the code at its failing input).  Over the two frames of
    [minute_wrap], which share their [phase_end_raw], the clock delta is
    [(100 - 59900) / 10.0 = -5980.0]: the simulated value goes from about
    [5.1] up to about [5985.1], above the first value and above [60]. *)
Theorem C3_countdown_rises_at_minute_wrap :
  exists c1 c2 v1 v2,
    main default_args [Some map_5_2] minute_wrap = ([c1; c2], Completed false) /\
    secs_remaining c1 = Some v1 /\ secs_remaining c2 = Some v2 /\
    ltb v1 v2 = true /\ ltb f60 v2 = true.
Proof.
  set (r := main default_args [Some map_5_2] minute_wrap). vm_compute in r. subst r.
  do 4 eexists. repeat split; reflexivity.
Qed.

(** One frame with [now = 300] and [phase_end_raw = 603]. *)
Definition sixty_session : list (option element) :=
  [Some (spat "300" [movement "2" "stop-And-Remain" "603"])].

(** C4 as stated fails: in the session [sixty_session] the simulated value
    shown is [60.0], which is not below [60]. *)
Lemma C4_counterexample :
  (exists c, main default_args [Some map_5_2] sixty_session = ([c], Completed false) /\
             secs_remaining c = Some f60) /\
  ltb f60 f60 = false.
Proof.
  split; [|reflexivity].
  set (r := main default_args [Some map_5_2] sixty_session). vm_compute in r. subst r.
  eexists. split; reflexivity.
Qed.

(** C4 (as the code has it).  Every simulated value shown in a session is
    never negative.  When the nominal interval is not negative and the clock
    never runs backwards between consecutive processed frames, every
    simulated value shown is a float between [0.0] and [60.0], both
    included: the reset branch yields the resolver's estimate, and the
    decrement branch clamps at [0.0] and does not increase the value. *)
Theorem C4_simulated_range (a : args) (maps spats : list (option element))
    (cards : list card) (out : outcome) :
  main a maps spats = (cards, out) ->
  Forall nonneg_secs cards /\
  (leb f0 (rate a) = true -> steady_clock None spats -> Forall secs_in_range cards).
Proof.
  intros M. destruct (main_cards _ _ _ _ _ M) as [->|(idm & name & my_sg & ->)].
  - split; [constructor|intros; constructor].
  - split.
    + apply run_nonneg. discriminate.
    + intros Hr Hc. apply run_in_range; [exact Hr|]. split; [discriminate|exact Hc].
Qed.

(** Two frames 100 ms apart that share their [phase_end_raw]. *)
Definition steady_session : list (option element) :=
  [Some (spat "58000" [movement "2" "stop-And-Remain" "50"]);
   Some (spat "58100" [movement "2" "stop-And-Remain" "50"])].

Lemma C4_simulated_range_witness :
  Forall nonneg_secs (fst (main default_args [Some map_5_2] steady_session)) /\
  Forall secs_in_range (fst (main default_args [Some map_5_2] steady_session)).
Proof.
  destruct (C4_simulated_range default_args [Some map_5_2] steady_session
              (fst (main default_args [Some map_5_2] steady_session))
              (snd (main default_args [Some map_5_2] steady_session))) as [N R].
  - destruct (main default_args [Some map_5_2] steady_session); reflexivity.
  - split; [exact N|]. apply R; [reflexivity|].
    unfold steady_session. cbn [steady_clock].
    set (p := parse_spat _) at 1. vm_compute in p. subst p. cbv beta iota.
    set (p := parse_spat _) at 1. vm_compute in p. subst p. cbv beta iota.
    repeat split; intros t n H1 H2; try discriminate.
    injection H1 as <-. injection H2 as <-. lia.
Defined.

(** C5.  When the matching observation's [phase_end_raw] differs from the
    stored one, or no simulated value is stored, the frame's simulated value
    is the resolver's fresh estimate for that frame, whatever the stored
    simulated value was; the frame raises exactly when the resolver does. *)
Theorem C5_reset_to_fresh_estimate (a : args) (idm name : option string)
    (my_sg : option Z) (s : loop_state) (root : element) (id : option string)
    (now : option Z) (states : list observation) (st : observation) :
  parse_spat root = Ok (id, now, states) ->
  first_match my_sg states = Some st ->
  minEndRaw st <> last_min_end s \/ simulated_rem s = None ->
  match detect_unit_and_delta now (minEndRaw st) with
  | Ok fresh =>
      exists c next,
        frame a idm name my_sg s (Some root) = Drawn c next /\
        secs_remaining c = fresh /\
        forall s', next = Ok s' -> simulated_rem s' = fresh
  | Raise e => frame a idm name my_sg s (Some root) = Failed e
  end.
Proof.
  intros P Fm Hreset.
  assert (Hc : countdown (rate a) s now (minEndRaw st)
               = detect_unit_and_delta now (minEndRaw st)).
  { unfold countdown, rbind.
    destruct (detect_unit_and_delta now (minEndRaw st)) as [fresh|e]; [|reflexivity].
    destruct (simulated_rem s) as [sim|] eqn:Es; [|reflexivity].
    destruct (opt_eqb (minEndRaw st) (last_min_end s)) eqn:Eb; [|reflexivity].
    apply opt_eqb_eq in Eb. destruct Hreset as [H|H]; [contradiction|discriminate]. }
  unfold frame. rewrite P.
  destruct states as [|st0 sts]; [discriminate Fm|].
  unfold smooth. rewrite Fm, Hc. unfold rbind.
  destruct (detect_unit_and_delta now (minEndRaw st)) as [fresh|e]; [|reflexivity].
  eexists _, _. split; [reflexivity|]. split; [reflexivity|].
  intros s'. destruct (frame_delay a (last_ts s) now) as [delay|]; [|discriminate].
  destruct (sleep delay); [|discriminate]. intros [= <-]. reflexivity.
Qed.

Lemma C5_reset_to_fresh_estimate_witness :
  match detect_unit_and_delta (Some 58000) (Some 50) with
  | Ok fresh =>
      exists c next,
        frame default_args None None (Some 2) initial_state
              (Some (spat "58000" [movement "2" "stop-And-Remain" "50"]))
          = Drawn c next /\
        secs_remaining c = fresh /\
        forall s', next = Ok s' -> simulated_rem s' = fresh
  | Raise e =>
      frame default_args None None (Some 2) initial_state
            (Some (spat "58000" [movement "2" "stop-And-Remain" "50"])) = Failed e
  end.
Proof.
  apply (C5_reset_to_fresh_estimate default_args None None (Some 2) initial_state
           (spat "58000" [movement "2" "stop-And-Remain" "50"]) (Some "42") (Some 58000)
           [Observation 2 (Some "stop-And-Remain") (Some 50)]
           (Observation 2 (Some "stop-And-Remain") (Some 50)));
    [vm_compute; reflexivity|reflexivity|right; reflexivity].
Defined.

(** C6 as the specification states it: after every processed frame the stored
    [last_ts] is the frame's [now], and the stored [last_min_end] is the
    [phase_end_raw] of the frame's observation for the observer's signal group. *)
Definition C6_as_stated : Prop :=
  forall (a : args) (idm name : option string) (my_sg : option Z) (s : loop_state)
         (root : element) (id : option string) (now : option Z)
         (states : list observation) (c : card) (s' : loop_state),
    parse_spat root = Ok (id, now, states) ->
    frame a idm name my_sg s (Some root) = Drawn c (Ok s') ->
    last_ts s' = now /\
    exists st, first_match my_sg states = Some st /\ last_min_end s' = minEndRaw st.

(** The state after a frame with [phase_end_raw = 50] for signal group 2. *)
Definition f7 : float := Eval vm_compute in round_int 7.

Definition after_first : loop_state := LoopState (Some 50) (Some f7) (Some 58000) 1.

(** C6 as stated fails: a processed frame that carries observations for other
    signal groups only ([phase_end_raw = 70] for signal group 3) leaves the
    stored [last_min_end] at its old value [50]. *)
Lemma C6_counterexample :
  (exists c s',
     frame default_args None None (Some 2) after_first
           (Some (spat "58100" [movement "3" "dark" "70"])) = Drawn c (Ok s') /\
     last_min_end s' = Some 50) /\
  ~ C6_as_stated.
Proof.
  assert (P : parse_spat (spat "58100" [movement "3" "dark" "70"])
              = Ok (Some "42", Some 58100, [Observation 3 (Some "dark") (Some 70)]))
    by (vm_compute; reflexivity).
  assert (F : exists c s',
     frame default_args None None (Some 2) after_first
           (Some (spat "58100" [movement "3" "dark" "70"])) = Drawn c (Ok s') /\
     last_min_end s' = Some 50).
  { set (r := frame _ _ _ _ _ _). vm_compute in r. subst r.
    eexists _, _. split; reflexivity. }
  split; [exact F|]. intros H. destruct F as (c & s' & F & _).
  destruct (H _ _ _ _ _ _ _ _ _ _ _ P F) as (_ & st & Fm & _). discriminate Fm.
Qed.

(** C6 (as the code has it).  After every processed frame the stored
    [last_ts] is the frame's [now]; the stored [last_min_end] is the
    [phase_end_raw] of the first observation for the observer's signal group
    when the frame has one, and is unchanged otherwise. *)
Theorem C6_stored_values (a : args) (idm name : option string) (my_sg : option Z)
    (s : loop_state) (root : element) (id : option string) (now : option Z)
    (states : list observation) (c : card) (s' : loop_state) :
  parse_spat root = Ok (id, now, states) ->
  frame a idm name my_sg s (Some root) = Drawn c (Ok s') ->
  last_ts s' = now /\
  last_min_end s' =
    match first_match my_sg states with
    | Some st => minEndRaw st
    | None => last_min_end s
    end.
Proof.
  intros P F.
  destruct (frame_drawn _ _ _ _ _ _ _ _ _ _ _ P F) as (ev & sim & lme & Sm & _ & _ & Hn).
  rewrite (Hn s' eq_refl). cbn [last_ts last_min_end]. split; [reflexivity|].
  destruct (smooth_cases _ _ _ _ _ _ _ _ Sm) as [[-> (_ & _ & ->)]|(st & -> & _ & _ & ->)];
    reflexivity.
Qed.

Lemma C6_stored_values_witness :
  exists c s',
    frame default_args None None (Some 2) after_first
          (Some (spat "58100" [movement "3" "dark" "70"])) = Drawn c (Ok s') /\
    last_ts s' = Some 58100 /\ last_min_end s' = Some 50.
Proof.
  assert (F : exists c s',
     frame default_args None None (Some 2) after_first
           (Some (spat "58100" [movement "3" "dark" "70"])) = Drawn c (Ok s')).
  { set (r := frame _ _ _ _ _ _). vm_compute in r. subst r. eexists _, _. reflexivity. }
  destruct F as (c & s' & F). exists c, s'. split; [exact F|].
  apply (C6_stored_values default_args None None (Some 2) after_first
           (spat "58100" [movement "3" "dark" "70"]) (Some "42") (Some 58100)
           [Observation 3 (Some "dark") (Some 70)] c s');
    [vm_compute; reflexivity|exact F].
Defined.

(** ** Geometry Decoder *)

(** Follows the specification's words: the numeric value of the first
    connection that exposes a numeric signal-group value, absent when no
    connection carries one.  [lane_sg] above is the source's loop. *)
Fixpoint spec_lane_sg (connections : list element) : option Z :=
  match connections with
  | [] => None
  | ct :: rest =>
      match first ct [Child "signalGroup"] with
      | Some sgt =>
          match PyStr.int sgt with
          | Some g => Some g
          | None => spec_lane_sg rest
          end
      | None => spec_lane_sg rest
      end
  end.

(** The connection has a non-empty [signalGroup] text. *)
Definition has_sg_text (ct : element) : bool :=
  match first ct [Child "signalGroup"] with
  | Some sgt => PyStr.nonempty sgt
  | None => false
  end.

Definition connections_of (gl : element) : list element :=
  findall gl [Child "connectsTo"; Child "Connection"].

Lemma lane_sg_skip (pre rest : list element) :
  Forall (fun c => has_sg_text c = false) pre -> lane_sg (pre ++ rest) = lane_sg rest.
Proof.
  induction 1 as [|c pre Hc _ IH]; [reflexivity|].
  cbn [app lane_sg]. unfold has_sg_text in Hc.
  destruct (first c [Child "signalGroup"]) as [t|]; [|exact IH].
  rewrite Hc. exact IH.
Qed.

(** C7 as stated fails: on lane 7 the first connection has the text ["x"]
    and the second has ["3"]; the specification's reading gives signal
    group 3, the decoder records the lane without a signal group. *)
Lemma C7_counterexample :
  spec_lane_sg (connections_of lane_7) = Some 3 /\
  lane_sg (connections_of lane_7) = None /\
  (parse_map (map_data [lane_7])).2 !! 7 = Some None.
Proof. repeat split; vm_compute; reflexivity. Qed.

(** C7 (as the code has it).  A lane whose [laneID] reads as the integer
    [lid] is recorded under [lid] with the signal group [lane_sg] finds: the
    first connection with a non-empty [signalGroup] text decides, giving its
    integer value, or no signal group when that text is no integer; a lane
    none of whose connections has such a text has no signal group.  The
    decoder is a total function: none of these cases is an error. *)
Theorem C7_first_signal_group_text_decides (lanes : gmap Z (option Z)) (gl : element)
    (lid_txt : string) (lid : Z) :
  first gl [Child "laneID"] = Some lid_txt ->
  PyStr.nonempty lid_txt = true ->
  PyStr.int lid_txt = Some lid ->
  add_lane lanes gl !! lid = Some (lane_sg (connections_of gl)) /\
  (forall pre ct post t,
     connections_of gl = (pre ++ ct :: post)%list ->
     Forall (fun c => has_sg_text c = false) pre ->
     first ct [Child "signalGroup"] = Some t -> PyStr.nonempty t = true ->
     lane_sg (connections_of gl) = PyStr.int t) /\
  (Forall (fun c => has_sg_text c = false) (connections_of gl) ->
   lane_sg (connections_of gl) = None).
Proof.
  intros Hf Hn Hi. split; [|split].
  - unfold add_lane. rewrite Hf, Hn, Hi. apply lookup_insert_eq.
  - intros pre ct post t -> Hpre Ht Hne.
    rewrite lane_sg_skip by exact Hpre. cbn [lane_sg]. rewrite Ht, Hne. reflexivity.
  - intros Hall. rewrite <- (app_nil_r (connections_of gl)).
    rewrite lane_sg_skip by exact Hall. reflexivity.
Qed.

Lemma C7_first_signal_group_text_decides_witness :
  add_lane ∅ lane_7 !! 7 = Some (lane_sg (connections_of lane_7)) /\
  lane_sg (connections_of lane_7) = PyStr.int "x".
Proof.
  destruct (C7_first_signal_group_text_decides ∅ lane_7 "7" 7) as (A & B & _);
    [reflexivity|reflexivity|reflexivity|].
  split; [exact A|].
  apply (B [] (connection "x") [connection "3"] "x");
    [reflexivity|constructor|reflexivity|reflexivity].
Defined.

(** ** Terminal report *)

(** One frame whose only observation is for signal group 3. *)
Definition other_group_session : list (option element) :=
  [Some (spat "58100" [movement "3" "dark" "70"])].

(** C8 (the code at its failing input).  The observer's lane 5 is governed
    by signal group 2 and the only frame carries signal group 3: no frame
    holds an observation for the observer's signal group, the frame is
    drawn all the same, [shown] is 1 and the report is not printed, in both
    programs. *)
Theorem C8_report_not_printed :
  (exists id now states,
     parse_spat (spat "58100" [movement "3" "dark" "70"]) = Ok (id, now, states) /\
     first_match (Some 2) states = None) /\
  (parse_map map_5_2).2 !! 5 = Some (Some 2) /\
  (exists c, main default_args [Some map_5_2] other_group_session
             = ([c], Completed false)) /\
  (exists c, Offline.main 5 f0_5 [Some map_5_2] other_group_session
             = ([c], Completed false)).
Proof.
  split; [|split; [|split]].
  - set (r := parse_spat _). vm_compute in r. subst r. eexists _, _, _. split; reflexivity.
  - vm_compute. reflexivity.
  - set (r := main _ _ _). vm_compute in r. subst r. eexists. reflexivity.
  - set (r := Offline.main _ _ _ _). vm_compute in r. subst r. eexists. reflexivity.
Qed.

(** ** Decoded counters *)

(** C9 as stated fails: signal groups and lane identifiers are read with
    [int], which accepts a sign.  A [signalGroup] text ["-3"] is decoded as
    the signal group [-3], and a [laneID] text ["-7"] as the lane [-7]. *)
Lemma C9_counterexample :
  (exists o, parse_spat (spat "58100" [movement "-3" "dark" "70"])
             = Ok (Some "42", Some 58100, [o]) /\ sg o < 0) /\
  (parse_map (map_data [generic_lane "-7" [connection "-4"]])).2 !! (-7) = Some (Some (-4)).
Proof.
  split.
  - set (r := parse_spat _). vm_compute in r. subst r. eexists. split; reflexivity.
  - vm_compute. reflexivity.
Qed.

(** C9 (as the code has it).  The [now] counter and every [phase_end_raw]
    that the Phase Decoder of either program returns is not negative: they
    are read from text that [isdigit] accepts.  These are the counters the
    Time Resolver and the Smoother receive. *)
Theorem C9_decoded_counters_nonneg (root : element) (id : option string)
    (now : option Z) (states : list observation) :
  parse_spat root = Ok (id, now, states) \/
  Offline.parse_spat root = Ok (id, now, states) ->
  (forall n, now = Some n -> 0 <= n) /\
  (forall o m, In o states -> minEndRaw o = Some m -> 0 <= m).
Proof.
  intros [P|P]; apply parse_spat_with_counters in P as [Cn Cs];
    (split; [exact Cn|]); intros o m Ho; rewrite Forall_forall in Cs; exact (Cs o Ho m).
Qed.

Lemma C9_decoded_counters_nonneg_witness :
  (forall n, Some 58100 = Some n -> 0 <= n) /\
  (forall o m, In o [Observation (-3) (Some "dark") (Some 70)] ->
               minEndRaw o = Some m -> 0 <= m).
Proof.
  apply (C9_decoded_counters_nonneg (spat "58100" [movement "-3" "dark" "70"]) (Some "42")).
  left. vm_compute. reflexivity.
Defined.

(** ** An observer lane without a signal group *)

(** The card of a frame without information: red, no seconds. *)
Definition red_unknown (c : card) : Prop :=
  cur_color c = red /\ secs_remaining c = None.

Lemma run_unmapped (a : args) (idm name : option string) (s : loop_state)
    (blobs : list (option element)) :
  simulated_rem s = None ->
  Forall red_unknown (fst (run a idm name None s blobs)).
Proof.
  apply (run_cards a idm name None (fun s _ => simulated_rem s = None)).
  clear s blobs. intros s blob rest Hs.
  destruct (frame a idm name None s blob) as [|e|c next] eqn:F; auto.
  destruct blob as [root|]; [|discriminate F].
  destruct (parse_spat root) as [[[id now] states]|e] eqn:P;
    [|unfold frame in F; rewrite P in F; discriminate F].
  destruct (frame_drawn _ _ _ _ _ _ _ _ _ _ _ P F) as (ev & sim & lme & Sm & Hc & Hcol & Hn).
  unfold smooth in Sm. rewrite first_match_absent in Sm. injection Sm as <- <- <-.
  split.
  - split; [rewrite Hcol; reflexivity|rewrite Hc; exact Hs].
  - intros s' Hs'. rewrite (Hn s' Hs'). exact Hs.
Qed.

Lemma offline_run_unmapped (lane : Z) (rate : float) (idm name : option string) (n : nat)
    (blobs : list (option element)) :
  Forall red_unknown (fst (Offline.run lane rate idm name None n blobs)).
Proof.
  revert n. induction blobs as [|blob rest IH]; intros n; cbn [Offline.run]; [constructor|].
  destruct (Offline.frame lane idm name None blob) as [[c|]|e] eqn:F.
  - specialize (IH (S n)).
    assert (Hc : red_unknown c).
    { destruct blob as [root|]; [|discriminate F]. unfold Offline.frame, rbind in F.
      destruct (Offline.parse_spat root) as [[[id now] [|st0 sts]]|]; try discriminate F.
      rewrite first_match_absent in F. injection F as <-. split; reflexivity. }
    destruct (sleep (max2 f0_05 rate)).
    + destruct (Offline.run lane rate idm name None (S n) rest) as [cs r].
      constructor; [exact Hc|exact IH].
    + constructor; [exact Hc|constructor].
  - apply IH.
  - constructor.
Qed.

(** The identifier decoded from each block that the loop draws: the blocks
    that decode, without raising, to at least one observation. *)
Definition drawn_ids
    (decode : element -> res (option string * option Z * list observation))
    (blobs : list (option element)) : list (option string) :=
  flat_map (fun blob =>
              match blob with
              | Some root =>
                  match decode root with
                  | Ok (id, _, _ :: _) => [id]
                  | _ => []
                  end
              | None => []
              end) blobs.

(** The card of a frame for an observer without a signal group. *)
Definition unmapped_card (idm name : option string) (lane_id : Z) (clear : bool)
    (id : option string) : card :=
  Card name (PyStr.or_else idm id) lane_id None red None clear.

(** Without a signal group, the loop draws the card of every block of
    [drawn_ids], in order, for as long as it runs. *)
Lemma run_unmapped_cards (a : args) (idm name : option string) (s : loop_state)
    (blobs : list (option element)) :
  simulated_rem s = None ->
  (exists n, fst (run a idm name None s blobs)
             = firstn n (map (unmapped_card idm name (lane a) (negb (no_clear a)))
                             (drawn_ids parse_spat blobs))) /\
  (forall s', snd (run a idm name None s blobs) = Ok s' ->
     fst (run a idm name None s blobs)
     = map (unmapped_card idm name (lane a) (negb (no_clear a)))
           (drawn_ids parse_spat blobs)).
Proof.
  revert s. induction blobs as [|blob rest IH]; intros s Hs.
  - split; [exists 0%nat; reflexivity|reflexivity].
  - cbn [run drawn_ids flat_map]. fold (drawn_ids parse_spat rest).
    destruct blob as [root|]; [|exact (IH s Hs)].
    unfold frame. destruct (parse_spat root) as [[[id now] states]|e] eqn:P.
    + destruct states as [|st0 sts]; [exact (IH s Hs)|].
      unfold smooth. rewrite first_match_absent, Hs.
      change (dict_get EVENT2COLOR None red) with red.
      fold (unmapped_card idm name (lane a) (negb (no_clear a)) id).
      destruct (let* delay := frame_delay a (last_ts s) now in
                let* _ := sleep delay in
                Ok (LoopState (last_min_end s) None now (S (shown s)))) as [s1|e] eqn:N.
      * assert (Hs1 : simulated_rem s1 = None).
        { unfold rbind in N. destruct (frame_delay a (last_ts s) now); [|discriminate N].
          destruct (sleep _); [|discriminate N]. injection N as <-. reflexivity. }
        destruct (IH s1 Hs1) as [[n Hn] Hall].
        destruct (run a idm name None s1 rest) as [cs r]. cbn [fst snd] in *.
        cbn [app map]. split.
        -- exists (S n). cbn [firstn]. rewrite Hn. reflexivity.
        -- intros s' Hr. rewrite (Hall s' Hr). reflexivity.
      * cbn [fst snd app map]. split; [exists 1%nat; reflexivity|discriminate].
    + cbn [fst snd app]. split; [exists 0%nat; reflexivity|discriminate].
Qed.

Lemma offline_run_unmapped_cards (lane : Z) (rate : float) (idm name : option string)
    (n0 : nat) (blobs : list (option element)) :
  (exists n, fst (Offline.run lane rate idm name None n0 blobs)
             = firstn n (map (unmapped_card idm name lane true)
                             (drawn_ids Offline.parse_spat blobs))) /\
  (forall k, snd (Offline.run lane rate idm name None n0 blobs) = Ok k ->
     fst (Offline.run lane rate idm name None n0 blobs)
     = map (unmapped_card idm name lane true) (drawn_ids Offline.parse_spat blobs)).
Proof.
  revert n0. induction blobs as [|blob rest IH]; intros n0.
  - split; [exists 0%nat; reflexivity|reflexivity].
  - cbn [Offline.run drawn_ids flat_map]. fold (drawn_ids Offline.parse_spat rest).
    destruct blob as [root|]; [|exact (IH n0)].
    unfold Offline.frame, rbind.
    destruct (Offline.parse_spat root) as [[[id now] states]|e] eqn:P.
    + destruct states as [|st0 sts]; [exact (IH n0)|].
      rewrite first_match_absent.
      change (dict_get EVENT2COLOR None red) with red.
      fold (unmapped_card idm name lane true id).
      destruct (sleep (max2 f0_05 rate)).
      * destruct (IH (S n0)) as [[n Hn] Hall].
        destruct (Offline.run lane rate idm name None (S n0) rest) as [cs r].
        cbn [fst snd] in *. cbn [app map]. split.
        -- exists (S n). cbn [firstn]. rewrite Hn. reflexivity.
        -- intros k Hr. rewrite (Hall k Hr). reflexivity.
      * cbn [fst snd app map]. split; [exists 1%nat; reflexivity|discriminate].
    + cbn [fst snd app]. split; [exists 0%nat; reflexivity|discriminate].
Qed.

(** A block whose decoding raises nothing (a block that is not a document
    is passed over before it is decoded). *)
Definition decodes
    (decode : element -> res (option string * option Z * list observation))
    (blob : option element) : Prop :=
  match blob with
  | Some root => exists r, decode root = Ok r
  | None => True
  end.

(** With the nominal pacing accepted by [time.sleep] and blocks that decode,
    the loop runs to its end. *)
Lemma run_unmapped_completes (a : args) (idm name : option string) (s : loop_state)
    (blobs : list (option element)) :
  simulated_rem s = None -> sync_time a = false -> sleep (rate a) = Ok tt ->
  Forall (decodes parse_spat) blobs ->
  exists s', snd (run a idm name None s blobs) = Ok s'.
Proof.
  intros Hs Hsync Hsleep Hall. revert s Hs.
  induction Hall as [|blob rest Hb _ IH]; intros s Hs; [eexists; reflexivity|].
  cbn [run]. destruct blob as [root|]; [|exact (IH s Hs)].
  destruct Hb as [[[id now] states] P]. unfold frame. rewrite P.
  destruct states as [|st0 sts]; [exact (IH s Hs)|].
  unfold smooth. rewrite first_match_absent.
  assert (D : frame_delay a (last_ts s) now = Ok (rate a)).
  { unfold frame_delay. rewrite Hsync. reflexivity. }
  rewrite D. cbn [rbind]. rewrite Hsleep. cbn [rbind].
  destruct (IH (LoopState (last_min_end s) (simulated_rem s) now (S (shown s))) Hs)
    as [s' Hr].
  destruct (run a idm name None _ rest) as [cs r]. exact (ex_intro _ s' Hr).
Qed.

Lemma offline_run_unmapped_completes (lane : Z) (rate : float) (idm name : option string)
    (n0 : nat) (blobs : list (option element)) :
  sleep (max2 f0_05 rate) = Ok tt -> Forall (decodes Offline.parse_spat) blobs ->
  exists k, snd (Offline.run lane rate idm name None n0 blobs) = Ok k.
Proof.
  intros Hsleep Hall. revert n0.
  induction Hall as [|blob rest Hb _ IH]; intros n0; [eexists; reflexivity|].
  cbn [Offline.run]. destruct blob as [root|]; [|exact (IH n0)].
  destruct Hb as [[[id now] states] P]. unfold Offline.frame, rbind. rewrite P.
  destruct states as [|st0 sts]; [exact (IH n0)|].
  rewrite first_match_absent, Hsleep.
  destruct (IH (S n0)) as [k Hr].
  destruct (Offline.run lane rate idm name None (S n0) rest) as [cs r].
  exact (ex_intro _ k Hr).
Qed.

(** What a session shows to an observer without a signal group: it passes
    the lane check and every card is red without seconds; [expected] being
    the cards of the blocks that decode to at least one observation, in
    order, the cards drawn are the first of [expected] for as long as the
    program runs, and all of [expected] when it runs to its end, which it
    does under [normal] conditions. *)
Definition presents_all (cards : list card) (out : outcome) (expected : list card)
    (normal : Prop) : Prop :=
  out <> LaneNotFound /\ out <> NoMapData /\ Forall red_unknown cards /\
  (exists n, cards = firstn n expected) /\
  (forall b, out = Completed b -> cards = expected) /\
  (normal -> cards = expected /\ forall e, out <> Crashed e).

(** C10.  When the observer's lane is in the decoded geometry without a
    signal group, neither program stops at the lane check, and every frame
    the loop processes is presented red, without seconds remaining: no
    observation matches an absent signal group.  Each block that decodes to
    at least one observation yields its card, in order: always up to the
    point where the program is stopped by an exception, and for the whole
    session when it runs to its end, as it does when every block decodes
    and [time.sleep] accepts the pacing (the nominal rate without
    [--sync-time]; [max(0.05, rate)] in the offline program). *)
Theorem C10_unmapped_lane_all_red (a : args) (root : element)
    (maps spats : list (option element)) :
  (parse_map root).2 !! lane a = Some None ->
  (forall cards out,
     main a (Some root :: maps) spats = (cards, out) ->
     presents_all cards out
       (map (unmapped_card (parse_map root).1.1 (parse_map root).1.2
               (lane a) (negb (no_clear a)))
            (drawn_ids parse_spat spats))
       (sync_time a = false /\ sleep (rate a) = Ok tt /\
        Forall (decodes parse_spat) spats)) /\
  (forall cards out,
     Offline.main (lane a) (rate a) (Some root :: maps) spats = (cards, out) ->
     presents_all cards out
       (map (unmapped_card (parse_map root).1.1 (parse_map root).1.2 (lane a) true)
            (drawn_ids Offline.parse_spat spats))
       (sleep (max2 f0_05 (rate a)) = Ok tt /\
        Forall (decodes Offline.parse_spat) spats)).
Proof.
  intros L. unfold presents_all. split; intros cards out.
  - unfold main. destruct (parse_map root) as [[idm name] lanes]. cbn [fst snd] in *.
    rewrite L. destruct spats as [|b spats].
    + intros [= <- <-].
      repeat split; try discriminate; [constructor|exists 0%nat; reflexivity].
    + pose proof (run_unmapped a idm name initial_state (b :: spats) eq_refl) as R.
      destruct (run_unmapped_cards a idm name initial_state (b :: spats) eq_refl) as [Hn Hall].
      pose proof (run_unmapped_completes a idm name initial_state (b :: spats) eq_refl) as Hc.
      destruct (run a idm name None initial_state (b :: spats)) as [cs r].
      cbn [fst snd] in *. intros [= <- <-].
      split; [destruct r; discriminate|]. split; [destruct r; discriminate|].
      split; [exact R|]. split; [exact Hn|]. split.
      * intros b0 Hb. destruct r as [s'|e]; [|discriminate Hb]. exact (Hall s' eq_refl).
      * intros (N1 & N2 & N3). destruct (Hc N1 N2 N3) as [s' ->].
        split; [exact (Hall s' eq_refl)|discriminate].
  - unfold Offline.main. destruct (parse_map root) as [[idm name] lanes]. cbn [fst snd] in *.
    rewrite L. destruct spats as [|b spats].
    + intros [= <- <-].
      repeat split; try discriminate; [constructor|exists 0%nat; reflexivity].
    + pose proof (offline_run_unmapped (lane a) (rate a) idm name 0%nat (b :: spats)) as R.
      destruct (offline_run_unmapped_cards (lane a) (rate a) idm name 0%nat (b :: spats))
        as [Hn Hall].
      pose proof (offline_run_unmapped_completes (lane a) (rate a) idm name 0%nat (b :: spats))
        as Hc.
      destruct (Offline.run (lane a) (rate a) idm name None 0%nat (b :: spats)) as [cs r].
      cbn [fst snd] in *. intros [= <- <-].
      split; [destruct r; discriminate|]. split; [destruct r; discriminate|].
      split; [exact R|]. split; [exact Hn|]. split.
      * intros b0 Hb. destruct r as [k|e]; [|discriminate Hb]. exact (Hall k eq_refl).
      * intros (N1 & N2). destruct (Hc N1 N2) as [k ->].
        split; [exact (Hall k eq_refl)|discriminate].
Qed.

Lemma C10_unmapped_lane_all_red_witness :
  (main (Args 9 f0_1 false false) [Some map_9_unmapped] other_group_session
   = ([unmapped_card (Some "42") (Some "Main St") 9 true (Some "42")], Completed false)) /\
  (Offline.main 9 f0_1 [Some map_9_unmapped] other_group_session
   = ([unmapped_card (Some "42") (Some "Main St") 9 true (Some "42")], Completed false)).
Proof.
  destruct (C10_unmapped_lane_all_red (Args 9 f0_1 false false) map_9_unmapped []
              other_group_session) as [M O]; [vm_compute; reflexivity|].
  split.
  - destruct (M _ _ (surjective_pairing _)) as (_ & _ & _ & _ & C & _).
    rewrite (surjective_pairing (main _ _ _)).
    rewrite (C false) by (vm_compute; reflexivity). vm_compute. reflexivity.
  - destruct (O _ _ (surjective_pairing
                       (Offline.main 9 f0_1 [Some map_9_unmapped] other_group_session)))
      as (_ & _ & _ & _ & C & _).
    rewrite (surjective_pairing (Offline.main _ _ _ _)).
    rewrite (C false) by (vm_compute; reflexivity). vm_compute. reflexivity.
Defined.
(** ** Agreement with the kernel's primitive floats *)

(** The arithmetic of the C1 counterexample, replayed on the kernel's
    hardware binary64 numbers.  On [60 <= x < 120] the C function [fmod x 60]
    is the exact difference [x - 60]. *)
Module Hardware.

Definition hw (z : Z) : PrimFloat.float := PrimFloat.of_uint63 (Uint63.of_Z z).

Definition hw_end : PrimFloat.float :=
  PrimFloat.sub (PrimFloat.div (hw 603) (hw 10)) (hw 60).

Definition hw_now : PrimFloat.float := PrimFloat.div (hw 300) (hw 1000).

Example hw_end_reading : end_reading 603 = Ok (FloatOps.Prim2SF hw_end).
Proof. vm_compute. reflexivity. Qed.

Example hw_now_reading : now_reading 300 = Ok (FloatOps.Prim2SF hw_now).
Proof. vm_compute. reflexivity. Qed.

Example hw_difference_negative :
  PrimFloat.ltb (PrimFloat.sub hw_end hw_now) (hw 0) = true /\
  FloatOps.Prim2SF (PrimFloat.sub hw_end hw_now) = sub (FloatOps.Prim2SF hw_end) (FloatOps.Prim2SF hw_now).
Proof. split; vm_compute; reflexivity. Qed.

Example hw_sum_is_sixty :
  FloatOps.Prim2SF (PrimFloat.add (PrimFloat.sub hw_end hw_now) (hw 60)) = f60.
Proof. vm_compute. reflexivity. Qed.

End Hardware.

(* ===================================================================== *)
(** * Part IV.  Further properties                                        *)
(* ===================================================================== *)

(** ** The resolver on counters of either sign *)

(** A zero or a finite float in canonical form, of either sign. *)
Definition valid_finite (x : float) : Prop :=
  match x with
  | S754_zero _ => True
  | S754_finite _ m e => bounded prec emax m e = true
  | _ => False
  end.

Lemma of_int_ok_signed (z : Z) :
  - max_float_int <= z <= max_float_int -> exists x, of_int z = Ok x /\ valid_finite x.
Proof.
  intros Hz. destruct (Z_lt_le_dec z 0) as [Hneg|Hpos].
  - unfold of_int, round_int.
    pose proof (normalize_neg_finite (- z) 0 false 9007199254740991 971 ltac:(lia)
                  ltac:(reflexivity) ltac:(lia)) as N.
    replace (- - z) with z in N by lia.
    assert (Hb : - z <= 9007199254740991 * 2 ^ (971 - 0)) by (unfold max_float_int in Hz; lia).
    specialize (N Hb).
    destruct (binary_normalize prec emax z 0 false) as [s|s| |s m e]; try contradiction.
    + eexists; split; [reflexivity|exact I].
    + eexists; split; [reflexivity|]. simpl. tauto.
  - destruct (of_int_ok z ltac:(lia)) as (x & E & V). exists x. split; [exact E|].
    destruct x; simpl in *; tauto.
Qed.

Lemma truediv_ge_one_signed (x c : float) :
  valid_finite x -> ge_one c -> exists y, truediv x c = Ok y /\ finite_or_zero y.
Proof.
  intros Hx Hc. destruct c as [| | |[] my ey]; simpl in Hc; try tauto.
  destruct Hc as [Hey Hmy]. unfold truediv. simpl is_zero.
  destruct x as [s|s| |s mx ex]; simpl in Hx; try tauto.
  - eexists; split; [reflexivity|exact I].
  - pose proof (SFdiv_ge_one prec emax prec_gt_0 prec_lt_emax s false mx my ex ey Hx Hey Hmy) as D.
    eexists; split; [reflexivity|].
    destruct (SFdiv prec emax (S754_finite s mx ex) (S754_finite false my ey)); simpl; tauto.
Qed.

Lemma reading_ok_signed (z : Z) (c : float) :
  - max_float_int <= z <= max_float_int -> ge_one c ->
  exists v, (let* a := int_truediv z c in float_rem a f60) = Ok v /\ upto m60 e60 v.
Proof.
  intros Hz Hc. unfold int_truediv, rbind.
  destruct (of_int_ok_signed z Hz) as (x & -> & Vx).
  destruct (truediv_ge_one_signed x c Vx Hc) as (y & -> & Fy).
  apply float_rem_60. exact Fy.
Qed.

(** X1.  For counters of either sign that fit a float, the resolver raises
    nothing and returns the primary-hypothesis value, which satisfies
    [0.0 <= remaining <= 60.0]; the fallback hypotheses are not consulted for
    negative counters either. *)
Theorem X1_resolver_accepts_primary_for_any_sign (now_val met_val : Z) :
  - max_float_int <= now_val <= max_float_int ->
  - max_float_int <= met_val <= max_float_int ->
  exists remaining,
    primary now_val met_val = Ok remaining /\
    in_0_60 remaining = true /\
    detect_unit_and_delta (Some now_val) (Some met_val) = Ok (Some remaining).
Proof.
  intros Hn Hm.
  destruct (reading_ok_signed now_val f1000 Hn ge_one_1000) as (now_sec & En & Un).
  destruct (reading_ok_signed met_val f10 Hm ge_one_10) as (end_sec & Ee & Ue).
  pose proof (sub_finite end_sec now_sec m60 e60 bounded_60 Ue Un) as Fd.
  destruct (float_rem_60 _ Fd) as (r & Er & Ur).
  assert (P : primary now_val met_val = Ok r).
  { unfold primary. unfold rbind in *.
    destruct (int_truediv now_val f1000) as [a|]; [|discriminate]. rewrite En.
    destruct (int_truediv met_val f10) as [b|]; [|discriminate]. rewrite Ee. exact Er. }
  exists r. pose proof (upto_in_0_60 r Ur) as G.
  split; [exact P|]. split; [exact G|]. apply detect_primary; assumption.
Qed.

Lemma X1_resolver_accepts_primary_for_any_sign_witness :
  exists remaining,
    primary (-58000) (-50) = Ok remaining /\
    in_0_60 remaining = true /\
    detect_unit_and_delta (Some (-58000)) (Some (-50)) = Ok (Some remaining).
Proof.
  apply X1_resolver_accepts_primary_for_any_sign;
    (split; vm_compute; discriminate).
Defined.

(** ** The fallback hypotheses *)

(** The candidates of the fallback loop. *)
Definition fallback_candidates (now_val met_val : Z) : res (list float) :=
  mapM (fun '(modulo, scale) => int_truediv ((met_val - now_val) mod modulo) scale)
       [(600, f10); (6000, f100); (60000, f1000); (65536, f1000)].

Lemma tenths_in_range_table :
  forallb (fun n => match int_truediv (Z.of_nat n) f10 with
                    | Ok y => in_0_60 y
                    | Raise _ => false
                    end) (seq 0 600) = true.
Proof. vm_compute. reflexivity. Qed.

Lemma tenths_in_range (z : Z) :
  0 <= z < 600 -> exists y, int_truediv z f10 = Ok y /\ in_0_60 y = true.
Proof.
  intros Hz. pose proof tenths_in_range_table as T. rewrite forallb_forall in T.
  specialize (T (Z.to_nat z)). rewrite Z2Nat.id in T by lia.
  assert (Hin : In (Z.to_nat z) (seq 0 600)) by (apply in_seq; lia).
  specialize (T Hin). destruct (int_truediv z f10) as [y|]; [|discriminate].
  exists y. auto.
Qed.

Lemma min_fold_in (l : list float) (x : float) :
  In (fold_left (fun acc c => if ltb c acc then c else acc) l x) (x :: l).
Proof.
  revert x. induction l as [|c l IH]; intros x; simpl; [auto|].
  destruct (IH (if ltb c x then c else x)) as [H|H]; [|auto].
  destruct (ltb c x); rewrite <- H; auto.
Qed.

Lemma min_list_in (l : list float) (r : float) : min_list l = Ok r -> In r l.
Proof.
  destruct l as [|x l]; simpl; [discriminate|]. intros [= <-]. apply min_fold_in.
Qed.

(** X2.  For all integers, the fallback computation raises nothing and
    returns a value with [0.0 <= r <= 60.0]: the first candidate,
    [((met - now) % 600) / 10.0], always passes the [0 <= c <= 60.0] filter,
    so the result is the least of the candidates that pass it and the last
    branch, [min(candidates) % 60.0], is never taken. *)
Theorem X2_fallback_in_range (now_val met_val : Z) :
  exists candidates r,
    fallback_candidates now_val met_val = Ok candidates /\
    List.filter in_0_60 candidates <> [] /\
    min_list (List.filter in_0_60 candidates) = Ok r /\
    fallback now_val met_val = Ok r /\
    in_0_60 r = true.
Proof.
  set (d := met_val - now_val).
  assert (small : forall m, 0 < m <= 65536 -> 0 <= d mod m <= max_float_int).
  { intros m Hm. pose proof (Z.mod_pos_bound d m ltac:(lia)).
    split; [lia|]. apply Z.le_trans with 65536; [lia|]. vm_compute. discriminate. }
  destruct (tenths_in_range (d mod 600) (Z.mod_pos_bound d 600 ltac:(lia))) as (c1 & E1 & G1).
  destruct (int_truediv_ok (d mod 6000) f100 (small 6000 ltac:(lia)) ge_one_100) as (c2 & E2 & _).
  destruct (int_truediv_ok (d mod 60000) f1000 (small 60000 ltac:(lia)) ge_one_1000) as (c3 & E3 & _).
  destruct (int_truediv_ok (d mod 65536) f1000 (small 65536 ltac:(lia)) ge_one_1000) as (c4 & E4 & _).
  assert (C : fallback_candidates now_val met_val = Ok [c1; c2; c3; c4]).
  { unfold fallback_candidates. cbn [mapM]. fold d. rewrite E1, E2, E3, E4. reflexivity. }
  assert (F : exists rest, List.filter in_0_60 [c1; c2; c3; c4] = c1 :: rest).
  { cbn [List.filter]. rewrite G1. eauto. }
  destruct F as (rest & F).
  destruct (min_list (List.filter in_0_60 [c1; c2; c3; c4])) as [r|e] eqn:M;
    [|rewrite F in M; discriminate M].
  exists [c1; c2; c3; c4], r.
  split; [exact C|]. split; [rewrite F; discriminate|]. split; [exact M|]. split.
  - unfold fallback. change (mapM _ _) with (fallback_candidates now_val met_val).
    rewrite C. cbn [rbind]. rewrite F in *. exact M.
  - apply min_list_in in M. apply filter_In in M. tauto.
Qed.

(** ** The decrement branch *)

(** X3.  In the decrement branch (same [phase_end_raw], a stored simulated
    value between [0.0] and [60.0]), with a nominal interval that is not
    negative and a clock that did not run backwards, the new simulated value
    is present, not negative, and not above the stored one. *)
Theorem X3_decrement_never_increases (rate : float) (s : loop_state)
    (now met : option Z) (sim : float) (r : option float) :
  simulated_rem s = Some sim -> in_range sim -> met = last_min_end s ->
  leb f0 rate = true -> clock_le (last_ts s) now ->
  countdown rate s now met = Ok r ->
  exists v, r = Some v /\ leb f0 v = true /\ leb v sim = true.
Proof.
  intros Es Hs Em Hr Hc. unfold countdown, rbind.
  destruct (detect_unit_and_delta now met) as [rem|]; [|discriminate].
  rewrite Es. rewrite (proj2 (opt_eqb_eq met (last_min_end s)) Em).
  destruct (last_ts s) as [ts|] eqn:T, now as [n|] eqn:N;
    try (intros [= <-]; eexists; split; [reflexivity|];
         split; [apply max2_f0_nonneg|apply (decrement_upto sim rate Hs Hr)]).
  destruct (int_truediv (n - ts) f10) as [dt|] eqn:E; [|discriminate].
  intros [= <-]. eexists; split; [reflexivity|]. split; [apply max2_f0_nonneg|].
  apply (decrement_upto sim dt Hs). apply nonneg_valid_leb.
  apply (int_truediv_nonneg (n - ts) f10 dt); [|exact ge_one_10|exact E].
  specialize (Hc ts n eq_refl eq_refl). lia.
Qed.

(** The literal [6.0]. *)
Definition f6 : float := Eval vm_compute in round_int 6.

Lemma X3_decrement_never_increases_witness :
  exists v, Some f6 = Some v /\ leb f0 v = true /\ leb v f7 = true.
Proof.
  apply (X3_decrement_never_increases f0_1 after_first (Some 58010) (Some 50) f7).
  - reflexivity.
  - split; reflexivity.
  - reflexivity.
  - reflexivity.
  - intros t n [= <-] [= <-]. lia.
  - vm_compute. reflexivity.
Defined.

(** ** Frames *)

(** The rest of the loop body after [draw_card]. *)
Lemma frame_drawn_next (a : args) (idm name : option string) (my_sg : option Z)
    (s : loop_state) (root : element) (id : option string) (now : option Z)
    (states : list observation) (c : card) (next : res loop_state) :
  parse_spat root = Ok (id, now, states) ->
  frame a idm name my_sg s (Some root) = Drawn c next ->
  exists ev sim lme,
    smooth (rate a) my_sg s now states = Ok (ev, sim, lme) /\
    c = Card name (PyStr.or_else idm id) (lane a) my_sg
             (dict_get EVENT2COLOR ev red) sim (negb (no_clear a)) /\
    next = (let* delay := frame_delay a (last_ts s) now in
            let* _ := sleep delay in
            Ok (LoopState lme sim now (S (shown s)))).
Proof.
  intros P. unfold frame. rewrite P.
  destruct states as [|st0 sts]; [discriminate|].
  destruct (smooth (rate a) my_sg s now (st0 :: sts)) as [[[ev sim] lme]|]; [|discriminate].
  intros [= <- <-]. exists ev, sim, lme. auto.
Qed.

Lemma frame_drawn_parsed (a : args) (idm name : option string) (my_sg : option Z)
    (s : loop_state) (blob : option element) (c : card) (next : res loop_state) :
  frame a idm name my_sg s blob = Drawn c next ->
  exists root id now states, blob = Some root /\ parse_spat root = Ok (id, now, states).
Proof.
  destruct blob as [root|]; [|discriminate]. unfold frame.
  destruct (parse_spat root) as [[[id now] states]|e] eqn:P; [|discriminate].
  intros _. eauto 6.
Qed.

(** X4.  A processed frame without an observation for the observer's signal
    group is drawn red with the stored simulated value, and leaves the
    stored simulated value and [last_min_end] as they were; only [last_ts]
    and [shown] move. *)
Theorem X4_frame_without_match_keeps_countdown (a : args) (idm name : option string)
    (my_sg : option Z) (s : loop_state) (root : element) (id : option string)
    (now : option Z) (states : list observation) :
  parse_spat root = Ok (id, now, states) -> states <> [] ->
  first_match my_sg states = None ->
  exists next,
    frame a idm name my_sg s (Some root)
      = Drawn (Card name (PyStr.or_else idm id) (lane a) my_sg red
                    (simulated_rem s) (negb (no_clear a))) next /\
    forall s', next = Ok s' ->
      s' = LoopState (last_min_end s) (simulated_rem s) now (S (shown s)).
Proof.
  intros P Hne Fm. unfold frame. rewrite P.
  destruct states as [|st0 sts]; [contradiction|].
  unfold smooth. rewrite Fm. eexists. split; [reflexivity|].
  intros s'. unfold rbind.
  destruct (frame_delay a (last_ts s) now) as [delay|]; [|discriminate].
  destruct (sleep delay); [|discriminate]. congruence.
Qed.

Lemma X4_frame_without_match_keeps_countdown_witness :
  exists next,
    frame default_args None None (Some 2) after_first
          (Some (spat "58100" [movement "3" "dark" "70"]))
      = Drawn (Card None (PyStr.or_else None (Some "42")) 5 (Some 2) red (Some f7) true) next /\
    forall s', next = Ok s' -> s' = LoopState (Some 50) (Some f7) (Some 58100) 2.
Proof.
  apply (X4_frame_without_match_keeps_countdown default_args None None (Some 2) after_first
           (spat "58100" [movement "3" "dark" "70"]) (Some "42") (Some 58100)
           [Observation 3 (Some "dark") (Some 70)]);
    [vm_compute; reflexivity|discriminate|reflexivity].
Defined.

(** ** Pacing *)

Lemma of_int_raises (z : Z) (e : exn) : of_int z = Raise e -> e = OverflowError.
Proof.
  unfold of_int. destruct (round_int z); try discriminate. intros [= <-]. reflexivity.
Qed.

Lemma leb_0_01_nonneg (d : float) : leb f0_01 d = true -> leb f0 d = true.
Proof. destruct d as [[]|[]| |[] m e]; try discriminate; reflexivity. Qed.

(** [float(z)] is a zero or a finite float in canonical form. *)
Lemma of_int_valid (z : Z) (x : float) : of_int z = Ok x -> valid_finite x.
Proof.
  unfold of_int, round_int. destruct (Z.lt_trichotomy z 0) as [Hn|[->|Hp]].
  - pose proof (normalize_ok true (- z) 0 false ltac:(lia)) as N. cbn [cond_Zopp] in N.
    replace (- - z) with z in N by lia.
    destruct (binary_normalize prec emax z 0 false) as [s|s| |s m e]; simpl in N;
      intros [= <-]; simpl; tauto.
  - intros [= <-]. exact I.
  - pose proof (normalize_ok false z 0 false Hp) as N. cbn [cond_Zopp] in N.
    destruct (binary_normalize prec emax z 0 false) as [s|s| |s m e]; simpl in N;
      intros [= <-]; simpl; tauto.
Qed.

Lemma int_truediv_valid (z : Z) (c y : float) :
  ge_one c -> int_truediv z c = Ok y -> valid_binary prec emax y = true.
Proof.
  intros Hc. unfold int_truediv, rbind.
  destruct (of_int z) as [x|] eqn:E; [|discriminate]. apply of_int_valid in E.
  destruct c as [| | |[] my ey]; simpl in Hc; try tauto. destruct Hc as [Hey Hmy].
  unfold truediv. simpl is_zero. intros [= <-].
  destruct x as [s|s| |s mx ex]; simpl in E; try contradiction; [reflexivity|].
  pose proof (SFdiv_ge_one prec emax prec_gt_0 prec_lt_emax s false mx my ex ey E Hey Hmy) as D.
  destruct (SFdiv prec emax (S754_finite s mx ex) (S754_finite false my ey));
    simpl in *; tauto.
Qed.

(** The length [2^33] seconds (some 272 years); its nanoseconds fit the timer. *)
Definition f2_33 : float := Eval vm_compute in round_int (2 ^ 33).

Definition m2_33 : positive := 4503599627370496.
Definition m1e9 : positive := 8388608000000000.

(** A non-negative well-formed float that is at most [mb * 2^eb]. *)
Lemma valid_leb_upto (x : float) (mb : positive) (eb : Z) :
  valid_binary prec emax x = true -> bounded prec emax mb eb = true ->
  leb f0 x = true -> leb x (S754_finite false mb eb) = true ->
  x = S754_zero true \/ upto mb eb x.
Proof.
  intros V B L0 L. destruct x as [[]|[]| |[] m e]; try discriminate; auto.
  - right. reflexivity.
  - right. simpl in V.
    destruct (SFleb_bound prec emax prec_gt_0 m e mb eb V B L) as [He Hm].
    simpl. auto.
Qed.

(** The nanoseconds of a length of at most [2^33] seconds. *)
Lemma mul_1e9_upto (m : positive) (e : Z) :
  upto m2_33 (-19) (S754_finite false m e) ->
  match mul (S754_finite false m e) f1e9 with
  | S754_zero s => s = false
  | S754_finite s _ e' => s = false /\ e' <= 10
  | _ => False
  end.
Proof.
  intros (_ & B & He & Hm). unfold mul, f1e9, SFmul. cbn [xorb].
  change (Zpos (m * 8388608000000000)) with (Zpos m * Zpos m1e9).
  assert (D : 53 <= Zdigits2 (Zpos m * Zpos m1e9)).
  { change 53 with (Zdigits2 (Zpos m1e9)). apply dig_le. nia. }
  assert (Hpre : e + -23 <= fexp prec emax (Zdigits2 (Zpos m * Zpos m1e9) + (e + -23))).
  { unfold fexp, SpecFloat.emin, prec. lia. }
  pose proof (binary_round_aux_ok prec emax prec_gt_0 false
                (Zpos m * Zpos m1e9) (e + -23) loc_Exact ltac:(lia) Hpre) as OK.
  assert (Hbel : below loc_Exact (Zpos m * Zpos m1e9) (e + -23) m1e9 10).
  { split; [lia|].
    assert (P : 2 ^ (10 - (e + -23)) = 2 ^ (-19 - e) * 2 ^ 52).
    { rewrite <- pow2_split by lia. f_equal. lia. }
    rewrite P. change (Zpos m2_33) with (2 ^ 52) in Hm.
    pose proof (pow2_pos (-19 - e) ltac:(lia)). nia. }
  assert (Bb : bounded prec emax m1e9 10 = true) by reflexivity.
  destruct (binary_round_aux prec emax false (Zpos m * Zpos m1e9) (e + -23) loc_Exact)
    as [s|s| |s m' e']; simpl in OK.
  - exact OK.
  - destruct OK as [_ H]. exact (H m1e9 10 Bb Hbel).
  - exact OK.
  - destruct OK as (-> & _ & H). split; [reflexivity|]. apply (H m1e9 10 Bb Hbel).
Qed.

Lemma sleep_upto (x : float) : upto m2_33 (-19) x -> sleep x = Ok tt.
Proof.
  intros U. destruct x as [s|s| |s m e]; simpl in U; try contradiction.
  - subst s. reflexivity.
  - destruct U as (-> & U). pose proof (mul_1e9_upto m e (conj eq_refl U)) as M.
    unfold sleep. cbv zeta.
    destruct (mul (S754_finite false m e) f1e9) as [s|s| |s m' e']; try contradiction.
    + subst s. reflexivity.
    + destruct M as [-> He'].
      assert (L : ltb (S754_finite false m' e') timer_sup = true).
      { unfold ltb, SFltb, timer_sup, SFcompare.
        destruct (Z.compare_spec e' 11); try reflexivity; lia. }
      rewrite L. reflexivity.
Qed.

(** [time.sleep] takes every length from [0.0] to [2^33] seconds. *)
Lemma sleep_accepts (x : float) :
  valid_binary prec emax x = true -> leb f0 x = true -> leb x f2_33 = true ->
  sleep x = Ok tt.
Proof.
  intros V L0 L.
  destruct (valid_leb_upto x m2_33 (-19) V ltac:(reflexivity) L0 L) as [->|U].
  - reflexivity.
  - apply sleep_upto. exact U.
Qed.

(** A length below [0.0], and a NaN, are refused. *)
Lemma sleep_rejects (x : float) :
  leb f0 x = false ->
  exists e, sleep x = Raise e /\ (e = ValueError \/ e = OverflowError).
Proof.
  destruct x as [[]|[]| |[] m e]; try discriminate; intros _.
  - exists OverflowError. auto.
  - exists ValueError. auto.
  - unfold sleep. cbv zeta.
    destruct (leb timer_min (mul (S754_finite true m e) f1e9)
              && ltb (mul (S754_finite true m e) f1e9) timer_sup).
    + rewrite ltb_finite_0. eauto.
    + eauto.
Qed.

(** X5.  With a [--rate] from [0.0] to [2^33] seconds, [time.sleep] takes
    every delay the frame-timing code computes, with or without
    [--sync-time]: nothing is raised by it; and the frame-timing code itself
    raises nothing but [OverflowError] (a clock difference too large for a
    float). *)
Theorem X5_sleep_accepts_computed_delay (a : args) (ts now : option Z) :
  valid_binary prec emax (rate a) = true ->
  leb f0 (rate a) = true -> leb (rate a) f2_33 = true ->
  (forall delay, frame_delay a ts now = Ok delay -> sleep delay = Ok tt) /\
  (forall e, frame_delay a ts now = Raise e -> e = OverflowError).
Proof.
  intros V L0 L. pose proof (sleep_accepts _ V L0 L) as Hr. unfold frame_delay.
  destruct (sync_time a), ts as [t|], now as [n|];
    try (split; [intros delay [= <-]; exact Hr|discriminate]).
  destruct (int_truediv (n - t) f100) as [diff|e0] eqn:E; cbn [rbind].
  - split; [|discriminate]. intros delay [= <-].
    destruct (leb f0_01 diff && leb diff f5) eqn:C; [|exact Hr].
    apply andb_true_iff in C as [C1 C2].
    pose proof (int_truediv_valid _ _ _ ge_one_100 E) as Vd.
    destruct (valid_leb_upto diff 5629499534213120 (-50) Vd ltac:(reflexivity)
                (leb_0_01_nonneg _ C1) C2) as [->|U]; [discriminate C1|].
    apply sleep_upto.
    apply (upto_trans 5629499534213120 (-50)); [lia|vm_compute; discriminate|exact U].
  - split; [discriminate|]. intros e [= <-].
    unfold int_truediv, rbind in E. destruct (of_int (n - t)) as [x|e1] eqn:E1.
    + discriminate E.
    + injection E as <-. exact (of_int_raises _ _ E1).
Qed.

Lemma X5_sleep_accepts_computed_delay_witness :
  (forall delay, frame_delay (Args 5 f0_1 true false) (Some 58000) (Some 58100) = Ok delay ->
                 sleep delay = Ok tt) /\
  (forall e, frame_delay (Args 5 f0_1 true false) (Some 58000) (Some 58100) = Raise e ->
             e = OverflowError).
Proof.
  apply (X5_sleep_accepts_computed_delay (Args 5 f0_1 true false)); reflexivity.
Defined.

Lemma run_rejected_rate (a : args) (idm name : option string) (my_sg : option Z)
    (s : loop_state) (blobs : list (option element)) :
  leb f0 (rate a) = false -> last_ts s = None ->
  run a idm name my_sg s blobs = ([], Ok s) \/
  (exists e, run a idm name my_sg s blobs = ([], Raise e)) \/
  (exists c e, run a idm name my_sg s blobs = ([c], Raise e) /\
               sleep (rate a) = Raise e /\ (e = ValueError \/ e = OverflowError)).
Proof.
  intros Hr Hts. induction blobs as [|blob rest IH]; cbn [run]; [auto|].
  destruct (frame a idm name my_sg s blob) as [|e|c next] eqn:F.
  - exact IH.
  - right; left. eauto.
  - right; right. exists c.
    destruct (frame_drawn_parsed _ _ _ _ _ _ _ _ F) as (root & id & now & states & -> & P).
    destruct (frame_drawn_next _ _ _ _ _ _ _ _ _ _ _ P F) as (ev & sim & lme & _ & _ & ->).
    rewrite Hts.
    assert (D : frame_delay a None now = Ok (rate a)).
    { unfold frame_delay. destruct (sync_time a); reflexivity. }
    rewrite D. cbn [rbind].
    destruct (sleep_rejects _ Hr) as (e & -> & He). exists e. auto.
Qed.

(** X6.  With a [--rate] that is negative or a NaN, a session draws at most
    one card: the first frame that is drawn is followed by the exception
    [time.sleep] raises for that rate, which ends the program; it is
    [ValueError], or [OverflowError] when the rate is beyond the timer. *)
Theorem X6_rejected_rate_stops_at_first_card (a : args)
    (maps spats : list (option element)) (cards : list card) (out : outcome) :
  leb f0 (rate a) = false -> main a maps spats = (cards, out) ->
  cards = [] \/
  (exists c e, cards = [c] /\ out = Crashed e /\ sleep (rate a) = Raise e /\
               (e = ValueError \/ e = OverflowError)).
Proof.
  intros Hr. unfold main.
  destruct maps as [|[root|] maps]; try (intros [= <- <-]; auto).
  destruct (parse_map root) as [[idm name] lanes].
  destruct (lanes !! lane a) as [my_sg|]; [|intros [= <- <-]; auto].
  destruct spats as [|b spats]; [intros [= <- <-]; auto|].
  destruct (run_rejected_rate a idm name my_sg initial_state (b :: spats) Hr eq_refl)
    as [->|[[e ->]| (c & e & -> & Hs & He)]]; intros [= <- <-]; eauto 8.
Qed.

(** The literals [-1.0] and [-1e10]. *)
Definition f_minus_1 : float := Eval vm_compute in round_int (-1).
Definition f_minus_1e10 : float := Eval vm_compute in round_int (-10000000000).

Lemma X6_rejected_rate_stops_at_first_card_witness :
  (exists c, main (Args 5 f_minus_1 false false) [Some map_5_2] steady_session
             = ([c], Crashed ValueError)) /\
  (exists c, main (Args 5 f_minus_1e10 false false) [Some map_5_2] steady_session
             = ([c], Crashed OverflowError)).
Proof.
  split.
  - destruct (X6_rejected_rate_stops_at_first_card (Args 5 f_minus_1 false false)
                [Some map_5_2] steady_session _ _ eq_refl (surjective_pairing _))
      as [E|(c & e & E & O & S & _)].
    + vm_compute in E. discriminate E.
    + exists c. rewrite (surjective_pairing (main _ _ _)), E, O.
      vm_compute in S. injection S as <-. reflexivity.
  - destruct (X6_rejected_rate_stops_at_first_card (Args 5 f_minus_1e10 false false)
                [Some map_5_2] steady_session _ _ eq_refl (surjective_pairing _))
      as [E|(c & e & E & O & S & _)].
    + vm_compute in E. discriminate E.
    + exists c. rewrite (surjective_pairing (main _ _ _)), E, O.
      vm_compute in S. injection S as <-. reflexivity.
Defined.

(** ** The counter [shown] and the terminal report *)

Lemma run_shown (a : args) (idm name : option string) (my_sg : option Z)
    (blobs : list (option element)) (s s' : loop_state) (cards : list card) :
  run a idm name my_sg s blobs = (cards, Ok s') ->
  shown s' = (shown s + List.length cards)%nat.
Proof.
  revert s cards. induction blobs as [|blob rest IH]; intros s cards; cbn [run].
  - intros [= <- <-]. simpl. lia.
  - destruct (frame a idm name my_sg s blob) as [|e|c [s1|e]] eqn:F; try discriminate.
    + apply IH.
    + destruct (run a idm name my_sg s1 rest) as [cs r] eqn:R.
      intros [= <- ->]. rewrite (IH _ _ R).
      destruct (frame_drawn_parsed _ _ _ _ _ _ _ _ F) as (root & id & now & states & -> & P).
      destruct (frame_drawn _ _ _ _ _ _ _ _ _ _ _ P F) as (ev & sim & lme & _ & _ & _ & Hn).
      rewrite (Hn s1 eq_refl). simpl. lia.
Qed.

Lemma offline_run_shown (lane : Z) (rate : float) (idm name : option string)
    (my_sg : option Z) (blobs : list (option element)) (n n' : nat) (cards : list card) :
  Offline.run lane rate idm name my_sg n blobs = (cards, Ok n') ->
  n' = (n + List.length cards)%nat.
Proof.
  revert n cards. induction blobs as [|blob rest IH]; intros n cards; cbn [Offline.run].
  - intros [= <- <-]. simpl. lia.
  - destruct (Offline.frame lane idm name my_sg blob) as [[c|]|e]; try discriminate.
    + destruct (sleep (max2 f0_05 rate)); [|discriminate].
      destruct (Offline.run lane rate idm name my_sg (S n) rest) as [cs r] eqn:R.
      intros [= <- ->]. rewrite (IH _ _ R). simpl. lia.
    + apply IH.
Qed.

(** X7.  In both programs, when the frame loop completes, the report "none
    referenced your lane's signal group" is printed exactly when no card was
    drawn at all, whether or not any drawn frame held an observation for
    the observer's signal group. *)
Theorem X7_report_iff_no_card (a : args) (maps spats : list (option element))
    (cards : list card) (b : bool) :
  (main a maps spats = (cards, Completed b) -> (b = true <-> cards = [])) /\
  (Offline.main (lane a) (rate a) maps spats = (cards, Completed b) ->
   (b = true <-> cards = [])).
Proof.
  split.
  - unfold main. destruct maps as [|[root|] maps]; try discriminate.
    destruct (parse_map root) as [[idm name] lanes].
    destruct (lanes !! lane a) as [my_sg|]; [|discriminate].
    destruct spats as [|b0 spats]; [discriminate|].
    destruct (run a idm name my_sg initial_state (b0 :: spats)) as [cs [s'|e]] eqn:R;
      [|discriminate].
    intros [= <- <-]. pose proof (run_shown _ _ _ _ _ _ _ _ R) as Hs. cbn [shown initial_state] in Hs.
    rewrite Hs, Nat.eqb_eq. destruct cs; simpl; split; intros; (congruence || lia).
  - unfold Offline.main. destruct maps as [|[root|] maps]; try discriminate.
    destruct (parse_map root) as [[idm name] lanes].
    destruct (lanes !! lane a) as [my_sg|]; [|discriminate].
    destruct spats as [|b0 spats]; [discriminate|].
    destruct (Offline.run (lane a) (rate a) idm name my_sg 0%nat (b0 :: spats))
      as [cs [n'|e]] eqn:R; [|discriminate].
    intros [= <- <-]. pose proof (offline_run_shown _ _ _ _ _ _ _ _ _ R) as Hs.
    rewrite Hs, Nat.eqb_eq. destruct cs; simpl; split; intros; (congruence || lia).
Qed.

Lemma X7_report_iff_no_card_witness :
  false = true <-> fst (main default_args [Some map_5_2] other_group_session) = [].
Proof.
  destruct (X7_report_iff_no_card default_args [Some map_5_2] other_group_session
              (fst (main default_args [Some map_5_2] other_group_session)) false) as [M _].
  apply M. vm_compute. reflexivity.
Defined.

(** ** The offline program *)

Lemma offline_run_in_range (lane : Z) (rate : float) (idm name : option string)
    (my_sg : option Z) (n : nat) (blobs : list (option element)) :
  Forall secs_in_range (fst (Offline.run lane rate idm name my_sg n blobs)).
Proof.
  revert n. induction blobs as [|blob rest IH]; intros n; cbn [Offline.run]; [constructor|].
  destruct (Offline.frame lane idm name my_sg blob) as [[c|]|e] eqn:F.
  - specialize (IH (S n)).
    assert (Hc : secs_in_range c); [|destruct (sleep (max2 f0_05 rate));
      [destruct (Offline.run lane rate idm name my_sg (S n) rest) as [cs r];
       constructor; [exact Hc|exact IH]|constructor; [exact Hc|constructor]]].
    destruct blob as [root|]; [|discriminate F]. unfold Offline.frame, rbind in F.
    destruct (Offline.parse_spat root) as [[[id now] states]|] eqn:P; [|discriminate F].
    apply parse_spat_with_counters in P as [Cn Cs].
    destruct states as [|st0 sts]; [discriminate F|].
    destruct (first_match my_sg (st0 :: sts)) as [st|] eqn:Fm.
    + destruct (detect_unit_and_delta now (minEndRaw st)) as [rem|] eqn:D; [|discriminate F].
      injection F as <-. intros v Hv. cbn [secs_remaining] in Hv. apply upto_in_range.
      apply first_match_some in Fm as [Hin _]. rewrite Forall_forall in Cs.
      exact (detect_counters _ _ _ Cn (Cs st Hin) D v Hv).
    + injection F as <-. intros v Hv. discriminate Hv.
  - apply IH.
  - constructor.
Qed.

(** X9.  In the offline program, which shows the resolver's estimate without
    smoothing, every seconds-remaining value shown in any session is a
    float between [0.0] and [60.0], both included. *)
Theorem X9_offline_seconds_in_range (lane : Z) (rate : float)
    (maps spats : list (option element)) :
  Forall secs_in_range (fst (Offline.main lane rate maps spats)).
Proof.
  unfold Offline.main. destruct maps as [|[root|] maps]; try constructor.
  destruct (parse_map root) as [[idm name] lanes].
  destruct (lanes !! lane) as [my_sg|]; [|constructor].
  destruct spats as [|b spats]; [constructor|].
  pose proof (offline_run_in_range lane rate idm name my_sg 0%nat (b :: spats)) as R.
  destruct (Offline.run lane rate idm name my_sg 0%nat (b :: spats)) as [cs r]. exact R.
Qed.

(** ** The lanes dictionary *)

(** The integer a lane element is recorded under, when it has one. *)
Definition lane_key (gl : element) : option Z :=
  match first gl [Child "laneID"] with
  | Some lid_txt => if PyStr.nonempty lid_txt then PyStr.int lid_txt else None
  | None => None
  end.

Definition has_key (lid : Z) (gl : element) : bool :=
  match lane_key gl with
  | Some k => k =? lid
  | None => false
  end.

Lemma add_lane_lookup (lanes : gmap Z (option Z)) (gl : element) (lid : Z) :
  add_lane lanes gl !! lid =
    if has_key lid gl then Some (lane_sg (connections_of gl)) else lanes !! lid.
Proof.
  unfold add_lane, has_key, lane_key.
  destruct (first gl [Child "laneID"]) as [t|]; [|reflexivity].
  destruct (PyStr.nonempty t); [|reflexivity].
  destruct (PyStr.int t) as [k|]; [|reflexivity].
  destruct (Z.eqb_spec k lid) as [->|Hne].
  - apply lookup_insert_eq.
  - apply lookup_insert_ne. exact Hne.
Qed.

Lemma find_snoc {A : Type} (f : A -> bool) (l : list A) (x : A) :
  List.find f (l ++ [x]) =
    match List.find f l with
    | Some y => Some y
    | None => if f x then Some x else None
    end.
Proof.
  induction l as [|a l IH]; simpl; [reflexivity|].
  destruct (f a); [reflexivity|exact IH].
Qed.

Lemma fold_add_lane_lookup (gls : list element) (lanes : gmap Z (option Z)) (lid : Z) :
  fold_left add_lane gls lanes !! lid =
    match List.find (has_key lid) (rev gls) with
    | Some gl => Some (lane_sg (connections_of gl))
    | None => lanes !! lid
    end.
Proof.
  revert lanes. induction gls as [|g gls IH]; intros lanes; cbn [fold_left rev]; [reflexivity|].
  rewrite IH, find_snoc, add_lane_lookup.
  destruct (List.find (has_key lid) (rev gls)); [reflexivity|].
  destruct (has_key lid g); reflexivity.
Qed.

(** X10.  The lanes of a decoded geometry: a lane id is a key exactly when
    some [GenericLane] has a [laneID] text that reads as that integer, and
    its entry is the signal group of the last such lane in document order
    (a later duplicate overwrites an earlier one); without an
    [IntersectionGeometry] there are no lanes, no id and no name. *)
Theorem X10_lanes_last_duplicate_wins (root : element) (lid : Z) :
  match find root [Desc "intersections"; Child "IntersectionGeometry"] with
  | Some ig =>
      (parse_map root).2 !! lid =
        option_map (fun gl => lane_sg (connections_of gl))
          (List.find (has_key lid)
             (rev (findall ig [Child "laneSet"; Child "GenericLane"])))
  | None => parse_map root = (None, None, ∅)
  end.
Proof.
  unfold parse_map.
  destruct (find root [Desc "intersections"; Child "IntersectionGeometry"]) as [ig|];
    [|reflexivity].
  cbn [snd]. rewrite fold_add_lane_lookup.
  destruct (List.find _ _); [reflexivity|apply lookup_empty].
Qed.

(** X11.  The three reports that end [main] before the frame loop: "No
    MapData" exactly when there is no MapData block, "Lane not found" exactly
    when the lane is no key of the first block's lanes, "No SPaT" exactly
    when the lane is a key and there is no SPaT block; none of them draws a
    card. *)
Theorem X11_fatal_reports (a : args) (maps spats : list (option element))
    (cards : list card) (out : outcome) :
  main a maps spats = (cards, out) ->
  (out = NoMapData <-> maps = []) /\
  (out = LaneNotFound <->
     exists root rest, maps = Some root :: rest /\ (parse_map root).2 !! lane a = None) /\
  (out = NoSpat <->
     exists root rest, maps = Some root :: rest /\
                       (parse_map root).2 !! lane a <> None /\ spats = []) /\
  (out = NoMapData \/ out = LaneNotFound \/ out = NoSpat -> cards = []).
Proof.
  unfold main. destruct maps as [|[root|] maps].
  - intros [= <- <-]. repeat split; try discriminate; auto.
    + intros (? & ? & ? & _). discriminate.
    + intros (? & ? & ? & _). discriminate.
  - destruct (parse_map root) as [[idm name] lanes] eqn:PM.
    destruct (lanes !! lane a) as [my_sg|] eqn:L.
    + destruct spats as [|b spats].
      * intros [= <- <-]. repeat split; try discriminate; auto.
        -- intros (r & rest & [= <- <-] & H). rewrite PM in H. cbn [snd] in H. congruence.
        -- intros _. exists root, maps. rewrite PM. cbn [snd]. rewrite L. auto.
      * destruct (run a idm name my_sg initial_state (b :: spats)) as [cs r].
        intros [= <- <-]. repeat split; try (destruct r; discriminate).
        -- intros (r' & rest & [= <- <-] & H). rewrite PM in H. cbn [snd] in H. congruence.
        -- intros (? & ? & _ & _ & ?). discriminate.
        -- intros [H|[H|H]]; destruct r; discriminate H.
    + intros [= <- <-]. repeat split; try discriminate; auto.
      * intros _. exists root, maps. rewrite PM. auto.
      * intros (r' & rest & [= <- <-] & H & _). rewrite PM in H. cbn [snd] in H. congruence.
  - intros [= <- <-]. repeat split; try discriminate; auto.
    + intros (? & ? & ? & _). discriminate.
    + intros (? & ? & ? & _). discriminate.
Qed.

Lemma X11_fatal_reports_witness :
  (LaneNotFound = NoMapData <-> [Some map_5_2] = []) /\
  (LaneNotFound = LaneNotFound <->
     exists root rest, [Some map_5_2] = Some root :: rest /\ (parse_map root).2 !! 6 = None) /\
  (LaneNotFound = NoSpat <->
     exists root rest, [Some map_5_2] = Some root :: rest /\
                       (parse_map root).2 !! 6 <> None /\ steady_session = []) /\
  (LaneNotFound = NoMapData \/ LaneNotFound = LaneNotFound \/ LaneNotFound = NoSpat ->
   @nil card = []).
Proof.
  apply (X11_fatal_reports (Args 6 f0_1 false false) [Some map_5_2] steady_session).
  vm_compute. reflexivity.
Defined.

(** ** Observations *)

(** The signal group a [MovementState] is recorded under, when it has one. *)
Definition sg_key (ms : element) : option Z :=
  match first ms [Child "signalGroup"] with
  | Some sg_txt => if PyStr.nonempty sg_txt then PyStr.int sg_txt else None
  | None => None
  end.

Lemma movement_state_sg (ms : element) (os : list observation) :
  movement_state ms = Ok os -> map sg os = opt_to_list (sg_key ms).
Proof.
  unfold movement_state, sg_key.
  destruct (first ms [Child "signalGroup"]) as [t|]; [|intros [= <-]; reflexivity].
  destruct (PyStr.nonempty t); [|intros [= <-]; reflexivity].
  destruct (PyStr.int t) as [g|]; [|intros [= <-]; reflexivity].
  unfold rbind. destruct (choose_event _) as [[[ev m]|]|]; try discriminate;
    intros [= <-]; reflexivity.
Qed.

(** X12.  The Phase Decoder emits one observation for every
    [MovementState] whose [signalGroup] text reads as an integer, in
    document order and under that integer; the other [MovementState]
    elements are passed over. *)
Theorem X12_one_observation_per_signal_group (l : list element) (os : list observation) :
  movement_states l = Ok os ->
  map sg os = flat_map (fun ms => opt_to_list (sg_key ms)) l.
Proof.
  revert os. induction l as [|ms rest IH]; cbn [movement_states flat_map]; intros os.
  - intros [= <-]. reflexivity.
  - unfold rbind. destruct (movement_state ms) as [o|] eqn:M; [|discriminate].
    destruct (movement_states rest) as [os'|]; [|discriminate].
    intros [= <-]. rewrite map_app, (movement_state_sg _ _ M), (IH os' eq_refl). reflexivity.
Qed.

Lemma X12_one_observation_per_signal_group_witness :
  map sg [Observation 2 (Some "stop-And-Remain") (Some 50); Observation (-3) (Some "dark") (Some 70)]
  = flat_map (fun ms => opt_to_list (sg_key ms))
      [movement "2" "stop-And-Remain" "50"; movement "x" "dark" "60"; movement "-3" "dark" "70"].
Proof.
  apply X12_one_observation_per_signal_group. vm_compute. reflexivity.
Defined.

Lemma first_timed_none (events : list element) :
  first_timed events = Ok None -> Forall (fun e => read_min_end_any e = Ok None) events.
Proof.
  induction events as [|e rest IH]; cbn [first_timed]; [constructor|].
  unfold rbind. destruct (read_min_end_any e) as [[z|]|] eqn:R; try discriminate.
  intros H. constructor; [exact R|exact (IH H)].
Qed.

Lemma first_timed_some (events : list element) (ev : element) (m : option Z) :
  first_timed events = Ok (Some (ev, m)) ->
  exists pre post z, events = (pre ++ ev :: post)%list /\ m = Some z /\
    Forall (fun e => read_min_end_any e = Ok None) pre /\ read_min_end_any ev = Ok m.
Proof.
  induction events as [|e rest IH]; cbn [first_timed]; [discriminate|].
  unfold rbind. destruct (read_min_end_any e) as [[z|]|] eqn:R; try discriminate.
  - intros [= <- <-]. exists [], rest, z. repeat split; auto.
  - intros H. destruct (IH H) as (pre & post & z & -> & -> & Hpre & Hev).
    exists (e :: pre), post, z. repeat split; auto.
Qed.

(** X13.  The event that gives a [MovementState] its name and its
    [phase_end_raw]: the first event that carries an end time, with that end
    time; when no event carries one, the first event, without an end time;
    and nothing when there is no event. *)
Theorem X13_first_timed_event_is_chosen (events : list element)
    (chosen : option (element * option Z)) :
  choose_event events = Ok chosen ->
  match chosen with
  | None => events = []
  | Some (ev, Some z) =>
      exists pre post, events = (pre ++ ev :: post)%list /\
        Forall (fun e => read_min_end_any e = Ok None) pre /\
        read_min_end_any ev = Ok (Some z)
  | Some (ev, None) =>
      exists post, events = ev :: post /\
        Forall (fun e => read_min_end_any e = Ok None) events
  end.
Proof.
  unfold choose_event, rbind.
  destruct (first_timed events) as [[[ev m]|]|] eqn:F; try discriminate.
  - intros [= <-]. destruct (first_timed_some _ _ _ F) as (pre & post & z & -> & -> & Hp & He).
    exists pre, post. auto.
  - pose proof (first_timed_none _ F) as Hall.
    destruct events as [|ev0 rest]; [intros [= <-]; reflexivity|].
    inversion Hall as [|? ? H0 Hrest]; subst. rewrite H0. intros [= <-].
    exists rest. auto.
Qed.

Lemma X13_first_timed_event_is_chosen_witness :
  exists pre post,
    [node "MovementEvent" []; node "MovementEvent" [node "timing" [leaf "minEndTime" "50"]]]
      = (pre ++ node "MovementEvent" [node "timing" [leaf "minEndTime" "50"]] :: post)%list /\
    Forall (fun e => read_min_end_any e = Ok None) pre /\
    read_min_end_any (node "MovementEvent" [node "timing" [leaf "minEndTime" "50"]])
      = Ok (Some 50).
Proof.
  apply (X13_first_timed_event_is_chosen
           [node "MovementEvent" []; node "MovementEvent" [node "timing" [leaf "minEndTime" "50"]]]
           (Some (node "MovementEvent" [node "timing" [leaf "minEndTime" "50"]], Some 50))).
  vm_compute. reflexivity.
Defined.

(** ** The [now] counter *)

Lemma within_minute_60000 (v : Z) : within_minute v = (v <=? 60000).
Proof.
  unfold within_minute.
  destruct (Z.leb_spec v 60000), (Z.leb_spec v 6000), (Z.leb_spec v 600); simpl; lia || reflexivity.
Qed.

(** X14.  The [now] counter chosen among the time stamp found under the
    time-stamp paths and the [moy] value: the time stamp when it is at most
    60000, else the [moy] value when that is at most 60000, else the time
    stamp; the one that is present when only one is; the tests against
    6000 and 600 change nothing. *)
Theorem X14_now_counter_choice (paths : list (list step)) (spat : element)
    (ts moy : option Z) :
  num_at_any spat paths = Ok ts -> num_at_any spat [[Desc "moy"]] = Ok moy ->
  extract_now_value_with paths spat =
    Ok match ts, moy with
       | Some t, Some m => Some (if t <=? 60000 then t else if m <=? 60000 then m else t)
       | Some t, None => Some t
       | None, _ => moy
       end.
Proof.
  intros Ets Emoy. unfold extract_now_value_with. rewrite Ets, Emoy. cbn [rbind].
  destruct ts as [t|], moy as [m|]; cbn [opt_to_list app first_within_minute];
    rewrite ?within_minute_60000; try reflexivity.
  - destruct (t <=? 60000); [reflexivity|]. destruct (m <=? 60000); reflexivity.
  - destruct (t <=? 60000); reflexivity.
  - destruct (m <=? 60000); reflexivity.
Qed.

Lemma X14_now_counter_choice_witness :
  extract_now_value_with ts_paths
    (node "SPAT" [leaf "timeStamp" "70000"; leaf "moy" "1234"])
  = Ok (Some (if 70000 <=? 60000 then 70000 else if 1234 <=? 60000 then 1234 else 70000)).
Proof.
  apply (X14_now_counter_choice ts_paths
           (node "SPAT" [leaf "timeStamp" "70000"; leaf "moy" "1234"]) (Some 70000) (Some 1234));
    vm_compute; reflexivity.
Defined.

(** ** Decimal text *)

(** The value of a list of decimal digits. *)
Definition decimal_value (l : list ascii) : Z :=
  fold_left (fun acc c => 10 * acc + PyStr.digit_val c) l 0.

Lemma decimal_not_blank (c : ascii) :
  PyStr.is_decimal c = true -> PyStr.is_int_space c = false.
Proof.
  unfold PyStr.is_decimal, PyStr.is_int_space.
  set (n := PyStr.code c).
  rewrite andb_true_iff, !N.leb_le. intros [H1 H2].
  repeat match goal with
         | |- context [(?x <=? ?y)%N] => destruct (N.leb_spec x y)
         | |- context [(?x =? ?y)%N] => destruct (N.eqb_spec x y)
         end; simpl; try reflexivity; lia.
Qed.

Lemma lstrip_head (blank : ascii -> bool) (c : ascii) (r : list ascii) :
  blank c = false -> PyStr.lstrip blank (c :: r) = c :: r.
Proof. intros H. simpl. rewrite H. reflexivity. Qed.

Lemma strip_list_id (blank : ascii -> bool) (l : list ascii) :
  Forall (fun c => blank c = false) l -> PyStr.strip_list blank l = l.
Proof.
  intros H. unfold PyStr.strip_list.
  assert (L : forall k, Forall (fun c => blank c = false) k -> PyStr.lstrip blank k = k).
  { intros [|c r] Hk; [reflexivity|]. inversion Hk; subst. apply lstrip_head; assumption. }
  rewrite (L l H). rewrite L by (apply Forall_rev; exact H). apply rev_involutive.
Qed.

Lemma digits_decimal (l : list ascii) (acc : Z) :
  forallb PyStr.is_decimal l = true ->
  PyStr.digits l acc = Some (fold_left (fun acc c => 10 * acc + PyStr.digit_val c) l acc).
Proof.
  revert acc. induction l as [|c r IH]; intros acc; cbn [forallb PyStr.digits fold_left].
  - reflexivity.
  - rewrite andb_true_iff. intros [Hc Hr]. rewrite Hc. apply IH. exact Hr.
Qed.

Lemma filter_all {A : Type} (f : A -> bool) (l : list A) :
  forallb f l = true -> List.filter f l = l.
Proof.
  induction l as [|x l IH]; cbn [forallb List.filter]; [reflexivity|].
  rewrite andb_true_iff. intros [-> H]. rewrite (IH H). reflexivity.
Qed.

Lemma list_ascii_length (s : string) :
  List.length (list_ascii_of_string s) = String.length s.
Proof. induction s as [|c s IH]; simpl; [reflexivity|rewrite IH; reflexivity]. Qed.

(** [int] on a decimal numeral within the limit on digits. *)
Lemma int_decimal (d : string) :
  d <> EmptyString ->
  forallb PyStr.is_decimal (list_ascii_of_string d) = true ->
  (String.length d <= PyStr.max_str_digits)%nat ->
  PyStr.int d = Some (decimal_value (list_ascii_of_string d)).
Proof.
  intros Hne Hall Hlen. unfold PyStr.int. cbv zeta. rewrite strip_list_id.
  - rewrite (filter_all _ _ Hall), list_ascii_length.
    destruct (Nat.ltb_spec PyStr.max_str_digits (String.length d)) as [Hgt|_]; [lia|].
    unfold PyStr.literal.
    destruct (list_ascii_of_string d) as [|c r] eqn:E.
    + destruct d; [contradiction|discriminate E].
    + cbn [forallb] in Hall. apply andb_true_iff in Hall as [Hc Hr].
      destruct (Ascii.eqb_spec c "-") as [->|_]; [discriminate Hc|].
      destruct (Ascii.eqb_spec c "+") as [->|_]; [discriminate Hc|].
      unfold PyStr.unsigned. rewrite Hc. rewrite (digits_decimal r _ Hr).
      unfold decimal_value. cbn [fold_left]. rewrite Z.mul_0_r, Z.add_0_l. reflexivity.
  - rewrite forallb_forall in Hall. apply Forall_forall. intros c Hc.
    apply decimal_not_blank, Hall, Hc.
Qed.

(** X15.  A node whose own text, stripped, is a numeral of the decimal
    digits [0-9] (leading zeros allowed, at most 4300 digits) is read by
    [num_in_node_or_kids] as the value of those digits, which is not
    negative: nothing is raised, and its descendants are not looked at. *)
Theorem X15_decimal_node_text_is_read (n : element) (t : string) :
  text n = Some t ->
  PyStr.strip t <> EmptyString ->
  forallb PyStr.is_decimal (list_ascii_of_string (PyStr.strip t)) = true ->
  (String.length (PyStr.strip t) <= PyStr.max_str_digits)%nat ->
  num_in_node_or_kids (Some n)
    = Ok (Some (decimal_value (list_ascii_of_string (PyStr.strip t)))) /\
  0 <= decimal_value (list_ascii_of_string (PyStr.strip t)).
Proof.
  intros Ht Hne Hall Hlen.
  pose proof (int_decimal _ Hne Hall Hlen) as I.
  assert (Hd : PyStr.isdigit (PyStr.strip t) = true).
  { unfold PyStr.isdigit. destruct (list_ascii_of_string (PyStr.strip t)) as [|c r] eqn:E.
    - destruct (PyStr.strip t); [contradiction|discriminate E].
    - rewrite forallb_forall in *. intros x Hx. unfold PyStr.is_digit.
      rewrite (Hall x Hx). reflexivity. }
  assert (Hn : PyStr.nonempty t = true).
  { destruct t; [exfalso; apply Hne; reflexivity|reflexivity]. }
  split.
  - unfold num_in_node_or_kids, digit_text. rewrite Ht, Hn, Hd. cbn [andb].
    unfold int_or_raise. rewrite I. reflexivity.
  - exact (int_of_isdigit_nonneg _ _ Hd I).
Qed.

Lemma X15_decimal_node_text_is_read_witness :
  num_in_node_or_kids (Some (Element "minEndTime" (Some " 0070 ") [leaf "tenths" "5"]))
    = Ok (Some (decimal_value (list_ascii_of_string (PyStr.strip " 0070 ")))) /\
  0 <= decimal_value (list_ascii_of_string (PyStr.strip " 0070 ")).
Proof.
  apply (X15_decimal_node_text_is_read
           (Element "minEndTime" (Some " 0070 ") [leaf "tenths" "5"]) " 0070 ").
  - reflexivity.
  - vm_compute. discriminate.
  - reflexivity.
  - apply Nat.leb_le. reflexivity.
Defined.

(** ** The record extractor *)

Local Arguments append !s1 s2 : simpl nomatch.

Section Strings.
Local Open Scope nat_scope.

Lemma str_app_assoc (a b c : string) : ((a ++ b) ++ c = a ++ (b ++ c))%string.
Proof. induction a as [|x a IH]; simpl; [reflexivity|rewrite IH; reflexivity]. Qed.

Lemma str_app_length (a b : string) :
  String.length (a ++ b) = String.length a + String.length b.
Proof. induction a as [|x a IH]; simpl; [reflexivity|rewrite IH; reflexivity]. Qed.

Lemma substring_length (s : string) (n m : nat) :
  String.length (substring n m s) = Nat.min m (String.length s - n).
Proof.
  revert n m. induction s as [|c s IH]; intros [|n] [|m]; simpl; try reflexivity.
  - rewrite IH. rewrite Nat.sub_0_r. reflexivity.
  - rewrite IH. reflexivity.
  - rewrite IH. reflexivity.
Qed.

Lemma substring_substring (s : string) (i n q m : nat) :
  q + m <= n -> substring q m (substring i n s) = substring (i + q) m s.
Proof.
  revert i n q m. induction s as [|c s IH]; intros i n q m H.
  - destruct i, n, q, m; reflexivity.
  - destruct i as [|i].
    + destruct n as [|n].
      * assert (q = 0) by lia. assert (m = 0) by lia. subst. reflexivity.
      * cbn [substring Nat.add]. destruct q as [|q].
        -- destruct m as [|m]; [reflexivity|]. cbn [substring]. f_equal.
           apply (IH 0 n 0 m). lia.
        -- cbn [substring]. apply (IH 0 n q m). lia.
    + cbn [substring Nat.add]. apply IH. exact H.
Qed.

Lemma substring_shift (r t : string) (n m : nat) :
  substring (String.length r + n) m (r ++ t) = substring n m t.
Proof. induction r as [|c r IH]; simpl; [reflexivity|exact IH]. Qed.

Lemma substring_app_l (a t : string) (q m : nat) :
  q + m <= String.length a -> substring q m (a ++ t) = substring q m a.
Proof.
  revert q m. induction a as [|c a IH]; intros q m H; simpl in H.
  - assert (q = 0) by lia. assert (m = 0) by lia. subst. destruct t; reflexivity.
  - destruct q as [|q]; cbn [append substring].
    + destruct m as [|m]; [reflexivity|]. f_equal. apply IH. lia.
    + apply IH. lia.
Qed.

Lemma substring_whole (a : string) : substring 0 (String.length a) a = a.
Proof. induction a as [|c a IH]; simpl; [reflexivity|rewrite IH; reflexivity]. Qed.

Lemma prefix_split (s b : string) :
  prefix s b = true -> exists rest, b = (s ++ rest)%string.
Proof.
  revert b. induction s as [|a s IH]; intros b H.
  - exists b. reflexivity.
  - destruct b as [|c b]; [discriminate H|]. simpl in H.
    destruct (ascii_dec a c) as [->|]; [|discriminate H].
    destruct (IH b H) as [rest ->]. exists rest. reflexivity.
Qed.

Lemma index_ge (s t : string) (n p : nat) : index n s t = Some p -> n <= p.
Proof.
  revert n p. induction t as [|c t IH]; intros n p; simpl.
  - destruct n; [|discriminate]. destruct s; [|discriminate]. intros [= <-]. lia.
  - destruct n as [|n]; [lia|].
    destruct (index n s t) as [q|] eqn:E; [|discriminate].
    intros [= <-]. apply IH in E. lia.
Qed.

Lemma index_bound (s t : string) (n p : nat) :
  s <> EmptyString -> index n s t = Some p -> p + String.length s <= String.length t.
Proof.
  intros Hs H. apply index_correct1 in H.
  assert (L : String.length (substring p (String.length s) t) = String.length s)
    by (rewrite H; reflexivity).
  rewrite substring_length in L.
  assert (0 < String.length s) by (destruct s; [contradiction|simpl; lia]).
  lia.
Qed.

(** The first occurrence from a position is the one [index] returns. *)
Lemma index_first (s t : string) (n p : nat) :
  s <> EmptyString -> n <= p -> substring p (String.length s) t = s ->
  (forall q, n <= q -> q < p -> substring q (String.length s) t <> s) ->
  index n s t = Some p.
Proof.
  intros Hs Hn Hp Hq. destruct (index n s t) as [m|] eqn:E.
  - pose proof (index_ge _ _ _ _ E) as G.
    destruct (Nat.lt_trichotomy m p) as [L|[->|L]].
    + exfalso. apply (Hq m G L). exact (index_correct1 _ _ _ _ E).
    + reflexivity.
    + exfalso. exact (index_correct2 _ _ _ _ E p Hn L Hp).
  - exfalso. exact (index_correct3 n p s t E Hs Hn Hp).
Qed.

Lemma index_shift (r s t : string) (n : nat) :
  index (String.length r + n) s (r ++ t)
  = option_map (Nat.add (String.length r)) (index n s t).
Proof.
  induction r as [|c r IH]; cbn [String.length append Nat.add].
  - destruct (index n s t); reflexivity.
  - cbn [index]. rewrite IH. destruct (index n s t); reflexivity.
Qed.

Lemma index_app_l (s a t : string) (n p : nat) :
  s <> EmptyString -> index n s a = Some p -> index n s (a ++ t) = Some p.
Proof.
  intros Hs H. pose proof (index_bound _ _ _ _ Hs H) as B.
  apply index_first; [exact Hs|exact (index_ge _ _ _ _ H)| |].
  - rewrite substring_app_l by exact B. exact (index_correct1 _ _ _ _ H).
  - intros q Q1 Q2. rewrite substring_app_l by lia.
    exact (index_correct2 _ _ _ _ H q Q1 Q2).
Qed.

End Strings.

Section Extractor.
Local Open Scope nat_scope.

Variables open close : string.
Hypothesis open_nonempty : open <> EmptyString.
Hypothesis close_nonempty : close <> EmptyString.

(** A delimited record: it starts with the opening tag and its first closing
    tag is its end. *)
Definition is_record (r : string) : Prop :=
  prefix open r = true /\
  index 0 close r = Some (String.length r - String.length close).

(** Text between records: it holds no opening tag, not even one that the
    next record's own tag would complete. *)
Definition is_gap (g : string) : Prop :=
  index 0 open (g ++ open) = Some (String.length g).

(** The opening tag cannot run into the closing tag that follows it. *)
Definition overlap_free : bool :=
  forallb (fun k =>
             let m := Nat.min (String.length open - k) (String.length close) in
             negb (String.eqb (substring k m open) (substring 0 m close)))
          (seq 0 (String.length open)).

(** A log file written as gaps and records, closed by [tail]. *)
Fixpoint log (items : list (string * string)) (tail : string) : string :=
  match items with
  | [] => tail
  | (g, r) :: rest => (g ++ r ++ log rest tail)%string
  end.

Lemma blocks_loop_total (fuel : nat) (text : string) (start : nat) :
  start <= String.length text -> String.length text + 1 <= fuel + start ->
  exists bs, blocks_loop fuel open close text start = Some bs.
Proof.
  revert start. induction fuel as [|fuel IH]; intros start H1 H2; [lia|].
  cbn [blocks_loop]. unfold py_find.
  destruct (index start open text) as [i|] eqn:Ei; [|eauto].
  destruct (index i close text) as [j|] eqn:Ej; [|eauto].
  pose proof (index_ge _ _ _ _ Ei). pose proof (index_ge _ _ _ _ Ej).
  pose proof (index_bound _ _ _ _ close_nonempty Ej).
  assert (0 < String.length close) by (destruct close; [contradiction|simpl; lia]).
  destruct (IH (j + String.length close)) as [bs ->]; [lia|lia|]. eauto.
Qed.

Lemma blocks_loop_mono (fuel fuel' : nat) (text : string) (start : nat) (bs : list string) :
  blocks_loop fuel open close text start = Some bs -> fuel <= fuel' ->
  blocks_loop fuel' open close text start = Some bs.
Proof.
  revert fuel' start bs. induction fuel as [|fuel IH]; intros fuel' start bs; [discriminate|].
  destruct fuel' as [|fuel']; [lia|]. cbn [blocks_loop].
  destruct (py_find text open start) as [i|]; [|auto].
  destruct (py_find text close i) as [j|]; [|auto].
  destruct (blocks_loop fuel open close text (j + String.length close)) as [bs'|] eqn:E;
    [|discriminate].
  intros [= <-] L. rewrite (IH fuel' _ _ E) by lia. reflexivity.
Qed.

Lemma blocks_loop_shift (fuel : nat) (r t : string) (start : nat) :
  blocks_loop fuel open close (r ++ t) (String.length r + start)
  = blocks_loop fuel open close t start.
Proof.
  revert start. induction fuel as [|fuel IH]; intros start; [reflexivity|].
  cbn [blocks_loop]. unfold py_find. rewrite index_shift.
  destruct (index start open t) as [i|]; [|reflexivity]. cbn [option_map].
  rewrite index_shift.
  destruct (index i close t) as [j|]; [|reflexivity]. cbn [option_map].
  replace (String.length r + j + String.length close)
    with (String.length r + (j + String.length close)) by lia.
  rewrite IH.
  replace (String.length r + (j + String.length close) - (String.length r + i))
    with (j + String.length close - i) by lia.
  rewrite substring_shift. reflexivity.
Qed.

(** What the loop appends: the text from an opening tag to the end of the
    first closing tag at or after it. *)
Definition block_of (text b : string) : Prop :=
  exists i j, substring i (String.length open) text = open /\
              index i close text = Some j /\
              b = substring i (j + String.length close - i) text.

Lemma blocks_loop_blocks (fuel : nat) (text : string) (start : nat) (bs : list string) :
  blocks_loop fuel open close text start = Some bs -> Forall (block_of text) bs.
Proof.
  revert start bs. induction fuel as [|fuel IH]; intros start bs; [discriminate|].
  cbn [blocks_loop]. unfold py_find.
  destruct (index start open text) as [i|] eqn:Ei; [|intros [= <-]; constructor].
  destruct (index i close text) as [j|] eqn:Ej; [|intros [= <-]; constructor].
  destruct (blocks_loop fuel open close text (j + String.length close)) as [bs'|] eqn:E;
    [|discriminate].
  intros [= <-]. constructor; [|exact (IH _ _ E)].
  exists i, j. split; [exact (index_correct1 _ _ _ _ Ei)|]. split; [exact Ej|reflexivity].
Qed.

Lemma block_length (text b : string) :
  block_of text b ->
  exists i j, i <= j /\ index i close text = Some j /\
              substring i (String.length open) text = open /\
              b = substring i (j + String.length close - i) text /\
              String.length b = j + String.length close - i.
Proof.
  intros (i & j & Ho & Ej & ->). exists i, j.
  pose proof (index_ge _ _ _ _ Ej). pose proof (index_bound _ _ _ _ close_nonempty Ej).
  repeat split; auto. rewrite substring_length. lia.
Qed.

Lemma block_is_record (text b : string) :
  String.length open <= String.length close -> block_of text b -> is_record b.
Proof.
  intros Hlen Hb. destruct (block_length _ _ Hb) as (i & j & Hij & Ej & Ho & -> & L).
  split.
  - apply prefix_correct. rewrite substring_substring by lia.
    rewrite Nat.add_0_r. exact Ho.
  - rewrite L. apply index_first; [exact close_nonempty|lia| |].
    + rewrite substring_substring by lia.
      replace (i + (j + String.length close - i - String.length close)) with j by lia.
      exact (index_correct1 _ _ _ _ Ej).
    + intros q _ Q. rewrite substring_substring by lia.
      apply (index_correct2 _ _ _ _ Ej); lia.
Qed.

Lemma block_tags_apart (text b : string) :
  overlap_free = true -> block_of text b ->
  String.length open + String.length close <= String.length b.
Proof.
  intros Hfree Hb. destruct (block_length _ _ Hb) as (i & j & Hij & Ej & Ho & -> & L).
  rewrite L. destruct (Nat.lt_ge_cases j (i + String.length open)) as [Hlt|]; [exfalso|lia].
  unfold overlap_free in Hfree. rewrite forallb_forall in Hfree.
  specialize (Hfree (j - i)). cbv zeta in Hfree.
  set (m := Nat.min (String.length open - (j - i)) (String.length close)) in Hfree.
  assert (Hin : In (j - i) (seq 0 (String.length open))) by (apply in_seq; lia).
  apply Hfree in Hin. apply negb_true_iff in Hin. apply String.eqb_neq in Hin. apply Hin.
  subst m. transitivity (substring (i + (j - i))
                           (Nat.min (String.length open - (j - i)) (String.length close)) text).
  - rewrite <- (substring_substring text i (String.length open)) by lia.
    rewrite Ho. reflexivity.
  - replace (i + (j - i)) with (j + 0) by lia.
    rewrite <- (substring_substring text j (String.length close)) by lia.
    rewrite (index_correct1 _ _ _ _ Ej). reflexivity.
Qed.

Lemma parse_blocks_total (text : string) :
  exists bs, parse_blocks open close text = Some bs /\ Forall (block_of text) bs.
Proof.
  destruct (blocks_loop_total (S (String.length text)) text 0) as [bs E]; [lia|lia|].
  exists bs. split; [exact E|exact (blocks_loop_blocks _ _ _ _ E)].
Qed.

Lemma parse_blocks_cons (g r t : string) (bs : list string) :
  is_gap g -> is_record r -> parse_blocks open close t = Some bs ->
  parse_blocks open close (g ++ r ++ t) = Some (r :: bs).
Proof.
  intros Hg [Hp Hc] Ht. unfold parse_blocks in *.
  destruct (prefix_split _ _ Hp) as [rest Er].
  pose proof (index_bound _ _ _ _ close_nonempty Hc) as Bc.
  assert (0 < String.length close) by (destruct close; [contradiction|simpl; lia]).
  assert (Ei : index 0 open (g ++ r ++ t) = Some (String.length g)).
  { rewrite Er, str_app_assoc, <- (str_app_assoc g open). apply index_app_l; assumption. }
  assert (Ej : index (String.length g) close (g ++ r ++ t)
               = Some (String.length g + (String.length r - String.length close))).
  { rewrite <- (Nat.add_0_r (String.length g)) at 1. rewrite index_shift.
    rewrite (index_app_l _ _ t _ _ close_nonempty Hc). reflexivity. }
  cbn [blocks_loop]. unfold py_find. rewrite Ei, Ej.
  replace (String.length g + (String.length r - String.length close) + String.length close)
    with (String.length (g ++ r) + 0) by (rewrite str_app_length; lia).
  rewrite <- (str_app_assoc g r t), blocks_loop_shift.
  rewrite (blocks_loop_mono _ (String.length ((g ++ r) ++ t)) _ _ _ Ht)
    by (rewrite !str_app_length; lia).
  f_equal. f_equal.
  replace (String.length (g ++ r) + 0 - String.length g) with (String.length r)
    by (rewrite str_app_length; lia).
  rewrite str_app_assoc.
  rewrite <- (Nat.add_0_r (String.length g)), substring_shift.
  rewrite substring_app_l by lia. apply substring_whole.
Qed.

Lemma parse_blocks_log (items : list (string * string)) (tail : string) (bs : list string) :
  Forall (fun item => is_gap (fst item) /\ is_record (snd item)) items ->
  parse_blocks open close tail = Some bs ->
  parse_blocks open close (log items tail) = Some (map snd items ++ bs)%list.
Proof.
  intros Hall Ht. induction Hall as [|[g r] rest [Hg Hr] _ IH]; [exact Ht|].
  cbn [log map snd app]. apply parse_blocks_cons; assumption.
Qed.

End Extractor.

Local Open Scope nat_scope.

(** X16.  The record extractor stops on every text, and each block it
    returns is a delimited record: it begins with the opening tag, its first
    closing tag is its end, and the two tags do not share characters. *)
Theorem X16_blocks_are_delimited_records (text : string) :
  (exists bs, parse_map_blocks text = Some bs /\
     Forall (fun b => is_record "<MapData>" "</MapData>" b /\ 19 <= String.length b) bs) /\
  (exists bs, parse_spat_blocks text = Some bs /\
     Forall (fun b => is_record "<SPAT>" "</SPAT>" b /\ 13 <= String.length b) bs).
Proof.
  split.
  - destruct (parse_blocks_total "<MapData>" "</MapData>" ltac:(discriminate) text)
      as (bs & E & Hbs).
    exists bs. split; [exact E|]. eapply Forall_impl; [|exact Hbs]. intros b Hb. split.
    + apply (block_is_record "<MapData>" "</MapData>" ltac:(discriminate) text);
        [simpl; lia|exact Hb].
    + apply (block_tags_apart "<MapData>" "</MapData>" ltac:(discriminate) text b);
        [reflexivity|exact Hb].
  - destruct (parse_blocks_total "<SPAT>" "</SPAT>" ltac:(discriminate) text)
      as (bs & E & Hbs).
    exists bs. split; [exact E|]. eapply Forall_impl; [|exact Hbs]. intros b Hb. split.
    + apply (block_is_record "<SPAT>" "</SPAT>" ltac:(discriminate) text);
        [simpl; lia|exact Hb].
    + apply (block_tags_apart "<SPAT>" "</SPAT>" ltac:(discriminate) text b);
        [reflexivity|exact Hb].
Qed.

(** X17.  Extraction undoes concatenation: a log written as delimited
    records, each after a gap that holds no opening tag, followed by any
    tail, yields exactly those records, in order, and then the blocks of the
    tail; this holds for the MapData extractor and for the SPaT one. *)
Theorem X17_blocks_of_a_log (items : list (string * string)) (tail : string)
    (bs : list string) :
  (Forall (fun item => is_gap "<MapData>" (fst item) /\
                       is_record "<MapData>" "</MapData>" (snd item)) items ->
   parse_map_blocks tail = Some bs ->
   parse_map_blocks (log items tail) = Some (map snd items ++ bs)%list) /\
  (Forall (fun item => is_gap "<SPAT>" (fst item) /\
                       is_record "<SPAT>" "</SPAT>" (snd item)) items ->
   parse_spat_blocks tail = Some bs ->
   parse_spat_blocks (log items tail) = Some (map snd items ++ bs)%list).
Proof.
  split; apply parse_blocks_log; discriminate.
Qed.

Lemma X17_blocks_of_a_log_witness :
  parse_spat_blocks
    (log [("log start "%string, "<SPAT><moy>1</moy></SPAT>"%string);
          (" < "%string, "<SPAT></SPAT>"%string)] "<SPAT> cut short")
  = Some ["<SPAT><moy>1</moy></SPAT>"%string; "<SPAT></SPAT>"%string].
Proof.
  apply (proj2 (X17_blocks_of_a_log
                  [("log start "%string, "<SPAT><moy>1</moy></SPAT>"%string);
                   (" < "%string, "<SPAT></SPAT>"%string)] "<SPAT> cut short" [])).
  - repeat constructor.
  - reflexivity.
Defined.

Local Close Scope nat_scope.
